(** * ReFT interventions (paddlenlp/peft/reft/interventions.py)

    A shallow embedding of [LowRankRotateLayer], [LoreftIntervention],
    [TinyIntervention] and [intervention_mapping], together with the tensor
    primitives of the host framework that they call.

    Numeric model.  Tensor entries are elements of a commutative ring
    ([Scalar]); arithmetic is exact.  The rounding that floating-point
    operations and dtype conversions perform is outside the model: a dtype is
    a tag carried by the tensor, and [astype] changes the tag. *)

From Stdlib Require Import ZArith QArith List Lia Bool Ring.
From Stdlib Require Import ZArithRing.
From stdpp Require Import gmap strings list fin_maps.

Open Scope nat_scope.
Open Scope list_scope.

(** ** Scalars *)

Class Scalar (K : Type) : Type := {
  k0 : K;
  k1 : K;
  kadd : K -> K -> K;
  kmul : K -> K -> K;
  ksub : K -> K -> K;
  kopp : K -> K;
  kleb : K -> K -> bool;
  K_ring : ring_theory k0 k1 kadd kmul ksub kopp (@eq K)
}.

Declare Scope K_scope.
Delimit Scope K_scope with K.
Infix "+" := kadd : K_scope.
Infix "*" := kmul : K_scope.
Infix "-" := ksub : K_scope.

#[export] Instance Z_Scalar : Scalar Z := {|
  k0 := 0%Z; k1 := 1%Z;
  kadd := Z.add; kmul := Z.mul; ksub := Z.sub; kopp := Z.opp;
  kleb := Z.leb;
  K_ring := Zth
|}.

(** ** Python exceptions and the result type *)

Inductive exn : Type :=
  | KeyError (key : string)
  | ValueError
  | AssertionError
  | AttributeError (name : string)
  | TypeError.

Definition res (A : Type) : Type := exn + A.

Definition ret {A} (a : A) : res A := inr a.
Definition raise {A} (e : exn) : res A := inl e.
Definition bind {A B} (m : res A) (f : A -> res B) : res B :=
  match m with
  | inl e => inl e
  | inr a => f a
  end.

Notation "'let*' x ':=' m 'in' k" := (bind m (fun x => k))
  (at level 10, x name, m at level 200, k at level 200,
   format "'[v' 'let*'  x  ':='  m  'in' '/' k ']'").

(** [d[key]] on a Python dict. *)
Definition getitem {V} (d : gmap string V) (key : string) : res V :=
  match d !! key with
  | Some v => ret v
  | None => raise (KeyError key)
  end.

(** ** The framework's tensors and primitives *)

Module paddle.

Inductive DType : Type := float16 | bfloat16 | float32 | float64.

Definition DType_eqb (a b : DType) : bool :=
  match a, b with
  | float16, float16 | bfloat16, bfloat16
  | float32, float32 | float64, float64 => true
  | _, _ => false
  end.

(** Result dtype of a binary operation on tensors of dtypes [a] and [b]:
    operands of different dtypes are combined at the wider one. *)
Definition promote_types (a b : DType) : DType :=
  match a, b with
  | float64, _ | _, float64 => float64
  | float32, _ | _, float32 => float32
  | float16, float16 => float16
  | bfloat16, bfloat16 => bfloat16
  | _, _ => float32
  end.

(** The dtype of a layer's parameters when none is given. *)
Definition default_dtype : DType := float32.

Section Ops.
Context {K : Type} {SK : Scalar K}.
Local Open Scope K_scope.

(** A tensor of rank at least one, of shape [lead ++ [width]]: the leading
    dimensions are flattened into a list of rows of [width] entries each. *)
Record Tensor : Type := mkTensor {
  dtype : DType;
  lead : list nat;
  width : nat;
  rows : list (list K)
}.

Definition shape (t : Tensor) : list nat := lead t ++ [width t].

Definition numel (dims : list nat) : nat := fold_right Nat.mul 1%nat dims.

Definition wf (t : Tensor) : Prop :=
  length (rows t) = numel (lead t) /\
  Forall (fun r => length r = width t) (rows t).

Definition ksum (l : list K) : K := fold_right kadd k0 l.

(** [bigsum n f] is f 0 + f 1 + ... + f (n-1). *)
Definition bigsum (n : nat) (f : nat -> K) : K := ksum (map f (seq 0 n)).

Definition entry (t : Tensor) (i j : nat) : K := nth j (nth i (rows t) []) k0.

(** [Tensor.astype(d)] *)
Definition astype (d : DType) (t : Tensor) : Tensor :=
  {| dtype := d; lead := lead t; width := width t; rows := rows t |}.

Definition dot (u v : list K) : K := ksum (zip_with kmul u v).

Definition column (j : nat) (M : list (list K)) : list K :=
  map (fun r => nth j r k0) M.

Definition transpose_rows (w : nat) (M : list (list K)) : list (list K) :=
  map (fun j => column j M) (seq 0 w).

Definition vec_mat (w : nat) (M : list (list K)) (v : list K) : list K :=
  map (dot v) (transpose_rows w M).

(** [x @ y] for [x] of shape [..., n] and a two-dimensional [y] of shape
    [n, m], which is what every call site of the interventions passes.
    The operator combines operands of different dtypes at the wider one. *)
Definition op_matmul (x y : Tensor) : res Tensor :=
  match lead y with
  | [n] =>
      if Nat.eqb (width x) n then
        ret {| dtype := promote_types (dtype x) (dtype y);
               lead := lead x;
               width := width y;
               rows := map (vec_mat (width y) (rows y)) (rows x) |}
      else raise ValueError
  | _ => raise ValueError
  end.

(** [paddle.matmul(x, y)]: the same product, but the function refuses
    operands of different dtypes. *)
Definition matmul (x y : Tensor) : res Tensor :=
  if DType_eqb (dtype x) (dtype y) then op_matmul x y else raise ValueError.

(** [Tensor.T] of a two-dimensional tensor. *)
Definition T (t : Tensor) : Tensor :=
  {| dtype := dtype t;
     lead := [width t];
     width := length (rows t);
     rows := transpose_rows (width t) (rows t) |}.

Definition same_shape (x y : Tensor) : bool :=
  bool_decide (lead x = lead y) && Nat.eqb (width x) (width y).

(** Elementwise binary operation on tensors of one shape.  Broadcasting
    between tensors of different shapes is not modelled: it raises. *)
Definition elementwise (f : K -> K -> K) (x y : Tensor) : res Tensor :=
  if same_shape x y then
    ret {| dtype := promote_types (dtype x) (dtype y);
           lead := lead x;
           width := width x;
           rows := zip_with (zip_with f) (rows x) (rows y) |}
  else raise ValueError.

(** [x + y] and [x - y] *)
Definition add : Tensor -> Tensor -> res Tensor := elementwise kadd.
Definition subtract : Tensor -> Tensor -> res Tensor := elementwise ksub.

Definition tensor_map (f : K -> K) (t : Tensor) : Tensor :=
  {| dtype := dtype t; lead := lead t; width := width t;
     rows := map (map f) (rows t) |}.

(** [x * c] for a Python number [c] *)
Definition scale (x : Tensor) (c : K) : Tensor :=
  tensor_map (fun v => v * c) x.

(** The square matrix of size [w] with [d] on its diagonal and zeros
    elsewhere. *)
Definition diag_rows (w : nat) (d : list K) : list (list K) :=
  map (fun i => map (fun j => if Nat.eqb i j then nth i d k0 else k0) (seq 0 w))
      (seq 0 w).

(** [paddle.diag(v)] of a one-dimensional [v]. *)
Definition diag (v : Tensor) : res Tensor :=
  match lead v, rows v with
  | [], [r] =>
      ret {| dtype := dtype v;
             lead := [width v];
             width := width v;
             rows := diag_rows (width v) r |}
  | _, _ => raise ValueError
  end.

(** [nn.ReLU()] *)
Definition ReLU (t : Tensor) : Tensor :=
  tensor_map (fun v => if kleb v k0 then k0 else v) t.

(** The tensor of dtype [d] and shape [n, m] whose entry [(i, j)] is
    [init i j]. *)
Definition tensor2 (d : DType) (n m : nat) (init : nat -> nat -> K)
  : Tensor :=
  {| dtype := d; lead := [n]; width := m;
     rows := map (fun i => map (init i) (seq 0 m)) (seq 0 n) |}.

(** The tensor of dtype [d] and shape [n] whose entry [i] is [init i]. *)
Definition tensor1 (d : DType) (n : nat) (init : nat -> K) : Tensor :=
  {| dtype := d; lead := []; width := n; rows := [map init (seq 0 n)] |}.

(** [Layer.create_parameter(shape=[n, m])]: every dimension must be
    positive; the entries are drawn by the initializer [init]. *)
Definition create_parameter2 (d : DType) (n m : nat) (init : nat -> nat -> K)
  : res Tensor :=
  if Nat.ltb 0 n && Nat.ltb 0 m then ret (tensor2 d n m init)
  else raise AssertionError.

(** [Layer.create_parameter(shape=[n])]. *)
Definition create_parameter1 (d : DType) (n : nat) (init : nat -> K)
  : res Tensor :=
  if Nat.ltb 0 n then ret (tensor1 d n init) else raise AssertionError.

Definition Constant (c : K) : nat -> nat -> K := fun _ _ => c.

(** [nn.Linear]: weight of shape [in_features, out_features], bias of shape
    [out_features]. *)
Record Linear : Type := mkLinear {
  lin_weight : Tensor;
  lin_bias : Tensor
}.

Definition Linear_init (in_features out_features : nat)
    (weight_init : nat -> nat -> K) : res Linear :=
  let* weight := create_parameter2 default_dtype in_features out_features
                   weight_init in
  let* bias := create_parameter1 default_dtype out_features (fun _ => k0) in
  ret {| lin_weight := weight; lin_bias := bias |}.

(** [Layer.astype(d)] casts the parameters. *)
Definition Linear_astype (d : DType) (l : Linear) : Linear :=
  {| lin_weight := astype d (lin_weight l); lin_bias := astype d (lin_bias l) |}.

(** [F.linear(x, weight, bias)]: [matmul(x, weight) + bias], the bias (one
    row) added to every row; the input must have the weight's dtype. *)
Definition Linear_forward (l : Linear) (x : Tensor) : res Tensor :=
  let* xw := matmul x (lin_weight l) in
  match lead (lin_bias l), rows (lin_bias l) with
  | [], [b] =>
      if Nat.eqb (width (lin_bias l)) (width xw) then
        ret {| dtype := promote_types (dtype xw) (dtype (lin_bias l));
               lead := lead xw;
               width := width xw;
               rows := map (fun r => zip_with kadd r b) (rows xw) |}
      else raise ValueError
  | _, _ => raise ValueError
  end.

(** [nn.Dropout(p)].  The random keep-mask, already scaled by 1/(1-p), is an
    explicit argument: [mask i j] multiplies entry [j] of row [i]. *)
Record Dropout : Type := mkDropout {
  p : Q;
  training : bool
}.

Definition Dropout_forward (d : Dropout) (mask : nat -> nat -> K) (x : Tensor)
  : res Tensor :=
  if Qeq_bool (p d) 0 then ret x
  else if negb (Qle_bool 0 (p d)) || negb (Qle_bool (p d) 1) then raise ValueError
  else if training d then
    ret {| dtype := dtype x; lead := lead x; width := width x;
           rows := imap (fun i r => imap (fun j v => v * mask i j) r) (rows x) |}
  else ret x.

(** [w[:, :c] = v] on a two-dimensional [w]: the slice has
    [min c (width w)] columns; [v] must have the slice's shape or be a single
    row of its width, which is then written to every row.  The stored entries
    take [w]'s dtype. *)
Definition overwrite_prefix (c : nat) (old new : list K) : list K :=
  firstn c new ++ skipn c old.

Definition setitem_cols (w : Tensor) (c : nat) (v : Tensor) : res Tensor :=
  match lead w with
  | [n] =>
      let c' := Nat.min c (width w) in
      if Nat.eqb (width v) c' then
        if bool_decide (lead v = [n]) then
          ret {| dtype := dtype w; lead := lead w; width := width w;
                 rows := zip_with (overwrite_prefix c') (rows w) (rows v) |}
        else
          match lead v, rows v with
          | [], [r] | [1%nat], [r] =>
              ret {| dtype := dtype w; lead := lead w; width := width w;
                     rows := map (fun old => overwrite_prefix c' old r) (rows w) |}
          | _, _ => raise ValueError
          end
      else raise ValueError
  | _ => raise ValueError
  end.

(** [Tensor.set_value(value)]: asserts equal shape and dtype, then copies. *)
Definition set_value (param value : Tensor) : res Tensor :=
  if bool_decide (shape param = shape value) && DType_eqb (dtype param) (dtype value)
  then ret value
  else raise AssertionError.

End Ops.
End paddle.

Import paddle.

(** ** State threaded through methods that assign to attributes of [self]

    A method that raises leaves the assignments it has already made in
    place, so the state is returned next to the outcome. *)

Definition Method (S A : Type) : Type := S -> S * res A.

Definition mret {S A} (a : A) : Method S A := fun s => (s, ret a).
Definition mlift {S A} (m : res A) : Method S A := fun s => (s, m).
Definition mmodify {S} (f : S -> S) : Method S unit := fun s => (f s, ret tt).
Definition mget {S} : Method S S := fun s => (s, ret s).
Definition mbind_st {S A B} (m : Method S A) (f : A -> Method S B) : Method S B :=
  fun s =>
    match m s with
    | (s', inl e) => (s', inl e)
    | (s', inr a) => f a s'
    end.

Notation "'let!' x ':=' m 'in' k" := (mbind_st m (fun x => k))
  (at level 10, x name, m at level 200, k at level 200,
   format "'[v' 'let!'  x  ':='  m  'in' '/' k ']'").
Notation "m ';;!' k" := (mbind_st m (fun _ => k))
  (at level 10, k at level 200, format "'[v' m  ';;!' '/' k ']'").

(** ** The source file *)

Section Interventions.
Context {K : Type} {SK : Scalar K}.
Local Open Scope K_scope.

Local Abbreviation Tensor := (@paddle.Tensor K).

(** [def linear_act(x): return x] *)
Definition linear_act (x : Tensor) : Tensor := x.

Definition ACT2FN : gmap string (Tensor -> Tensor) :=
  {[ "linear" := linear_act; "relu" := paddle.ReLU ]}.

(** *** LowRankRotateLayer *)

Record LowRankRotateLayer : Type := mkLowRankRotateLayer {
  weight : Tensor
}.

(** [__init__(self, n, m)]; [Orthogonal] is the initializer's draw. *)
Definition LowRankRotateLayer_init (Orthogonal : nat -> nat -> K) (n m : nat)
  : res LowRankRotateLayer :=
  let* weight := create_parameter2 default_dtype n m Orthogonal in
  ret {| weight := weight |}.

Definition LowRankRotateLayer_forward (self : LowRankRotateLayer) (x : Tensor)
  : res Tensor :=
  matmul (astype (dtype (weight self)) x) (weight self).

(** *** Keyword arguments of the constructors

    One optional field per key that a constructor reads, at the type its use
    requires; [kw_act_fn = Some None] is [act_fn=None]. *)
Record Kwargs : Type := mkKwargs {
  kw_embed_dim : option nat;
  kw_low_rank_dimension : option nat;
  kw_dtype : option DType;
  kw_dropout : option Q;
  kw_act_fn : option (option string)
}.

(** [kwargs[key]] *)
Definition kwargs_getitem {A} (key : string) (field : option A) : res A :=
  match field with
  | Some v => ret v
  | None => raise (KeyError key)
  end.

(** *** LoreftIntervention *)

Record LoreftIntervention : Type := mkLoreftIntervention {
  rotate_layer : LowRankRotateLayer;
  learned_source : Linear (K:=K);
  data_type : DType;
  dropout : Dropout;
  act_fn : Tensor -> Tensor
}.

Definition LoreftIntervention_init (Orthogonal_R Orthogonal_W : nat -> nat -> K)
    (kwargs : Kwargs) : res LoreftIntervention :=
  let* n := kwargs_getitem "embed_dim" (kw_embed_dim kwargs) in
  let* m := kwargs_getitem "low_rank_dimension" (kw_low_rank_dimension kwargs) in
  let* rotate_layer := LowRankRotateLayer_init Orthogonal_R n m in
  let* n' := kwargs_getitem "embed_dim" (kw_embed_dim kwargs) in
  let* m' := kwargs_getitem "low_rank_dimension" (kw_low_rank_dimension kwargs) in
  let* learned_source := Linear_init n' m' Orthogonal_W in
  let* data_type := kwargs_getitem "dtype" (kw_dtype kwargs) in
  let learned_source := Linear_astype data_type learned_source in
  let dropout :=
    {| p := match kw_dropout kwargs with Some q => q | None => 0%Q end;
       training := true |} in
  let* act_fn :=
    match kw_act_fn kwargs with
    | None | Some None => getitem ACT2FN "linear"
    | Some (Some name) => getitem ACT2FN name
    end in
  ret {| rotate_layer := rotate_layer;
         learned_source := learned_source;
         data_type := data_type;
         dropout := dropout;
         act_fn := act_fn |}.

Definition LoreftIntervention_forward (self : LoreftIntervention)
    (mask : nat -> nat -> K) (base : Tensor) : res Tensor :=
  let* rotated_base := LowRankRotateLayer_forward (rotate_layer self) base in
  let* source := Linear_forward (learned_source self) base in
  let* diff := subtract (act_fn self source) rotated_base in
  let* edit := matmul diff (T (weight (rotate_layer self))) in
  let* output := add base edit in
  Dropout_forward (dropout self) mask (astype (dtype base) output).

Definition set_learned_source_weight (v : Tensor) (self : LoreftIntervention)
  : LoreftIntervention :=
  {| rotate_layer := rotate_layer self;
     learned_source := {| lin_weight := v; lin_bias := lin_bias (learned_source self) |};
     data_type := data_type self;
     dropout := dropout self;
     act_fn := act_fn self |}.

Definition set_learned_source_bias (v : Tensor) (self : LoreftIntervention)
  : LoreftIntervention :=
  {| rotate_layer := rotate_layer self;
     learned_source := {| lin_weight := lin_weight (learned_source self); lin_bias := v |};
     data_type := data_type self;
     dropout := dropout self;
     act_fn := act_fn self |}.

Definition set_rotate_layer_weight (v : Tensor) (self : LoreftIntervention)
  : LoreftIntervention :=
  {| rotate_layer := {| weight := v |};
     learned_source := learned_source self;
     data_type := data_type self;
     dropout := dropout self;
     act_fn := act_fn self |}.

Definition LoreftIntervention_load_state_dict (state_dict : gmap string Tensor)
  : Method LoreftIntervention unit :=
  let! self := mget in
  let! w := mlift (getitem state_dict "learned_source.weight") in
  mmodify (set_learned_source_weight (astype (data_type self) w)) ;;!
  let! b := mlift (getitem state_dict "learned_source.bias") in
  mmodify (set_learned_source_bias (astype (data_type self) b)) ;;!
  let! rw := mlift (getitem state_dict "rotate_layer.weight") in
  let overload_w := astype (data_type self) rw in
  let overload_w_width := width overload_w in
  let! new_w := mlift (setitem_cols (weight (rotate_layer self))
                                     overload_w_width overload_w) in
  mmodify (set_rotate_layer_weight new_w).

(** *** TinyIntervention *)

Record TinyIntervention : Type := mkTinyIntervention {
  rank : nat;
  hidden_size : nat;
  tiny_dropout : option Dropout;   (* [None] is [lambda x: x] *)
  scaling : K;
  param_A : Tensor;
  param_B : Tensor;
  param_a : Tensor;
  param_b : Tensor
}.

Definition TinyIntervention_init (KaimingUniform : nat -> nat -> K)
    (kwargs : Kwargs) : res TinyIntervention :=
  let* rank := kwargs_getitem "low_rank_dimension" (kw_low_rank_dimension kwargs) in
  let* hidden_size := kwargs_getitem "embed_dim" (kw_embed_dim kwargs) in
  let dropout := 0%Q in
  let dropout_layer :=
    if negb (Qle_bool dropout 0)
    then Some {| p := dropout; training := true |}
    else None in
  let* param_A := create_parameter2 default_dtype hidden_size rank KaimingUniform in
  let* param_B := create_parameter2 default_dtype rank hidden_size (Constant k0) in
  let* param_a := create_parameter1 default_dtype rank (fun _ => k1) in
  let* param_b := create_parameter1 default_dtype hidden_size (fun _ => k1) in
  ret {| rank := rank;
         hidden_size := hidden_size;
         tiny_dropout := dropout_layer;
         scaling := k1;
         param_A := param_A;
         param_B := param_B;
         param_a := param_a;
         param_b := param_b |}.

(** [self.dropout(x)] *)
Definition TinyIntervention_dropout (self : TinyIntervention)
    (mask : nat -> nat -> K) (x : Tensor) : res Tensor :=
  match tiny_dropout self with
  | Some d => Dropout_forward d mask x
  | None => ret x
  end.

Definition TinyIntervention_forward (self : TinyIntervention)
    (mask1 mask2 : nat -> nat -> K) (base : Tensor) : res Tensor :=
  let* diag_b := diag (param_b self) in
  let* diag_a := diag (param_a self) in
  let* x0 := TinyIntervention_dropout self mask1 base in
  let* x1 := op_matmul x0 (param_A self) in
  let* x2 := op_matmul x1 diag_a in
  let* x3 := op_matmul x2 (param_B self) in
  let* x4 := op_matmul x3 diag_b in
  let result := scale x4 (scaling self) in
  let* output := add base (astype (dtype base) result) in
  TinyIntervention_dropout self mask2 output.

Definition set_param_A (v : Tensor) (self : TinyIntervention) : TinyIntervention :=
  {| rank := rank self; hidden_size := hidden_size self;
     tiny_dropout := tiny_dropout self; scaling := scaling self;
     param_A := v; param_B := param_B self;
     param_a := param_a self; param_b := param_b self |}.

Definition set_param_B (v : Tensor) (self : TinyIntervention) : TinyIntervention :=
  {| rank := rank self; hidden_size := hidden_size self;
     tiny_dropout := tiny_dropout self; scaling := scaling self;
     param_A := param_A self; param_B := v;
     param_a := param_a self; param_b := param_b self |}.

Definition set_param_a (v : Tensor) (self : TinyIntervention) : TinyIntervention :=
  {| rank := rank self; hidden_size := hidden_size self;
     tiny_dropout := tiny_dropout self; scaling := scaling self;
     param_A := param_A self; param_B := param_B self;
     param_a := v; param_b := param_b self |}.

Definition set_param_b (v : Tensor) (self : TinyIntervention) : TinyIntervention :=
  {| rank := rank self; hidden_size := hidden_size self;
     tiny_dropout := tiny_dropout self; scaling := scaling self;
     param_A := param_A self; param_B := param_B self;
     param_a := param_a self; param_b := v |}.

Definition TinyIntervention_load_state_dict (state_dict : gmap string Tensor)
  : Method TinyIntervention unit :=
  let! self := mget in
  let! vA := mlift (getitem state_dict "param_A") in
  let! pA := mlift (set_value (param_A self) vA) in
  mmodify (set_param_A pA) ;;!
  let! vB := mlift (getitem state_dict "param_B") in
  let! pB := mlift (set_value (param_B self) vB) in
  mmodify (set_param_B pB) ;;!
  let! va := mlift (getitem state_dict "param_a") in
  let! pa := mlift (set_value (param_a self) va) in
  mmodify (set_param_a pa) ;;!
  let! vb := mlift (getitem state_dict "param_b") in
  let! pb := mlift (set_value (param_b self) vb) in
  mmodify (set_param_b pb).

End Interventions.

(** *** intervention_mapping *)

Inductive InterventionClass : Type :=
  | LoreftIntervention_class
  | TinyIntervention_class.

Definition intervention_mapping : gmap string InterventionClass :=
  {[ "LoreftIntervention" := LoreftIntervention_class;
     "TinyIntervention" := TinyIntervention_class ]}.

(** ** The interventions as objects in a store

    The same forward methods with every attribute access of [self] made
    explicit: an object is an identity, and its attributes live in a store
    keyed by identity and attribute path. *)

Section Store.
Context {K : Type} {SK : Scalar K}.
Local Open Scope K_scope.

Local Abbreviation Tensor := (@paddle.Tensor K).

Inductive Attr : Type :=
  | ATensor (t : Tensor)
  | ANumber (c : K)
  | ADropout (d : Dropout)          (* an [nn.Dropout] layer *)
  | AIdentity                       (* [lambda x: x] *)
  | AFunction (f : Tensor -> Tensor)
  | ADType (d : DType)
  | AInt (n : nat).

Local Abbreviation Store := (gmap (nat * string) Attr).

(** [self.name] *)
Definition getattr (self : nat) (name : string) : Method Store Attr :=
  fun s =>
    (s, match s !! (self, name) with
        | Some v => ret v
        | None => raise (AttributeError name)
        end).

Definition as_tensor (v : Attr) : res Tensor :=
  match v with ATensor t => ret t | _ => raise TypeError end.

Definition as_function (v : Attr) : res (Tensor -> Tensor) :=
  match v with AFunction f => ret f | _ => raise TypeError end.

Definition as_number (v : Attr) : res K :=
  match v with ANumber c => ret c | _ => raise TypeError end.

Definition get_tensor (self : nat) (name : string) : Method Store Tensor :=
  let! v := getattr self name in mlift (as_tensor v).

(** [self.dropout(x)], for a dropout layer or the identity lambda. *)
Definition call_dropout (v : Attr) (mask : nat -> nat -> K) (x : Tensor)
  : res Tensor :=
  match v with
  | ADropout d => Dropout_forward d mask x
  | AIdentity => ret x
  | _ => raise TypeError
  end.

(** [self.rotate_layer(x)] *)
Definition LowRankRotateLayer_forward_at (self : nat) (x : Tensor)
  : Method Store Tensor :=
  let! weight := get_tensor self "rotate_layer.weight" in
  mlift (matmul (astype (dtype weight) x) weight).

Definition LoreftIntervention_forward_at (self : nat) (mask : nat -> nat -> K)
    (base : Tensor) : Method Store Tensor :=
  let! rotated_base := LowRankRotateLayer_forward_at self base in
  let! act_fn := getattr self "act_fn" in
  let! act_fn := mlift (as_function act_fn) in
  let! weight := get_tensor self "learned_source.weight" in
  let! bias := get_tensor self "learned_source.bias" in
  let! source := mlift (Linear_forward {| lin_weight := weight; lin_bias := bias |}
                                        base) in
  let! diff := mlift (subtract (act_fn source) rotated_base) in
  let! rotate_weight := get_tensor self "rotate_layer.weight" in
  let! edit := mlift (matmul diff (T rotate_weight)) in
  let! output := mlift (add base edit) in
  let! dropout := getattr self "dropout" in
  mlift (call_dropout dropout mask (astype (dtype base) output)).

Definition TinyIntervention_forward_at (self : nat) (mask1 mask2 : nat -> nat -> K)
    (base : Tensor) : Method Store Tensor :=
  let! param_b := get_tensor self "param_b" in
  let! diag_b := mlift (diag param_b) in
  let! param_a := get_tensor self "param_a" in
  let! diag_a := mlift (diag param_a) in
  let! dropout := getattr self "dropout" in
  let! x0 := mlift (call_dropout dropout mask1 base) in
  let! param_A := get_tensor self "param_A" in
  let! x1 := mlift (op_matmul x0 param_A) in
  let! x2 := mlift (op_matmul x1 diag_a) in
  let! param_B := get_tensor self "param_B" in
  let! x3 := mlift (op_matmul x2 param_B) in
  let! x4 := mlift (op_matmul x3 diag_b) in
  let! scaling := getattr self "scaling" in
  let! scaling := mlift (as_number scaling) in
  let result := scale x4 scaling in
  let! output := mlift (add base (astype (dtype base) result)) in
  let! dropout := getattr self "dropout" in
  mlift (call_dropout dropout mask2 output).

(** The attributes of an intervention, as its constructor assigns them. *)
Definition store_LoreftIntervention (self : nat) (obj : LoreftIntervention (K:=K))
    (s : Store) : Store :=
  <[(self, "rotate_layer.weight") := ATensor (weight (rotate_layer obj))]>
  (<[(self, "learned_source.weight") := ATensor (lin_weight (learned_source obj))]>
  (<[(self, "learned_source.bias") := ATensor (lin_bias (learned_source obj))]>
  (<[(self, "data_type") := ADType (data_type obj)]>
  (<[(self, "dropout") := ADropout (dropout obj)]>
  (<[(self, "act_fn") := AFunction (act_fn obj)]> s))))).

Definition store_TinyIntervention (self : nat) (obj : TinyIntervention (K:=K))
    (s : Store) : Store :=
  <[(self, "rank") := AInt (rank obj)]>
  (<[(self, "hidden_size") := AInt (hidden_size obj)]>
  (<[(self, "dropout") := match tiny_dropout obj with
                          | Some d => ADropout d
                          | None => AIdentity
                          end]>
  (<[(self, "scaling") := ANumber (scaling obj)]>
  (<[(self, "param_A") := ATensor (param_A obj)]>
  (<[(self, "param_B") := ATensor (param_B obj)]>
  (<[(self, "param_a") := ATensor (param_a obj)]>
  (<[(self, "param_b") := ATensor (param_b obj)]> s))))))).

End Store.

(** ** Vocabulary of the statements *)

Section Vocabulary.
Context {K : Type} {SK : Scalar K}.
Local Open Scope K_scope.

Local Abbreviation Tensor := (@paddle.Tensor K).

(** A two-dimensional tensor of shape [n, m]. *)
Definition is_matrix (n m : nat) (t : Tensor) : Prop :=
  lead t = [n] /\ width t = m /\ wf t.

(** A one-dimensional tensor of shape [n]. *)
Definition is_vector (n : nat) (t : Tensor) : Prop :=
  lead t = [] /\ width t = n /\ wf t.

(** The tensor of dtype [d] and shape [ld ++ [w]] with [nrows] rows whose
    entry [(i, j)] is [f i j]. *)
Definition tabulate (d : DType) (ld : list nat) (nrows w : nat)
    (f : nat -> nat -> K) : Tensor :=
  {| dtype := d; lead := ld; width := w;
     rows := map (fun i => map (f i) (seq 0 w)) (seq 0 nrows) |}.

(** The parameters have the shapes the constructor gives them for
    [embed_dim = n] and [low_rank_dimension = r]. *)
Definition Loreft_shaped (n r : nat) (self : LoreftIntervention (K:=K)) : Prop :=
  is_matrix n r (weight (rotate_layer self)) /\
  is_matrix n r (lin_weight (learned_source self)) /\
  is_vector r (lin_bias (learned_source self)).

(** Entry [(i, k)] of [learned_source(base) = base.W + b]. *)
Definition learned_source_entry (W b base : Tensor) (i k : nat) : K :=
  bigsum (width base) (fun l => entry base i l * entry W l k) + entry b 0 k.

(** Entry [(i, k)] of [base.R]. *)
Definition rotated_entry (R base : Tensor) (i k : nat) : K :=
  bigsum (width base) (fun l => entry base i l * entry R l k).

(** Entry [(i, j)] of [base + (f(base.W + b) - base.R).R^T], the activation
    [f] applied entry by entry. *)
Definition LoReFT_entry (f : K -> K) (R W b base : Tensor) (i j : nat) : K :=
  entry base i j +
  bigsum (width R) (fun k =>
    (f (learned_source_entry W b base i k) - rotated_entry R base i k)
    * entry R j k).

(** The source's row function: what [forward] does to one row [h]. *)
Definition loreft_row (f : K -> K) (r : nat) (R W : list (list K)) (b h : list K)
  : list K :=
  zip_with kadd h
    (vec_mat (length R) (transpose_rows r R)
       (zip_with ksub (map f (zip_with kadd (vec_mat r W h) b)) (vec_mat r R h))).

(** The tensor [base + (f(base.W + b) - base.R).R^T] with [base]'s dtype and
    shape, given entry by entry. *)
Definition LoReFT (f : K -> K) (self : LoreftIntervention (K:=K))
    (base : Tensor) : Tensor :=
  tabulate (dtype base) (lead base) (length (rows base)) (width base)
    (LoReFT_entry f (weight (rotate_layer self))
                    (lin_weight (learned_source self))
                    (lin_bias (learned_source self)) base).

(** The parameters have the shapes the constructor gives them for
    [embed_dim = h] and [low_rank_dimension = r]. *)
Definition Tiny_shaped (h r : nat) (self : TinyIntervention (K:=K)) : Prop :=
  is_matrix h r (param_A self) /\
  is_matrix r h (param_B self) /\
  is_vector r (param_a self) /\
  is_vector h (param_b self).

(** Entry [(i, j)] of [base + (base @ A @ diag(a) @ B @ diag(b)) * scaling],
    the two diagonal factors written as the scalings they are. *)
Definition Tiny_entry (A a B b : Tensor) (s : K) (base : Tensor) (i j : nat) : K :=
  entry base i j +
  bigsum (width A) (fun k =>
     bigsum (width base) (fun l => entry base i l * entry A l k) * entry a 0 k
     * entry B k j)
  * entry b 0 j * s.

Definition TinyEdit (self : TinyIntervention (K:=K)) (base : Tensor) : Tensor :=
  tabulate (dtype base) (lead base) (length (rows base)) (width base)
    (Tiny_entry (param_A self) (param_a self) (param_B self) (param_b self)
                (scaling self) base).

(** The source's row function: what [forward] does to one row [x]. *)
Definition tiny_row (h r : nat) (A B : list (list K)) (a b : list K) (s : K)
    (x : list K) : list K :=
  zip_with kadd x
    (map (fun v => v * s)
       (vec_mat h (diag_rows h b)
          (vec_mat h B (vec_mat r (diag_rows r a) (vec_mat r A x))))).

(** The probability is one the framework's dropout accepts. *)
Definition valid_p (d : Dropout) : Prop :=
  Qle_bool 0 (p d) = true /\ Qle_bool (p d) 1 = true.

(** The vector [x] is a linear combination of the columns of the matrix [R]:
    [x = c_0 * R[:, 0] + ... + c_(m-1) * R[:, m-1]]. *)
Definition in_column_span (R : Tensor) (x : list K) : Prop :=
  exists c : list K,
    length c = width R /\ length x = length (rows R) /\
    forall j, (j < length (rows R))%nat ->
      nth j x k0 = bigsum (width R) (fun k => nth k c k0 * entry R j k).

(** The rows of [D] factor through [r] dimensions: [D = U.V] for a [U] with
    [r] columns and a [V] with [r] rows, so [D] has rank at most [r]. *)
Definition rank_le (r : nat) (D : Tensor) : Prop :=
  exists U V : list (list K),
    Forall (fun u => length u = r) U /\ length V = r /\
    rows D = map (vec_mat (width D) V) U.

(** The parameters' dtypes let the forward pass run on a base of dtype [d]:
    the learned source has dtype [d], and combining [d] with the dtype of
    the rotate layer's weight gives the latter. *)
Definition Loreft_typed (d : DType) (self : LoreftIntervention (K:=K)) : Prop :=
  dtype (lin_weight (learned_source self)) = d /\
  dtype (lin_bias (learned_source self)) = d /\
  promote_types d (dtype (weight (rotate_layer self)))
  = dtype (weight (rotate_layer self)).

(** A method leaves the store as it found it. *)
Definition writes_nothing {A} (m : Method (gmap (nat * string) (Attr (K:=K))) A)
  : Prop :=
  forall s, fst (m s) = s.

(** Two stores hold the same attributes for the object [self]. *)
Definition same_attributes (self : nat) (s s' : gmap (nat * string) (Attr (K:=K)))
  : Prop :=
  forall name, s !! (self, name) = s' !! (self, name).

(** The outcome of a method depends on the attributes of [self] only. *)
Definition reads_only (self : nat) {A}
    (m : Method (gmap (nat * string) (Attr (K:=K))) A) : Prop :=
  forall s s', same_attributes self s s' -> snd (m s) = snd (m s').





(** The row of the assigned value that lands in row [i] of the slice. *)
Definition source_row (n : nat) (v : Tensor) (i : nat) : nat :=
  if bool_decide (lead v = [n]) then i else 0%nat.

End Vocabulary.

(** ** Concrete instances over the integers *)

Module Examples.

Definition kwargs : Kwargs :=
  {| kw_embed_dim := Some 3%nat; kw_low_rank_dimension := Some 2%nat;
     kw_dtype := Some bfloat16; kw_dropout := None; kw_act_fn := None |}.


Definition draw_R (i j : nat) : Z := (Z.of_nat i + 2 * Z.of_nat j + 1)%Z.
Definition draw_W (i j : nat) : Z := (Z.of_nat i * Z.of_nat j - 1)%Z.
Definition mask (i j : nat) : Z := 1%Z.

(** The learned source as [nn.Linear(3, 2)] creates it. *)
Definition source_W : Linear (K:=Z) :=
  {| lin_weight := tensor2 default_dtype 3 2 draw_W;
     lin_bias := tensor1 default_dtype 2 (fun _ => 0%Z) |}.

Definition loreft : LoreftIntervention (K:=Z) :=
  {| rotate_layer := {| weight := tensor2 default_dtype 3 2 draw_R |};
     learned_source := Linear_astype bfloat16 source_W;
     data_type := bfloat16;
     dropout := {| p := 0%Q; training := true |};
     act_fn := linear_act |}.

(** The intervention built with ["dtype"] the default dtype. *)
Definition kwargs32 : Kwargs :=
  {| kw_embed_dim := Some 3%nat; kw_low_rank_dimension := Some 2%nat;
     kw_dtype := Some float32; kw_dropout := None; kw_act_fn := None |}.

Definition loreft32 : LoreftIntervention (K:=Z) :=
  {| rotate_layer := {| weight := tensor2 default_dtype 3 2 draw_R |};
     learned_source := Linear_astype float32 source_W;
     data_type := float32;
     dropout := {| p := 0%Q; training := true |};
     act_fn := linear_act |}.

Definition tiny : TinyIntervention (K:=Z) :=
  {| rank := 2; hidden_size := 3; tiny_dropout := None; scaling := 1%Z;
     param_A := tensor2 default_dtype 3 2 draw_W;
     param_B := tensor2 default_dtype 2 3 draw_R;
     param_a := tensor1 default_dtype 2 (fun k => (Z.of_nat k + 2)%Z);
     param_b := tensor1 default_dtype 3 (fun k => (3 - Z.of_nat k)%Z) |}.

Definition fresh_tiny : TinyIntervention (K:=Z) :=
  {| rank := 2; hidden_size := 3; tiny_dropout := None; scaling := 1%Z;
     param_A := tensor2 default_dtype 3 2 draw_W;
     param_B := tensor2 default_dtype 2 3 (Constant 0%Z);
     param_a := tensor1 default_dtype 2 (fun _ => 1%Z);
     param_b := tensor1 default_dtype 3 (fun _ => 1%Z) |}.

Definition base : Tensor (K:=Z) :=
  {| dtype := float16; lead := [2%nat]; width := 3;
     rows := [[1; 2; 3]; [0; -1; 4]]%Z |}.

Definition other : Tensor (K:=Z) :=
  {| dtype := float32; lead := [2%nat]; width := 3;
     rows := [[5; 0; -2]; [7; 1; 1]]%Z |}.

Definition base32 : Tensor (K:=Z) := astype float32 base.

Definition base64 : Tensor (K:=Z) := astype float64 base.

(** A checkpoint of a LoReFT intervention of rank one. *)
Definition narrow_weight : Tensor (K:=Z) :=
  {| dtype := float32; lead := [3%nat]; width := 1;
     rows := [[10]; [20]; [30]]%Z |}.

Definition loreft_checkpoint : gmap string (Tensor (K:=Z)) :=
  {[ "learned_source.weight" := tensor2 float32 3 2 draw_R;
     "learned_source.bias" := tensor1 float32 2 (fun k => Z.of_nat k);
     "rotate_layer.weight" := narrow_weight ]}.

Definition tiny_checkpoint : gmap string (Tensor (K:=Z)) :=
  {[ "param_A" := param_A tiny; "param_B" := param_B tiny;
     "param_a" := param_a tiny; "param_b" := param_b tiny ]}.

End Examples.

(** ** Vocabulary of the further properties *)

Section FurtherVocabulary.
Context {K : Type} {SK : Scalar K}.
Local Open Scope K_scope.

Local Abbreviation Tensor := (@paddle.Tensor K).

(** The columns of the matrix [R] are orthonormal: [R^T.R] is the identity,
    which is what the [Orthogonal] initializer draws for a tall matrix. *)
Definition orthonormal_columns (R : Tensor) : Prop :=
  forall k k', (k < width R)%nat -> (k' < width R)%nat ->
    bigsum (length (rows R)) (fun j => entry R j k * entry R j k') =
    if Nat.eqb k k' then k1 else k0.

(** The vector [u] is orthogonal to every column of the matrix [R]. *)
Definition orthogonal_to_columns (R : Tensor) (u : list K) : Prop :=
  length u = length (rows R) /\
  forall k, (k < width R)%nat ->
    bigsum (length (rows R)) (fun j => entry R j k * nth j u k0) = k0.

(** Two tensors have the same entries, whatever their dtypes. *)
Definition same_values (x y : Tensor) : Prop :=
  lead x = lead y /\ width x = width y /\ rows x = rows y.

End FurtherVocabulary.

Module MoreExamples.

(** A rotate layer whose weight has the first two unit vectors as columns. *)
Definition unit_columns : Tensor (K:=Z) :=
  tensor2 default_dtype 3 2 (fun i j => if Nat.eqb i j then 1%Z else 0%Z).

Definition loreft_orth : LoreftIntervention (K:=Z) :=
  {| rotate_layer := {| weight := unit_columns |};
     learned_source := Linear_astype bfloat16 Examples.source_W;
     data_type := bfloat16;
     dropout := {| p := 0%Q; training := true |};
     act_fn := linear_act |}.

Definition loreft_orth32 : LoreftIntervention (K:=Z) :=
  {| rotate_layer := {| weight := unit_columns |};
     learned_source := Examples.source_W;
     data_type := float32;
     dropout := {| p := 0%Q; training := true |};
     act_fn := linear_act |}.

(** An intervention whose learned source is its rotation. *)
Definition loreft_noop : LoreftIntervention (K:=Z) :=
  {| rotate_layer := {| weight := tensor2 default_dtype 3 2 Examples.draw_R |};
     learned_source := {| lin_weight := tensor2 default_dtype 3 2 Examples.draw_R;
                         lin_bias := tensor1 default_dtype 2 (fun _ => 0%Z) |};
     data_type := float32;
     dropout := {| p := 0%Q; training := true |};
     act_fn := linear_act |}.

Definition third_unit : list Z := [0; 0; 1]%Z.

(** Constructor arguments with a dropout probability and the ReLU
    activation, and the intervention they give. *)
Definition kwargs_half : Kwargs :=
  {| kw_embed_dim := Some 3%nat; kw_low_rank_dimension := Some 2%nat;
     kw_dtype := Some float32; kw_dropout := Some (1 # 2)%Q;
     kw_act_fn := Some (Some "relu") |}.

Definition loreft_half : LoreftIntervention (K:=Z) :=
  {| rotate_layer := {| weight := tensor2 default_dtype 3 2 Examples.draw_R |};
     learned_source := Linear_astype float32 Examples.source_W;
     data_type := float32;
     dropout := {| p := (1 # 2)%Q; training := true |};
     act_fn := ReLU |}.

Definition double_mask (i j : nat) : Z := if Nat.even (i + j) then 2%Z else 0%Z.

Definition narrow_base : Tensor (K:=Z) :=
  {| dtype := float16; lead := [2%nat]; width := 2;
     rows := [[1; 2]; [0; -1]]%Z |}.

Definition full_checkpoint : gmap string (Tensor (K:=Z)) :=
  {[ "learned_source.weight" := tensor2 float32 3 2 Examples.draw_R;
     "learned_source.bias" := tensor1 float32 2 (fun k => Z.of_nat k);
     "rotate_layer.weight" := unit_columns ]}.

Definition wide_checkpoint : gmap string (Tensor (K:=Z)) :=
  <[ "rotate_layer.weight" := tensor2 float32 3 4 Examples.draw_W ]>
    Examples.loreft_checkpoint.

Definition bias_less_checkpoint : gmap string (Tensor (K:=Z)) :=
  {[ "learned_source.weight" := tensor2 float32 3 2 Examples.draw_R;
     "rotate_layer.weight" := Examples.narrow_weight ]}.

End MoreExamples.

(** * Properties *)

(** ** Sums, dot products and matrix products, entry by entry *)

Section Algebra.
Context {K : Type} {SK : Scalar K}.
Local Open Scope K_scope.

Add Ring K_Ring : (K_ring (K:=K)).

Local Abbreviation Tensor := (@paddle.Tensor K).

Lemma bigsum_S_l (n : nat) (f : nat -> K) :
  bigsum (S n) f = f 0%nat + bigsum n (fun k => f (S k)).
Proof.
  unfold bigsum. simpl. f_equal.
  rewrite <- seq_shift, map_map. reflexivity.
Qed.

Lemma bigsum_ext (n : nat) (f g : nat -> K) :
  (forall k, (k < n)%nat -> f k = g k) -> bigsum n f = bigsum n g.
Proof.
  revert f g. induction n as [|n IH]; intros f g Hfg; [reflexivity|].
  rewrite !bigsum_S_l. rewrite (Hfg 0%nat) by lia. f_equal.
  apply IH. intros k Hk. apply Hfg. lia.
Qed.

Lemma bigsum_zero (n : nat) : bigsum n (fun _ => k0) = k0.
Proof.
  induction n as [|n IH]; [reflexivity|].
  rewrite bigsum_S_l, IH. ring.
Qed.

Lemma bigsum_add (n : nat) (f g : nat -> K) :
  bigsum n (fun k => f k + g k) = bigsum n f + bigsum n g.
Proof.
  revert f g. induction n as [|n IH]; intros f g.
  - unfold bigsum; simpl. ring.
  - rewrite !bigsum_S_l, IH. ring.
Qed.

Lemma bigsum_sub (n : nat) (f g : nat -> K) :
  bigsum n (fun k => f k - g k) = bigsum n f - bigsum n g.
Proof.
  revert f g. induction n as [|n IH]; intros f g.
  - unfold bigsum; simpl. ring.
  - rewrite !bigsum_S_l, IH. ring.
Qed.

Lemma bigsum_mul_l (n : nat) (c : K) (f : nat -> K) :
  bigsum n (fun k => c * f k) = c * bigsum n f.
Proof.
  revert f. induction n as [|n IH]; intros f.
  - unfold bigsum; simpl. ring.
  - rewrite !bigsum_S_l, IH. ring.
Qed.

Lemma bigsum_mul_r (n : nat) (c : K) (f : nat -> K) :
  bigsum n (fun k => f k * c) = bigsum n f * c.
Proof.
  revert f. induction n as [|n IH]; intros f.
  - unfold bigsum; simpl. ring.
  - rewrite !bigsum_S_l, IH. ring.
Qed.

(** A sum with a single non-zero term. *)
Lemma bigsum_delta (n j : nat) (f : nat -> K) :
  (j < n)%nat ->
  bigsum n (fun k => if Nat.eqb k j then f k else k0) = f j.
Proof.
  revert j f. induction n as [|n IH]; intros j f Hj; [lia|].
  rewrite bigsum_S_l. destruct j as [|j].
  - simpl. rewrite bigsum_zero. ring.
  - simpl. rewrite (IH j (fun k => f (S k))) by lia. ring.
Qed.

Lemma dot_nil_l (v : list K) : dot [] v = k0.
Proof. reflexivity. Qed.

Lemma dot_cons (a b : K) (u v : list K) :
  dot (a :: u) (b :: v) = a * b + dot u v.
Proof. reflexivity. Qed.

Lemma dot_bigsum (n : nat) (u v : list K) :
  length u = n -> length v = n ->
  dot u v = bigsum n (fun k => nth k u k0 * nth k v k0).
Proof.
  revert u v. induction n as [|n IH]; intros u v Hu Hv.
  - destruct u; [reflexivity | discriminate].
  - destruct u as [|a u]; [discriminate|]. destruct v as [|b v]; [discriminate|].
    rewrite dot_cons, bigsum_S_l. simpl. f_equal.
    apply IH; simpl in *; lia.
Qed.

Lemma nth_map_seq {A} (f : nat -> A) (n j : nat) (d : A) :
  (j < n)%nat -> nth j (map f (seq 0 n)) d = f j.
Proof.
  intros Hj. rewrite (nth_indep _ d (f 0%nat)) by (rewrite length_map, length_seq; lia).
  rewrite (map_nth f (seq 0 n) 0%nat j). rewrite seq_nth by lia. reflexivity.
Qed.

Lemma nth_map' {A B} (f : A -> B) (l : list A) (i : nat) (d : A) (d' : B) :
  (i < length l)%nat -> nth i (map f l) d' = f (nth i l d).
Proof.
  intros Hi. rewrite (nth_indep _ d' (f d)) by (rewrite length_map; lia).
  apply map_nth.
Qed.

Lemma nth_zip_with {A B C} (f : A -> B -> C) (u : list A) (v : list B)
    (i : nat) (da : A) (db : B) (dc : C) :
  (i < length u)%nat -> (i < length v)%nat ->
  nth i (zip_with f u v) dc = f (nth i u da) (nth i v db).
Proof.
  revert v i. induction u as [|a u IH]; intros v i Hu Hv; simpl in *; [lia|].
  destruct v as [|b v]; simpl in *; [lia|].
  destruct i as [|i]; [reflexivity|]. apply IH; lia.
Qed.

(** A list is the table of its entries. *)
Lemma list_tabulate {A} (l : list A) (d : A) :
  l = map (fun i => nth i l d) (seq 0 (length l)).
Proof.
  induction l as [|a l IH]; [reflexivity|].
  simpl. f_equal. rewrite <- seq_shift, map_map. exact IH.
Qed.

Lemma map_tabulate {A B} (g : A -> B) (l : list A) (d : A) :
  map g l = map (fun i => g (nth i l d)) (seq 0 (length l)).
Proof.
  transitivity (map g (map (fun i => nth i l d) (seq 0 (length l)))).
  - f_equal. apply list_tabulate.
  - apply map_map.
Qed.

Lemma map_seq_ext {A} (f g : nat -> A) (n : nat) :
  (forall i, (i < n)%nat -> f i = g i) -> map f (seq 0 n) = map g (seq 0 n).
Proof.
  intros H. apply map_ext_in. intros i Hi. apply in_seq in Hi. apply H. lia.
Qed.

Lemma zip_with_map_r {A B C} (f : A -> B -> C) (g : A -> B) (l : list A) :
  zip_with f l (map g l) = map (fun x => f x (g x)) l.
Proof. induction l as [|a l IH]; simpl; congruence. Qed.

Lemma zip_with_map_map {A B C D} (f : B -> C -> D) (g : A -> B) (h : A -> C)
    (l : list A) :
  zip_with f (map g l) (map h l) = map (fun x => f (g x) (h x)) l.
Proof. induction l as [|a l IH]; simpl; congruence. Qed.

Lemma length_column (j : nat) (M : list (list K)) :
  length (column j M) = length M.
Proof. apply length_map. Qed.

Lemma nth_column (j k : nat) (M : list (list K)) :
  nth k (column j M) k0 = nth j (nth k M []) k0.
Proof.
  destruct (Nat.lt_ge_cases k (length M)) as [Hk|Hk].
  - unfold column. exact (nth_map' (fun r => nth j r k0) M k [] k0 Hk).
  - rewrite (nth_overflow (column j M)) by (rewrite length_column; lia).
    rewrite (nth_overflow M) by lia. destruct j; reflexivity.
Qed.

Lemma length_vec_mat (w : nat) (M : list (list K)) (v : list K) :
  length (vec_mat w M v) = w.
Proof. unfold vec_mat, transpose_rows. rewrite !length_map. apply length_seq. Qed.

(** Entry [j] of the row vector [v] times the matrix [M]. *)
Lemma nth_vec_mat (w : nat) (M : list (list K)) (v : list K) (j : nat) :
  (j < w)%nat -> length v = length M ->
  nth j (vec_mat w M v) k0 =
  bigsum (length M) (fun k => nth k v k0 * nth j (nth k M []) k0).
Proof.
  intros Hj Hv. unfold vec_mat, transpose_rows. rewrite map_map.
  rewrite nth_map_seq by exact Hj.
  rewrite (dot_bigsum (length M)); [| exact Hv | apply length_column].
  apply bigsum_ext. intros k _. rewrite nth_column. reflexivity.
Qed.

Lemma length_transpose_rows (w : nat) (M : list (list K)) :
  length (transpose_rows w M) = w.
Proof. unfold transpose_rows. rewrite length_map. apply length_seq. Qed.

Lemma nth_transpose_rows (w : nat) (M : list (list K)) (j k : nat) :
  (j < w)%nat ->
  nth k (nth j (transpose_rows w M) []) k0 = nth j (nth k M []) k0.
Proof.
  intros Hj. unfold transpose_rows. rewrite nth_map_seq by exact Hj.
  apply nth_column.
Qed.

End Algebra.

(** ** Shapes *)

Section Shapes.
Context {K : Type} {SK : Scalar K}.
Local Open Scope K_scope.

Local Abbreviation Tensor := (@paddle.Tensor K).

Lemma is_matrix_length (n m : nat) (t : Tensor) :
  is_matrix n m t -> length (rows t) = n.
Proof.
  intros (Hl & _ & Hn & _). rewrite Hn, Hl. simpl. lia.
Qed.

Lemma is_matrix_row (n m : nat) (t : Tensor) (i : nat) :
  is_matrix n m t -> (i < n)%nat -> length (nth i (rows t) []) = m.
Proof.
  intros Hm Hi. pose proof (is_matrix_length _ _ _ Hm) as Hlen.
  destruct Hm as (_ & Hw & _ & Hrows). rewrite <- Hw.
  rewrite Forall_forall in Hrows. apply Hrows.
  apply list_elem_of_In, nth_In. lia.
Qed.

Lemma is_vector_rows (n : nat) (t : Tensor) :
  is_vector n t -> exists b, rows t = [b] /\ length b = n.
Proof.
  intros (Hl & Hw & Hn & Hrows). rewrite Hl in Hn. simpl in Hn.
  destruct (rows t) as [|b [|]] eqn:E; try discriminate.
  exists b. split; [reflexivity|].
  inversion Hrows; subst. congruence.
Qed.

Lemma wf_row (t : Tensor) (i : nat) :
  wf t -> (i < length (rows t))%nat -> length (nth i (rows t) []) = width t.
Proof.
  intros [_ Hrows] Hi. rewrite Forall_forall in Hrows. apply Hrows.
  apply list_elem_of_In, nth_In. exact Hi.
Qed.

Lemma wf_tabulate (d : DType) (ld : list nat) (w : nat) (f : nat -> nat -> K) :
  wf (tabulate d ld (numel ld) w f).
Proof.
  split; simpl.
  - rewrite length_map. apply length_seq.
  - apply Forall_forall. intros r Hr. apply list_elem_of_In, in_map_iff in Hr.
    destruct Hr as (i & <- & _). rewrite length_map. apply length_seq.
Qed.

Lemma entry_tabulate (d : DType) (ld : list nat) (nrows w : nat)
    (f : nat -> nat -> K) (i j : nat) :
  (i < nrows)%nat -> (j < w)%nat -> entry (tabulate d ld nrows w f) i j = f i j.
Proof.
  intros Hi Hj. unfold entry, tabulate. simpl.
  rewrite nth_map_seq by exact Hi. apply nth_map_seq. exact Hj.
Qed.

(** Two well-formed tensors of one dtype and shape with the same entries are
    equal. *)
Lemma tensor_ext (x y : Tensor) :
  dtype x = dtype y -> lead x = lead y -> width x = width y ->
  wf x -> wf y ->
  (forall i j, (i < length (rows x))%nat -> (j < width x)%nat ->
               entry x i j = entry y i j) ->
  x = y.
Proof.
  destruct x as [dx lx wx rx], y as [dy ly wy ry]. simpl.
  intros -> -> -> [Hnx Hrx] [Hny Hry] Hent. simpl in *. f_equal.
  rewrite (list_tabulate rx []), (list_tabulate ry []).
  rewrite Hnx, Hny. apply map_seq_ext. intros i Hi.
  assert (Hlx : length (nth i rx []) = wy).
  { rewrite Forall_forall in Hrx. apply Hrx, list_elem_of_In, nth_In. lia. }
  assert (Hly : length (nth i ry []) = wy).
  { rewrite Forall_forall in Hry. apply Hry, list_elem_of_In, nth_In. lia. }
  rewrite (list_tabulate (nth i rx []) k0), (list_tabulate (nth i ry []) k0).
  rewrite Hlx, Hly. apply map_seq_ext. intros j Hj.
  apply (Hent i j); lia.
Qed.

(** *** The primitives succeed on operands of matching shapes *)

Lemma promote_types_diag (d : DType) : promote_types d d = d.
Proof. destruct d; reflexivity. Qed.

Lemma op_matmul_ok (x y : Tensor) (n : nat) :
  lead y = [n] -> width x = n ->
  op_matmul x y =
  ret {| dtype := promote_types (dtype x) (dtype y);
         lead := lead x; width := width y;
         rows := map (vec_mat (width y) (rows y)) (rows x) |}.
Proof.
  intros Hy Hx. unfold op_matmul. rewrite Hy, Hx, Nat.eqb_refl. reflexivity.
Qed.

Lemma DType_eqb_eq (a b : DType) : DType_eqb a b = true <-> a = b.
Proof. destruct a, b; simpl; split; congruence. Qed.

Lemma DType_eqb_refl (a : DType) : DType_eqb a a = true.
Proof. destruct a; reflexivity. Qed.

Lemma matmul_ok (x y : Tensor) (n : nat) :
  dtype x = dtype y -> lead y = [n] -> width x = n ->
  matmul x y =
  ret {| dtype := promote_types (dtype x) (dtype y);
         lead := lead x; width := width y;
         rows := map (vec_mat (width y) (rows y)) (rows x) |}.
Proof.
  intros Hd Hy Hx. unfold matmul.
  apply DType_eqb_eq in Hd. rewrite Hd. apply (op_matmul_ok x y n Hy Hx).
Qed.

Lemma matmul_dtype_mismatch (x y : Tensor) :
  dtype x <> dtype y -> matmul x y = raise ValueError.
Proof.
  intros Hd. unfold matmul.
  destruct (DType_eqb (dtype x) (dtype y)) eqn:E; [|reflexivity].
  apply DType_eqb_eq in E. contradiction.
Qed.

Lemma matmul_width_mismatch (x y : Tensor) (n : nat) :
  lead y = [n] -> width x <> n -> matmul x y = raise ValueError.
Proof.
  intros Hy Hx. unfold matmul, op_matmul. rewrite Hy.
  destruct (Nat.eqb_spec (width x) n) as [E|_]; [contradiction|].
  destruct (DType_eqb _ _); reflexivity.
Qed.

Lemma elementwise_ok (f : K -> K -> K) (x y : Tensor) :
  lead x = lead y -> width x = width y ->
  elementwise f x y =
  ret {| dtype := promote_types (dtype x) (dtype y);
         lead := lead x; width := width x;
         rows := zip_with (zip_with f) (rows x) (rows y) |}.
Proof.
  intros Hl Hw. unfold elementwise, same_shape.
  rewrite bool_decide_eq_true_2 by exact Hl.
  rewrite Hw, Nat.eqb_refl. reflexivity.
Qed.

Lemma Linear_forward_ok (l : Linear) (x : Tensor) (n m : nat) :
  is_matrix n m (lin_weight l) -> is_vector m (lin_bias l) -> width x = n ->
  dtype x = dtype (lin_weight l) ->
  exists b, rows (lin_bias l) = [b] /\ length b = m /\
  Linear_forward l x =
  ret {| dtype := promote_types (promote_types (dtype x) (dtype (lin_weight l)))
                                (dtype (lin_bias l));
         lead := lead x; width := m;
         rows := map (fun h => zip_with kadd (vec_mat m (rows (lin_weight l)) h) b)
                     (rows x) |}.
Proof.
  intros HW Hb Hx Hd. destruct (is_vector_rows _ _ Hb) as (b & Hrb & Hlb).
  exists b. split; [exact Hrb|]. split; [exact Hlb|].
  destruct HW as (HWl & HWw & _). destruct Hb as (Hbl & Hbw & _).
  unfold Linear_forward. rewrite (matmul_ok x _ n) by assumption.
  simpl. rewrite Hbl, Hrb, Hbw, HWw, Nat.eqb_refl. simpl.
  rewrite map_map. reflexivity.
Qed.

Lemma tensor_map_id (t : Tensor) : tensor_map (fun v => v) t = t.
Proof.
  destruct t as [d l w r]. unfold tensor_map. simpl. f_equal.
  rewrite <- (map_id r) at 2. apply map_ext. intros h. apply map_id.
Qed.

Lemma linear_act_elementwise (t : Tensor) : linear_act t = tensor_map (fun v => v) t.
Proof. symmetry. apply tensor_map_id. Qed.

End Shapes.

(** ** LoreftIntervention.forward *)

Section Loreft.
Context {K : Type} {SK : Scalar K}.
Local Open Scope K_scope.

Add Ring K_Ring_loreft : (K_ring (K:=K)).

Local Abbreviation Tensor := (@paddle.Tensor K).

Lemma length_loreft_row f r R W b h :
  length h = length R -> length (loreft_row f r R W b h) = length h.
Proof.
  intros Hh. unfold loreft_row. rewrite length_zip_with, length_vec_mat. lia.
Qed.

Lemma nth_loreft_row f r R W b h j :
  length W = length R -> length b = r -> length h = length R ->
  (j < length R)%nat ->
  nth j (loreft_row f r R W b h) k0 =
  nth j h k0 +
  bigsum r (fun k =>
    (f (bigsum (length R) (fun l => nth l h k0 * nth k (nth l W []) k0) + nth k b k0)
     - bigsum (length R) (fun l => nth l h k0 * nth k (nth l R []) k0))
    * nth k (nth j R []) k0).
Proof.
  intros HW Hb Hh Hj. unfold loreft_row.
  rewrite (nth_zip_with kadd _ _ j k0 k0 k0);
    [| lia | rewrite length_vec_mat; lia].
  f_equal.
  assert (Hlen : length (zip_with ksub (map f (zip_with kadd (vec_mat r W h) b))
                                       (vec_mat r R h)) = r).
  { rewrite length_zip_with, length_map, length_zip_with, !length_vec_mat. lia. }
  rewrite nth_vec_mat;
    [| exact Hj | rewrite length_transpose_rows; exact Hlen].
  rewrite length_transpose_rows. apply bigsum_ext. intros k Hk.
  rewrite nth_transpose_rows by exact Hk. f_equal.
  rewrite (nth_zip_with ksub _ _ k k0 k0 k0);
    [| rewrite length_map, length_zip_with, length_vec_mat; lia
     | rewrite length_vec_mat; lia].
  rewrite (nth_map' f _ k k0 k0)
    by (rewrite length_zip_with, length_vec_mat; lia).
  rewrite (nth_zip_with kadd _ _ k k0 k0 k0);
    [| rewrite length_vec_mat; lia | lia].
  rewrite !nth_vec_mat by (try exact Hk; congruence).
  rewrite HW. reflexivity.
Qed.

(** [forward] succeeds on a base of last dimension [embed_dim] and is the
    source's row function applied to every row. *)
Lemma LoreftIntervention_forward_rows self mask base f n r :
  Loreft_shaped n r self -> Loreft_typed (dtype base) self ->
  (forall t, act_fn self t = tensor_map f t) ->
  width base = n ->
  exists b, rows (lin_bias (learned_source self)) = [b] /\ length b = r /\
  LoreftIntervention_forward self mask base =
  Dropout_forward (dropout self) mask
    {| dtype := dtype base; lead := lead base; width := n;
       rows := map (loreft_row f r (rows (weight (rotate_layer self)))
                               (rows (lin_weight (learned_source self))) b)
                   (rows base) |}.
Proof.
  intros (HR & HW & Hb) (HdW & Hdb & Hprom) Hact Hbase.
  destruct (Linear_forward_ok _ base n r HW Hb Hbase (eq_sym HdW))
    as (b & Hrb & Hlb & Hlin).
  exists b. split; [exact Hrb|]. split; [exact Hlb|].
  pose proof (is_matrix_length _ _ _ HR) as HRlen.
  destruct HR as (HRl & HRw & _).
  unfold LoreftIntervention_forward, LowRankRotateLayer_forward.
  rewrite (matmul_ok _ _ n) by (simpl; first [reflexivity | assumption]).
  rewrite Hlin. simpl. rewrite Hact. unfold subtract, add.
  rewrite elementwise_ok by (simpl; congruence). simpl.
  rewrite (matmul_ok _ _ r);
    [| simpl; rewrite HdW, Hdb, !promote_types_diag; exact Hprom
     | simpl; congruence | simpl; congruence].
  simpl.
  rewrite elementwise_ok by (simpl; congruence). simpl.
  f_equal. unfold astype. simpl. rewrite Hbase. f_equal.
  rewrite map_map, zip_with_map_map, map_map, zip_with_map_r.
  rewrite HRw. reflexivity.
Qed.

End Loreft.

Section LoreftFormula.
Context {K : Type} {SK : Scalar K}.
Local Open Scope K_scope.

Lemma loreft_rows_formula (f : K -> K) (self : LoreftIntervention (K:=K))
    (base : Tensor (K:=K)) (b : list K) (n r : nat) :
  Loreft_shaped n r self ->
  rows (lin_bias (learned_source self)) = [b] -> length b = r ->
  wf base -> width base = n ->
  {| dtype := dtype base; lead := lead base; width := n;
     rows := map (loreft_row f r (rows (weight (rotate_layer self)))
                             (rows (lin_weight (learned_source self))) b)
                 (rows base) |}
  = LoReFT f self base.
Proof.
  intros (HR & HW & Hb) Hrb Hlb Hwf Hbase.
  pose proof (is_matrix_length _ _ _ HR) as HRlen.
  pose proof (is_matrix_length _ _ _ HW) as HWlen.
  destruct HR as (_ & HRw & _).
  unfold LoReFT, tabulate. rewrite Hbase. f_equal.
  rewrite (map_tabulate _ (rows base) []).
  apply map_seq_ext. intros i Hi.
  pose proof (wf_row base i Hwf Hi) as Hrow. rewrite Hbase in Hrow.
  rewrite (list_tabulate (loreft_row _ _ _ _ _ _) k0).
  rewrite length_loreft_row by congruence. rewrite Hrow.
  apply map_seq_ext. intros j Hj.
  rewrite nth_loreft_row by congruence.
  unfold LoReFT_entry, learned_source_entry, rotated_entry, entry.
  rewrite Hrb, HRw, HRlen, Hbase. reflexivity.
Qed.

(** [forward] is [dropout] of the tensor [LoReFT]. *)
Lemma LoreftIntervention_forward_LoReFT
    (self : LoreftIntervention (K:=K)) (mask : nat -> nat -> K)
    (base : paddle.Tensor) (f : K -> K) (n r : nat) :
  Loreft_shaped n r self -> Loreft_typed (dtype base) self ->
  (forall t, act_fn self t = tensor_map f t) ->
  wf base -> width base = n ->
  LoreftIntervention_forward self mask base =
  Dropout_forward (dropout self) mask (LoReFT f self base).
Proof.
  intros Hself Htyped Hact Hwf Hbase.
  destruct (LoreftIntervention_forward_rows self mask base f n r
              Hself Htyped Hact Hbase)
    as (b & Hrb & Hlb & Hfw).
  rewrite Hfw. f_equal. apply (loreft_rows_formula f self base b n r); assumption.
Qed.

(** C1, as amended.  On a base whose last dimension is [embed_dim] and
    whose dtype is the learned source's and combines with the rotate
    weight's to the latter ([Loreft_typed]), [forward] returns [dropout] of the
    tensor [base + (act_fn(base.W + b) - base.R).R^T] carrying [base]'s
    dtype, where [R] is the rotate layer's weight and [W], [b] are the
    learned source's weight and bias; with dropout probability 0 and the
    linear activation it returns [base + (base.W + b - base.R).R^T] itself.
    (On a base of another dtype the learned source raises.) *)
Theorem LoreftIntervention_forward_formula
    (self : LoreftIntervention (K:=K)) (mask : nat -> nat -> K)
    (base : paddle.Tensor) (n r : nat) :
  Loreft_shaped n r self -> Loreft_typed (dtype base) self ->
  wf base -> width base = n ->
  (forall f, (forall t, act_fn self t = tensor_map f t) ->
     LoreftIntervention_forward self mask base =
     Dropout_forward (dropout self) mask
       (astype (dtype base) (LoReFT f self base)))
  /\
  (Qeq_bool (p (dropout self)) 0 = true -> act_fn self = linear_act ->
     LoreftIntervention_forward self mask base =
     ret (LoReFT (fun v => v) self base)).
Proof.
  intros Hself Htyped Hwf Hbase. split.
  - intros f Hact.
    rewrite (LoreftIntervention_forward_LoReFT self mask base f n r) by assumption.
    reflexivity.
  - intros Hp Hlin.
    rewrite (LoreftIntervention_forward_LoReFT self mask base (fun v => v) n r);
      try assumption.
    + unfold Dropout_forward. rewrite Hp. reflexivity.
    + intros t. rewrite Hlin. apply linear_act_elementwise.
Qed.

End LoreftFormula.

(** ** TinyIntervention.forward *)

Section Tiny.
Context {K : Type} {SK : Scalar K}.
Local Open Scope K_scope.

Add Ring K_Ring_tiny : (K_ring (K:=K)).

Local Abbreviation Tensor := (@paddle.Tensor K).

Lemma length_diag_rows (w : nat) (d : list K) : length (diag_rows w d) = w.
Proof. unfold diag_rows. rewrite length_map. apply length_seq. Qed.

Lemma diag_ok (v : Tensor) (n : nat) (d : list K) :
  is_vector n v -> rows v = [d] ->
  diag v = ret {| dtype := dtype v; lead := [n]; width := n;
                  rows := diag_rows n d |}.
Proof.
  intros (Hl & Hw & _) Hr. unfold diag. rewrite Hl, Hr, Hw. reflexivity.
Qed.

(** Multiplying by a diagonal matrix scales each entry. *)
Lemma nth_vec_mat_diag (w : nat) (d v : list K) (j : nat) :
  (j < w)%nat -> length v = w ->
  nth j (vec_mat w (diag_rows w d) v) k0 = nth j v k0 * nth j d k0.
Proof.
  intros Hj Hv.
  rewrite nth_vec_mat by (rewrite ?length_diag_rows; assumption).
  rewrite length_diag_rows.
  rewrite (bigsum_ext w _
             (fun k => if Nat.eqb k j then nth k v k0 * nth k d k0 else k0)).
  - apply (bigsum_delta w j (fun k => nth k v k0 * nth k d k0) Hj).
  - intros k Hk. unfold diag_rows.
    rewrite nth_map_seq by exact Hk. rewrite nth_map_seq by exact Hj.
    destruct (Nat.eqb k j); ring.
Qed.

Lemma length_tiny_row h r A B a b s x :
  length x = h -> length (tiny_row h r A B a b s x) = h.
Proof.
  intros Hx. unfold tiny_row.
  rewrite length_zip_with, length_map, length_vec_mat. lia.
Qed.

Lemma nth_tiny_row h r A B a b s x j :
  length A = h -> length B = r -> length x = h -> (j < h)%nat ->
  nth j (tiny_row h r A B a b s x) k0 =
  nth j x k0 +
  bigsum r (fun k =>
     bigsum h (fun l => nth l x k0 * nth k (nth l A []) k0) * nth k a k0
     * nth j (nth k B []) k0)
  * nth j b k0 * s.
Proof.
  intros HA HB Hx Hj. unfold tiny_row.
  rewrite (nth_zip_with kadd _ _ j k0 k0 k0);
    [| lia | rewrite length_map, length_vec_mat; lia].
  f_equal.
  rewrite (nth_map' (fun v => v * s) _ j k0 k0) by (rewrite length_vec_mat; lia).
  f_equal.
  rewrite nth_vec_mat_diag by (rewrite ?length_vec_mat; auto).
  f_equal.
  rewrite nth_vec_mat by (rewrite ?length_vec_mat; auto).
  rewrite HB. apply bigsum_ext. intros k Hk. f_equal.
  rewrite nth_vec_mat_diag by (rewrite ?length_vec_mat; auto).
  f_equal.
  rewrite nth_vec_mat by (try exact Hk; congruence).
  rewrite HA. reflexivity.
Qed.

(** [forward] succeeds on a base of last dimension [embed_dim] and is the
    source's row function applied to every row. *)
Lemma TinyIntervention_forward_rows self mask1 mask2 base h r :
  Tiny_shaped h r self -> tiny_dropout self = None -> width base = h ->
  exists a b, rows (param_a self) = [a] /\ rows (param_b self) = [b] /\
  TinyIntervention_forward self mask1 mask2 base =
  ret {| dtype := dtype base; lead := lead base; width := h;
         rows := map (tiny_row h r (rows (param_A self)) (rows (param_B self))
                               a b (scaling self))
                     (rows base) |}.
Proof.
  intros (HA & HB & Ha & Hb) Hdrop Hbase.
  destruct (is_vector_rows _ _ Ha) as (a & Hra & Hla).
  destruct (is_vector_rows _ _ Hb) as (b & Hrb & Hlb).
  exists a, b. split; [exact Hra|]. split; [exact Hrb|].
  destruct HA as (HAl & HAw & _). destruct HB as (HBl & HBw & _).
  unfold TinyIntervention_forward, TinyIntervention_dropout.
  rewrite Hdrop, (diag_ok _ h b Hb Hrb), (diag_ok _ r a Ha Hra). simpl.
  rewrite (op_matmul_ok _ _ h) by assumption. simpl.
  rewrite (op_matmul_ok _ _ r) by (simpl; congruence). simpl.
  rewrite (op_matmul_ok _ _ r) by (simpl; congruence). simpl.
  rewrite (op_matmul_ok _ _ h) by (simpl; congruence). simpl.
  unfold add. rewrite elementwise_ok by (simpl; congruence). simpl.
  unfold ret. f_equal. rewrite promote_types_diag, Hbase, HAw, HBw. f_equal.
  rewrite !map_map, zip_with_map_r. reflexivity.
Qed.

(** [forward] returns the tensor [TinyEdit]. *)
Lemma TinyIntervention_forward_TinyEdit
    (self : TinyIntervention (K:=K)) (mask1 mask2 : nat -> nat -> K)
    (base : Tensor) (h r : nat) :
  Tiny_shaped h r self -> tiny_dropout self = None ->
  wf base -> width base = h ->
  TinyIntervention_forward self mask1 mask2 base = ret (TinyEdit self base).
Proof.
  intros Hself Hdrop Hwf Hbase.
  destruct (TinyIntervention_forward_rows self mask1 mask2 base h r
              Hself Hdrop Hbase) as (a & b & Hra & Hrb & Hfw).
  rewrite Hfw. unfold ret. f_equal.
  destruct Hself as (HA & HB & Ha & Hb).
  pose proof (is_matrix_length _ _ _ HA) as HAlen.
  pose proof (is_matrix_length _ _ _ HB) as HBlen.
  destruct HA as (_ & HAw & _).
  unfold TinyEdit, tabulate. rewrite Hbase. f_equal.
  rewrite (map_tabulate _ (rows base) []).
  apply map_seq_ext. intros i Hi.
  pose proof (wf_row base i Hwf Hi) as Hrow. rewrite Hbase in Hrow.
  rewrite (list_tabulate (tiny_row _ _ _ _ _ _ _ _) k0).
  rewrite length_tiny_row by exact Hrow.
  apply map_seq_ext. intros j Hj.
  rewrite nth_tiny_row by assumption.
  unfold Tiny_entry, entry. rewrite Hra, Hrb, HAw, Hbase. reflexivity.
Qed.

(** C2.  On a base whose last dimension is [embed_dim], [forward] returns
    the tensor [base + (base @ param_A @ diag(param_a) @ param_B @
    diag(param_b)) * scaling] with [base]'s dtype and shape. *)
Theorem TinyIntervention_forward_formula
    (self : TinyIntervention (K:=K)) (mask1 mask2 : nat -> nat -> K)
    (base : Tensor) (h r : nat) :
  Tiny_shaped h r self -> tiny_dropout self = None ->
  wf base -> width base = h ->
  TinyIntervention_forward self mask1 mask2 base =
  ret (astype (dtype base) (TinyEdit self base)).
Proof.
  intros Hself Hdrop Hwf Hbase.
  rewrite (TinyIntervention_forward_TinyEdit self mask1 mask2 base h r)
    by assumption.
  reflexivity.
Qed.

End Tiny.

(** ** Shape and dtype of the results *)

Section ShapeDtype.
Context {K : Type} {SK : Scalar K}.
Local Open Scope K_scope.

Add Ring K_Ring_sd : (K_ring (K:=K)).

Local Abbreviation Tensor := (@paddle.Tensor K).

Lemma Dropout_forward_shape (d : Dropout) (mask : nat -> nat -> K) (x : Tensor) :
  valid_p d ->
  exists out, Dropout_forward d mask x = ret out /\
    dtype out = dtype x /\ lead out = lead x /\ width out = width x /\
    (wf x -> wf out).
Proof.
  intros [H0 H1]. unfold Dropout_forward.
  destruct (Qeq_bool (p d) 0); [exists x; auto|].
  rewrite H0, H1. simpl.
  destruct (training d); [|exists x; auto].
  eexists. split; [reflexivity|]. simpl. repeat split; try reflexivity.
  - simpl. rewrite length_imap. apply H.
  - simpl. destruct H as [_ Hrows]. apply Forall_lookup. intros i r Hr.
    rewrite list_lookup_imap in Hr.
    destruct (rows x !! i) as [r0|] eqn:E; [|discriminate].
    simpl in Hr. injection Hr as <-. rewrite length_imap.
    rewrite Forall_lookup in Hrows. exact (Hrows i r0 E).
Qed.

Lemma shape_eq (x y : Tensor) :
  lead x = lead y -> width x = width y -> shape x = shape y.
Proof. intros Hl Hw. unfold shape. rewrite Hl, Hw. reflexivity. Qed.

Lemma wf_LoReFT (f : K -> K) (self : LoreftIntervention (K:=K)) (base : Tensor) :
  wf base -> wf (LoReFT f self base).
Proof.
  intros [Hn _]. unfold LoReFT. rewrite Hn. apply wf_tabulate.
Qed.

Lemma wf_TinyEdit (self : TinyIntervention (K:=K)) (base : Tensor) :
  wf base -> wf (TinyEdit self base).
Proof.
  intros [Hn _]. unfold TinyEdit. rewrite Hn. apply wf_tabulate.
Qed.


End ShapeDtype.

(** ** The edit of LoreftIntervention has low rank *)

Section Rank.
Context {K : Type} {SK : Scalar K}.
Local Open Scope K_scope.

Add Ring K_Ring_rank : (K_ring (K:=K)).

Local Abbreviation Tensor := (@paddle.Tensor K).

Lemma Forall_zip_with_length {A B C} (g : A -> B -> C) (w : nat)
    (l1 : list (list A)) (l2 : list (list B)) :
  Forall (fun u => length u = w) l1 -> Forall (fun u => length u = w) l2 ->
  Forall (fun u => length u = w) (zip_with (zip_with g) l1 l2).
Proof.
  intros H1. revert l2. induction H1 as [|a l1 Ha _ IH]; intros l2 H2; simpl.
  - constructor.
  - destruct H2 as [|b l2 Hb H2]; constructor.
    + rewrite length_zip_with. lia.
    + apply IH. exact H2.
Qed.

Lemma Forall_map_length {A} (g : A -> list K) (w : nat) (l : list A) :
  (forall a, length (g a) = w) -> Forall (fun u => length u = w) (map g l).
Proof.
  intros Hg. apply Forall_forall. intros u Hu.
  apply list_elem_of_In, in_map_iff in Hu. destruct Hu as (a & <- & _). apply Hg.
Qed.

(** [(x + e) - x = e], row by row. *)
Lemma add_sub_cancel_row (x e : list K) :
  length x = length e -> zip_with ksub (zip_with kadd x e) x = e.
Proof.
  revert e. induction x as [|a x IH]; intros e Hlen.
  - destruct e; [reflexivity | discriminate].
  - destruct e as [|b e]; [discriminate|]. simpl. f_equal.
    + ring.
    + apply IH. simpl in Hlen. lia.
Qed.

Lemma add_sub_cancel_rows (w : nat) (xs es : list (list K)) :
  length xs = length es ->
  Forall (fun u => length u = w) xs -> Forall (fun u => length u = w) es ->
  zip_with (zip_with ksub) (zip_with (zip_with kadd) xs es) xs = es.
Proof.
  revert es. induction xs as [|x xs IH]; intros es Hlen Hxs Hes.
  - destruct es; [reflexivity | discriminate].
  - destruct es as [|e es]; [discriminate|]. simpl.
    apply Forall_cons in Hxs as [Hx Hxs]. apply Forall_cons in Hes as [He Hes].
    f_equal.
    + apply add_sub_cancel_row. congruence.
    + apply IH; [simpl in Hlen; lia | assumption | assumption].
Qed.

(** [forward] adds to [base] a product [v @ R^T] whose left factor [v] has
    [low_rank_dimension] columns. *)
Lemma LoreftIntervention_forward_factored
    (self : LoreftIntervention (K:=K)) (mask : nat -> nat -> K) (base : Tensor)
    (f : K -> K) (n r : nat) :
  Loreft_shaped n r self -> Loreft_typed (dtype base) self ->
  (forall t, act_fn self t = tensor_map f t) ->
  width base = n ->
  exists v e s : Tensor,
    lead v = lead base /\ width v = r /\
    length (rows v) = length (rows base) /\
    Forall (fun u => length u = r) (rows v) /\
    matmul v (T (weight (rotate_layer self))) = ret e /\
    rows e = map (vec_mat n (transpose_rows r (rows (weight (rotate_layer self)))))
                 (rows v) /\
    add base e = ret s /\
    rows s = zip_with (zip_with kadd) (rows base) (rows e) /\
    LoreftIntervention_forward self mask base =
    Dropout_forward (dropout self) mask (astype (dtype base) s).
Proof.
  intros (HR & HW & Hb) (HdW & Hdb & Hprom) Hact Hbase.
  destruct (Linear_forward_ok _ base n r HW Hb Hbase (eq_sym HdW))
    as (b & Hrb & Hlb & Hlin).
  pose proof (is_matrix_length _ _ _ HR) as HRlen.
  destruct HR as (HRl & HRw & _).
  remember (LoreftIntervention_forward self mask base) as fw eqn:Efw.
  unfold LoreftIntervention_forward, LowRankRotateLayer_forward in Efw.
  rewrite (matmul_ok _ _ n) in Efw by (simpl; first [reflexivity | assumption]).
  rewrite Hlin in Efw. simpl in Efw. rewrite Hact in Efw. unfold subtract in Efw.
  rewrite elementwise_ok in Efw by (simpl; congruence). simpl in Efw.
  match type of Efw with
  | _ = bind (matmul ?V ?Y) _ =>
      assert (Hmm : matmul V Y =
                    ret {| dtype := promote_types (dtype V) (dtype Y);
                           lead := lead V; width := width Y;
                           rows := map (vec_mat (width Y) (rows Y)) (rows V) |})
        by (apply (matmul_ok V Y r);
            [ simpl; rewrite HdW, Hdb, !promote_types_diag; exact Hprom
            | simpl; congruence | simpl; congruence ]);
      exists V
  end.
  rewrite Hmm in Efw. simpl in Efw.
  match type of Efw with _ = bind (add _ ?E) _ => exists E end.
  unfold add in Efw.
  rewrite elementwise_ok in Efw by (simpl; congruence). simpl in Efw.
  match type of Efw with _ = Dropout_forward _ _ (astype _ ?S) => exists S end.
  simpl. split; [reflexivity|]. split; [reflexivity|]. split.
  { rewrite length_zip_with, !length_map. lia. }
  split.
  { apply Forall_zip_with_length.
    - apply Forall_forall. intros u Hu. apply list_elem_of_In, in_map_iff in Hu.
      destruct Hu as (u' & <- & Hu'). rewrite length_map.
      apply in_map_iff in Hu'. destruct Hu' as (h & <- & _).
      rewrite length_zip_with, length_vec_mat. lia.
    - apply Forall_map_length. intros h. rewrite HRw. apply length_vec_mat. }
  split; [exact Hmm|].
  split.
  { rewrite HRlen, HRw. reflexivity. }
  split.
  { unfold add. rewrite elementwise_ok by (simpl; congruence). reflexivity. }
  split; [reflexivity|]. exact Efw.
Qed.

(** C4, as amended.  With dropout probability 0, on a base whose dtype is
    the learned source's and combines with the rotate weight's to the latter
    ([Loreft_typed]), [forward(base)] is [base + v @ R^T] (carrying [base]'s
    dtype) for a tensor [v] whose last dimension is [low_rank_dimension];
    every row of [forward(base) - base] is a linear combination of the
    columns of [R = rotate_layer.weight], and the difference has rank at
    most [low_rank_dimension]. *)
Theorem LoreftIntervention_edit_low_rank
    (self : LoreftIntervention (K:=K)) (mask : nat -> nat -> K) (base : Tensor)
    (f : K -> K) (n r : nat) :
  Loreft_shaped n r self -> Loreft_typed (dtype base) self ->
  (forall t, act_fn self t = tensor_map f t) ->
  Qeq_bool (p (dropout self)) 0 = true ->
  wf base -> width base = n ->
  exists v e s out D : Tensor,
    width v = r /\ lead v = lead base /\ wf v /\
    matmul v (T (weight (rotate_layer self))) = ret e /\
    add base e = ret s /\
    LoreftIntervention_forward self mask base = ret out /\
    out = astype (dtype base) s /\
    subtract out base = ret D /\
    (forall i, (i < length (rows D))%nat ->
       in_column_span (weight (rotate_layer self)) (nth i (rows D) [])) /\
    rank_le r D.
Proof.
  intros Hself Htyped Hact Hp Hwf Hbase.
  destruct (LoreftIntervention_forward_factored self mask base f n r
              Hself Htyped Hact Hbase)
    as (v & e & s & Hvl & Hvw & Hvn & Hvr & Hmm & Hre & Hadd & Hrs & Hfw).
  destruct Hself as (HR & _ & _).
  pose proof (is_matrix_length _ _ _ HR) as HRlen.
  destruct HR as (HRl & HRw & _).
  assert (Hel : lead e = lead v /\ width e = n).
  { pose proof Hmm as Hmm'. unfold matmul in Hmm'.
    destruct (DType_eqb _ _); [|discriminate].
    rewrite (op_matmul_ok _ _ r) in Hmm' by (simpl; congruence).
    injection Hmm' as <-. simpl. split; [reflexivity | exact HRlen]. }
  destruct Hel as [Hel Hew].
  assert (Hsl : lead s = lead base /\ width s = n).
  { unfold add in Hadd.
    rewrite elementwise_ok in Hadd by (simpl; congruence).
    injection Hadd as <-. simpl. split; [reflexivity | exact Hbase]. }
  destruct Hsl as [Hsl Hsw].
  assert (HDrows : zip_with (zip_with ksub) (rows s) (rows base) = rows e).
  { rewrite Hrs. apply (add_sub_cancel_rows n).
    - rewrite Hre, length_map. lia.
    - rewrite <- Hbase. apply Hwf.
    - rewrite Hre. apply Forall_map_length. intros u. apply length_vec_mat. }
  exists v, e, s, (astype (dtype base) s),
    {| dtype := promote_types (dtype base) (dtype base);
       lead := lead s; width := width s; rows := rows e |}.
  split; [exact Hvw|]. split; [exact Hvl|]. split.
  { split; [|rewrite Hvw; exact Hvr]. rewrite Hvn, Hvl. apply Hwf. }
  split; [exact Hmm|]. split; [exact Hadd|]. split.
  { rewrite Hfw. unfold Dropout_forward. rewrite Hp. reflexivity. }
  split; [reflexivity|]. split.
  { unfold subtract. rewrite elementwise_ok by (simpl; congruence).
    simpl. rewrite HDrows. reflexivity. }
  split.
  - simpl. intros i Hi. rewrite Hre in *. rewrite length_map in Hi.
    exists (nth i (rows v) []).
    assert (Hlen : length (nth i (rows v) []) = r).
    { rewrite Forall_forall in Hvr. apply Hvr, list_elem_of_In, nth_In. exact Hi. }
    split; [congruence|]. split.
    + rewrite (nth_map' _ _ i [] []) by exact Hi.
      rewrite length_vec_mat. congruence.
    + intros j Hj. rewrite (nth_map' _ _ i [] []) by exact Hi.
      rewrite nth_vec_mat;
        [| lia | rewrite length_transpose_rows; exact Hlen].
      rewrite length_transpose_rows, HRw. apply bigsum_ext. intros k Hk.
      rewrite nth_transpose_rows by exact Hk. reflexivity.
  - exists (rows v), (transpose_rows r (rows (weight (rotate_layer self)))).
    split; [exact Hvr|]. split; [apply length_transpose_rows|].
    simpl. rewrite Hsw. exact Hre.
Qed.

End Rank.

(** ** LowRankRotateLayer.forward is linear *)

Section Linearity.
Context {K : Type} {SK : Scalar K}.
Local Open Scope K_scope.

Add Ring K_Ring_lin : (K_ring (K:=K)).

Local Abbreviation Tensor := (@paddle.Tensor K).

Lemma dot_add_l (u v c : list K) :
  length u = length v ->
  dot (zip_with kadd u v) c = dot u c + dot v c.
Proof.
  revert v c. induction u as [|a u IH]; intros v c Hlen.
  - destruct v; [|discriminate]. unfold dot; simpl. ring.
  - destruct v as [|b v]; [discriminate|]. destruct c as [|x c].
    + unfold dot; simpl. ring.
    + simpl. rewrite !dot_cons, IH by (simpl in Hlen; lia). ring.
Qed.

Lemma dot_scale_l (s : K) (u c : list K) :
  dot (map (fun v => v * s) u) c = dot u c * s.
Proof.
  revert c. induction u as [|a u IH]; intros c.
  - unfold dot; simpl. ring.
  - destruct c as [|x c].
    + unfold dot; simpl. ring.
    + simpl. rewrite !dot_cons, IH. ring.
Qed.

Lemma vec_mat_add (w : nat) (M : list (list K)) (u v : list K) :
  length u = length v ->
  vec_mat w M (zip_with kadd u v) = zip_with kadd (vec_mat w M u) (vec_mat w M v).
Proof.
  intros Hlen. unfold vec_mat. rewrite zip_with_map_map.
  apply map_ext. intros c. apply dot_add_l. exact Hlen.
Qed.

Lemma vec_mat_scale (w : nat) (M : list (list K)) (s : K) (u : list K) :
  vec_mat w M (map (fun v => v * s) u) = map (fun v => v * s) (vec_mat w M u).
Proof.
  unfold vec_mat. rewrite map_map. apply map_ext. intros c. apply dot_scale_l.
Qed.

Lemma map_zip_with_rows (g : list K -> list K) (w : nat) (xs ys : list (list K)) :
  (forall u v, length u = w -> length v = w ->
     g (zip_with kadd u v) = zip_with kadd (g u) (g v)) ->
  Forall (fun u => length u = w) xs -> Forall (fun u => length u = w) ys ->
  map g (zip_with (zip_with kadd) xs ys) = zip_with (zip_with kadd) (map g xs) (map g ys).
Proof.
  intros Hg Hxs. revert ys. induction xs as [|x xs IH]; intros ys Hys.
  - reflexivity.
  - destruct ys as [|y ys]; [reflexivity|]. simpl.
    apply Forall_cons in Hxs as [Hx Hxs]. apply Forall_cons in Hys as [Hy Hys].
    f_equal; [apply Hg; assumption | apply IH; assumption].
Qed.

Lemma is_matrix_tensor2 (d : DType) (n m : nat) (init : nat -> nat -> K) :
  is_matrix n m (tensor2 d n m init).
Proof.
  split; [reflexivity|]. split; [reflexivity|]. split; simpl.
  - rewrite length_map, length_seq. lia.
  - apply Forall_forall. intros u Hu. apply list_elem_of_In, in_map_iff in Hu.
    destruct Hu as (i & <- & _). rewrite length_map. apply length_seq.
Qed.

Lemma is_vector_tensor1 (d : DType) (n : nat) (init : nat -> K) :
  is_vector n (tensor1 d n init).
Proof.
  split; [reflexivity|]. split; [reflexivity|]. split; simpl; [reflexivity|].
  constructor; [|constructor]. rewrite length_map. apply length_seq.
Qed.

(** C5.  [LowRankRotateLayer.forward] is the projection [x |-> x @ weight]
    onto the layer's [n, m] weight; on inputs of the weight's dtype it is
    additive and homogeneous: [forward(x + y) = forward(x) + forward(y)] and
    [forward(c * x) = c * forward(x)]. *)
Theorem LowRankRotateLayer_forward_linear
    (Orthogonal : nat -> nat -> K) (self : LowRankRotateLayer (K:=K))
    (x y : Tensor) (c : K) (n m : nat) :
  is_matrix n m (weight self) ->
  wf x -> wf y -> lead x = lead y -> width x = n -> width y = n ->
  dtype x = dtype (weight self) -> dtype y = dtype (weight self) ->
  (forall layer, LowRankRotateLayer_init Orthogonal n m = ret layer ->
     is_matrix n m (weight layer)) /\
  ((0 < n)%nat -> (0 < m)%nat ->
     exists layer, LowRankRotateLayer_init Orthogonal n m = ret layer) /\
  LowRankRotateLayer_forward self x = matmul x (weight self) /\
  exists fx fy s fs : Tensor,
    LowRankRotateLayer_forward self x = ret fx /\
    LowRankRotateLayer_forward self y = ret fy /\
    add x y = ret s /\
    LowRankRotateLayer_forward self s = ret fs /\
    add fx fy = ret fs /\
    LowRankRotateLayer_forward self (scale x c) = ret (scale fx c).
Proof.
  intros (HWl & HWw & _) Hx Hy Hlead Hxw Hyw Hxd Hyd.
  split.
  { intros layer. unfold LowRankRotateLayer_init, create_parameter2.
    destruct (Nat.ltb 0 n && Nat.ltb 0 m); [|discriminate].
    simpl. intros [= <-]. apply is_matrix_tensor2. }
  split.
  { intros Hn Hm. unfold LowRankRotateLayer_init, create_parameter2.
    apply Nat.ltb_lt in Hn, Hm. rewrite Hn, Hm. simpl. eauto. }
  assert (Hcast : forall t : Tensor, dtype t = dtype (weight self) ->
            astype (dtype (weight self)) t = t).
  { intros [d l w r] Hd. simpl in Hd. subst d. reflexivity. }
  split.
  { unfold LowRankRotateLayer_forward. rewrite Hcast by exact Hxd. reflexivity. }
  unfold LowRankRotateLayer_forward, add.
  rewrite (matmul_ok _ (weight self) n) by (simpl; first [reflexivity | assumption]).
  rewrite (matmul_ok _ (weight self) n) by (simpl; first [reflexivity | assumption]).
  rewrite elementwise_ok by congruence.
  eexists. eexists. eexists. eexists.
  split; [reflexivity|]. split; [reflexivity|]. split; [reflexivity|].
  split; [|split].
  - rewrite (matmul_ok _ (weight self) n) by (simpl; first [reflexivity | assumption]). reflexivity.
  - rewrite elementwise_ok by (simpl; congruence). simpl.
    unfold ret. f_equal. rewrite !promote_types_diag. f_equal.
    symmetry. apply (map_zip_with_rows _ n).
    + intros u v Hu Hv. apply vec_mat_add. congruence.
    + rewrite <- Hxw. apply Hx.
    + rewrite <- Hyw. apply Hy.
  - rewrite (matmul_ok _ (weight self) n) by (simpl; first [reflexivity | assumption]).
    unfold ret. f_equal. unfold scale, tensor_map. simpl. f_equal.
    rewrite !map_map. apply map_ext. intros u. apply vec_mat_scale.
Qed.

End Linearity.

(** ** The lookup table and the constructors *)

Section Mapping.
Context {K : Type} {SK : Scalar K}.

Local Abbreviation Tensor := (@paddle.Tensor K).
Local Abbreviation Store := (gmap (nat * string) (Attr (K:=K))).

Lemma intervention_mapping_lookup (name : string) (cls : InterventionClass) :
  intervention_mapping !! name = Some cls <->
  (name = "LoreftIntervention" /\ cls = LoreftIntervention_class) \/
  (name = "TinyIntervention" /\ cls = TinyIntervention_class).
Proof.
  unfold intervention_mapping.
  rewrite lookup_insert_Some, lookup_singleton_Some.
  split.
  - intros [[<- <-] | [_ [<- <-]]]; [left | right]; split; reflexivity.
  - intros [[-> ->] | [-> ->]]; [left | right]; repeat split; discriminate.
Qed.

(** *** What a method writes and reads *)

Lemma writes_nothing_getattr (self : nat) (name : string) :
  writes_nothing (getattr (K:=K) self name).
Proof. intros s. reflexivity. Qed.

Lemma writes_nothing_mlift {A : Type} (r : res A) : writes_nothing (mlift (S:=Store) r).
Proof. intros s. reflexivity. Qed.

Lemma writes_nothing_bind {A B : Type} (m : Method Store A) (f : A -> Method Store B) :
  writes_nothing m -> (forall a, writes_nothing (f a)) ->
  writes_nothing (mbind_st m f).
Proof.
  intros Hm Hf s. unfold mbind_st. specialize (Hm s).
  destruct (m s) as [s1 [e|a]]; simpl in *; [exact Hm|].
  rewrite (Hf a s1). exact Hm.
Qed.

Lemma reads_only_getattr (self : nat) (name : string) :
  reads_only self (getattr (K:=K) self name).
Proof. intros s s' Hs. unfold getattr. simpl. rewrite (Hs name). reflexivity. Qed.

Lemma reads_only_mlift (self : nat) {A : Type} (r : res A) :
  reads_only self (mlift (S:=Store) r).
Proof. intros s s' _. reflexivity. Qed.

Lemma reads_only_bind (self : nat) {A B : Type} (m : Method Store A)
    (f : A -> Method Store B) :
  writes_nothing m -> reads_only self m -> (forall a, reads_only self (f a)) ->
  reads_only self (mbind_st m f).
Proof.
  intros Hw Hm Hf s s' Hs. unfold mbind_st.
  specialize (Hm s s' Hs). pose proof (Hw s) as H1. pose proof (Hw s') as H2.
  destruct (m s) as [s1 r1], (m s') as [s2 r2]. simpl in *. subst.
  destruct r2 as [e|a]; [reflexivity|]. apply Hf. exact Hs.
Qed.

Ltac footprint :=
  repeat first
    [ apply writes_nothing_bind; [|intros ?]
    | apply reads_only_bind; [| |intros ?]
    | apply writes_nothing_getattr
    | apply writes_nothing_mlift
    | apply reads_only_getattr
    | apply reads_only_mlift ].

Lemma LoreftIntervention_forward_at_footprint (self : nat)
    (mask : nat -> nat -> K) (base : Tensor) :
  writes_nothing (LoreftIntervention_forward_at self mask base) /\
  reads_only self (LoreftIntervention_forward_at self mask base).
Proof.
  unfold LoreftIntervention_forward_at, LowRankRotateLayer_forward_at, get_tensor.
  split; footprint.
Qed.

Lemma TinyIntervention_forward_at_footprint (self : nat)
    (mask1 mask2 : nat -> nat -> K) (base : Tensor) :
  writes_nothing (TinyIntervention_forward_at self mask1 mask2 base) /\
  reads_only self (TinyIntervention_forward_at self mask1 mask2 base).
Proof.
  unfold TinyIntervention_forward_at, get_tensor.
  split; footprint.
Qed.

(** *** The store methods are the forward methods *)

Lemma mbind_st_eval {A B : Type} (m : Method Store A) (f : A -> Method Store B)
    (s s1 : Store) (r : res A) :
  m s = (s1, r) ->
  mbind_st m f s = match r with inl e => (s1, inl e) | inr a => f a s1 end.
Proof. intros H. unfold mbind_st. rewrite H. destruct r; reflexivity. Qed.

Lemma mbind_mlift {A B : Type} (r : res A) (f : A -> Method Store B) (s : Store) :
  mbind_st (mlift r) f s = match r with inl e => (s, inl e) | inr a => f a s end.
Proof. unfold mbind_st, mlift. destruct r; reflexivity. Qed.

Lemma getattr_found (self : nat) (name : string) (s : Store) (v : Attr) :
  s !! (self, name) = Some v -> getattr self name s = (s, ret v).
Proof. intros H. unfold getattr. rewrite H. reflexivity. Qed.

Lemma get_tensor_found (self : nat) (name : string) (s : Store) (t : Tensor) :
  s !! (self, name) = Some (ATensor t) -> get_tensor self name s = (s, ret t).
Proof.
  intros H. unfold get_tensor.
  rewrite (mbind_st_eval _ _ _ _ _ (getattr_found _ _ _ _ H)). reflexivity.
Qed.

Ltac stored :=
  repeat (rewrite ?lookup_insert_eq; rewrite ?lookup_insert_ne by (intros [=]));
  reflexivity.

Ltac run H := rewrite (mbind_st_eval _ _ _ _ _ H); cbn [ret].

Lemma LoreftIntervention_forward_at_stored (self : nat)
    (obj : LoreftIntervention (K:=K)) (mask : nat -> nat -> K) (base : Tensor)
    (s : Store) :
  snd (LoreftIntervention_forward_at self mask base
         (store_LoreftIntervention self obj s))
  = LoreftIntervention_forward obj mask base.
Proof.
  set (st := store_LoreftIntervention self obj s).
  assert (HR : get_tensor self "rotate_layer.weight" st
               = (st, ret (weight (rotate_layer obj)))).
  { apply get_tensor_found. unfold st, store_LoreftIntervention. stored. }
  assert (HW : get_tensor self "learned_source.weight" st
               = (st, ret (lin_weight (learned_source obj)))).
  { apply get_tensor_found. unfold st, store_LoreftIntervention. stored. }
  assert (Hb : get_tensor self "learned_source.bias" st
               = (st, ret (lin_bias (learned_source obj)))).
  { apply get_tensor_found. unfold st, store_LoreftIntervention. stored. }
  assert (Hact : getattr self "act_fn" st = (st, ret (AFunction (act_fn obj)))).
  { apply getattr_found. unfold st, store_LoreftIntervention. stored. }
  assert (Hdrop : getattr self "dropout" st = (st, ret (ADropout (dropout obj)))).
  { apply getattr_found. unfold st, store_LoreftIntervention. stored. }
  assert (Hrot : LowRankRotateLayer_forward_at self base st
                 = (st, LowRankRotateLayer_forward (rotate_layer obj) base)).
  { unfold LowRankRotateLayer_forward_at.
    rewrite (mbind_st_eval _ _ _ _ _ HR). reflexivity. }
  unfold LoreftIntervention_forward_at, LoreftIntervention_forward.
  run Hrot.
  destruct (LowRankRotateLayer_forward (rotate_layer obj) base) as [e|rotated]; cbn [bind];
    [reflexivity|].
  run Hact. rewrite mbind_mlift. cbn [as_function ret].
  run HW. run Hb. rewrite mbind_mlift.
  destruct obj as [R [W b] d dr act]. cbn [bind learned_source lin_weight lin_bias
    act_fn rotate_layer dropout] in *.
  destruct (Linear_forward _ base) as [e|source]; cbn [bind];
    [reflexivity|].
  rewrite mbind_mlift.
  destruct (subtract _ _) as [e|diff]; cbn [bind];
    [reflexivity|].
  run HR. rewrite mbind_mlift.
  destruct (matmul diff _) as [e|edit]; cbn [bind];
    [reflexivity|].
  rewrite mbind_mlift.
  destruct (add base edit) as [e|output]; cbn [bind];
    [reflexivity|].
  run Hdrop. reflexivity.
Qed.

Lemma TinyIntervention_forward_at_stored (self : nat)
    (obj : TinyIntervention (K:=K)) (mask1 mask2 : nat -> nat -> K)
    (base : Tensor) (s : Store) :
  snd (TinyIntervention_forward_at self mask1 mask2 base
         (store_TinyIntervention self obj s))
  = TinyIntervention_forward obj mask1 mask2 base.
Proof.
  set (st := store_TinyIntervention self obj s).
  assert (HA : get_tensor self "param_A" st = (st, ret (param_A obj))).
  { apply get_tensor_found. unfold st, store_TinyIntervention. stored. }
  assert (HB : get_tensor self "param_B" st = (st, ret (param_B obj))).
  { apply get_tensor_found. unfold st, store_TinyIntervention. stored. }
  assert (Ha : get_tensor self "param_a" st = (st, ret (param_a obj))).
  { apply get_tensor_found. unfold st, store_TinyIntervention. stored. }
  assert (Hb : get_tensor self "param_b" st = (st, ret (param_b obj))).
  { apply get_tensor_found. unfold st, store_TinyIntervention. stored. }
  assert (Hs : getattr self "scaling" st = (st, ret (ANumber (scaling obj)))).
  { apply getattr_found. unfold st, store_TinyIntervention. stored. }
  assert (Hdrop : getattr self "dropout" st
                  = (st, ret (match tiny_dropout obj with
                              | Some d => ADropout d
                              | None => AIdentity
                              end))).
  { apply getattr_found. unfold st, store_TinyIntervention. stored. }
  assert (Hcall : forall mask x,
            call_dropout (match tiny_dropout obj with
                          | Some d => ADropout d
                          | None => AIdentity
                          end) mask x
            = TinyIntervention_dropout obj mask x).
  { intros mask x. unfold TinyIntervention_dropout.
    destruct (tiny_dropout obj); reflexivity. }
  unfold TinyIntervention_forward_at, TinyIntervention_forward.
  run Hb. rewrite mbind_mlift.
  destruct (diag (param_b obj)) as [e|diag_b]; cbn [bind];
    [reflexivity|].
  run Ha. rewrite mbind_mlift.
  destruct (diag (param_a obj)) as [e|diag_a]; cbn [bind];
    [reflexivity|].
  run Hdrop. rewrite mbind_mlift, Hcall.
  cbn [bind].
  destruct (TinyIntervention_dropout obj mask1 base) as [e|x0]; cbn [bind];
    [reflexivity|].
  run HA. rewrite mbind_mlift.
  destruct (op_matmul x0 _) as [e|x1]; cbn [bind];
    [reflexivity|].
  rewrite mbind_mlift.
  destruct (op_matmul x1 _) as [e|x2]; cbn [bind];
    [reflexivity|].
  run HB. rewrite mbind_mlift.
  destruct (op_matmul x2 _) as [e|x3]; cbn [bind];
    [reflexivity|].
  rewrite mbind_mlift.
  destruct (op_matmul x3 _) as [e|x4]; cbn [bind];
    [reflexivity|].
  run Hs. rewrite mbind_mlift. cbn [as_number ret bind].
  rewrite mbind_mlift.
  destruct (add base _) as [e|output]; cbn [bind];
    [reflexivity|].
  run Hdrop. rewrite Hcall. reflexivity.
Qed.

Lemma same_attributes_store_TinyIntervention (a b : nat)
    (obj : TinyIntervention (K:=K)) (s : Store) :
  a <> b -> same_attributes a (store_TinyIntervention b obj s) s.
Proof.
  intros Hab name. unfold store_TinyIntervention.
  rewrite !lookup_insert_ne by congruence. reflexivity.
Qed.

Lemma same_attributes_store_LoreftIntervention (a b : nat)
    (obj : LoreftIntervention (K:=K)) (s : Store) :
  a <> b -> same_attributes a (store_LoreftIntervention b obj s) s.
Proof.
  intros Hab name. unfold store_LoreftIntervention.
  rewrite !lookup_insert_ne by congruence. reflexivity.
Qed.

(** C6.  [intervention_mapping] has exactly the keys ["LoreftIntervention"]
    and ["TinyIntervention"], bound to the two classes.  Each class's
    [forward] assigns to no attribute and its outcome depends on the
    attributes of its own object only: whatever intervention of the other
    class lives beside it in the store, it computes the forward pass of its
    own object. *)
Theorem intervention_mapping_two_independent_entries :
  dom intervention_mapping = ({[ "LoreftIntervention"; "TinyIntervention" ]} : gset string) /\
  intervention_mapping !! "LoreftIntervention" = Some LoreftIntervention_class /\
  intervention_mapping !! "TinyIntervention" = Some TinyIntervention_class /\
  (forall name, name <> "LoreftIntervention" -> name <> "TinyIntervention" ->
     intervention_mapping !! name = None) /\
  (forall self mask (base : Tensor),
     writes_nothing (LoreftIntervention_forward_at self mask base) /\
     reads_only self (LoreftIntervention_forward_at self mask base)) /\
  (forall self mask1 mask2 (base : Tensor),
     writes_nothing (TinyIntervention_forward_at self mask1 mask2 base) /\
     reads_only self (TinyIntervention_forward_at self mask1 mask2 base)) /\
  (forall (a b : nat) lo ti mask mask1 mask2 (base : Tensor) (s : Store),
     a <> b ->
     snd (LoreftIntervention_forward_at a mask base
            (store_TinyIntervention b ti (store_LoreftIntervention a lo s)))
     = LoreftIntervention_forward lo mask base /\
     snd (TinyIntervention_forward_at b mask1 mask2 base
            (store_LoreftIntervention a lo (store_TinyIntervention b ti s)))
     = TinyIntervention_forward ti mask1 mask2 base).
Proof.
  split.
  { unfold intervention_mapping. rewrite dom_insert_L, dom_singleton_L.
    reflexivity. }
  split; [reflexivity|]. split; [reflexivity|]. split.
  { intros name H1 H2. destruct (intervention_mapping !! name) as [cls|] eqn:E;
      [|reflexivity].
    apply intervention_mapping_lookup in E as [[-> _] | [-> _]]; congruence. }
  split; [intros; apply LoreftIntervention_forward_at_footprint|].
  split; [intros; apply TinyIntervention_forward_at_footprint|].
  intros a b lo ti mask mask1 mask2 base s Hab. split.
  - rewrite <- (LoreftIntervention_forward_at_stored a lo mask base s).
    apply (proj2 (LoreftIntervention_forward_at_footprint a mask base)).
    apply same_attributes_store_TinyIntervention. exact Hab.
  - rewrite <- (TinyIntervention_forward_at_stored b ti mask1 mask2 base s).
    apply (proj2 (TinyIntervention_forward_at_footprint b mask1 mask2 base)).
    apply same_attributes_store_LoreftIntervention. congruence.
Qed.

End Mapping.

Section Constructors.
Context {K : Type} {SK : Scalar K}.


Lemma create_parameter2_ok (d : DType) (n m : nat) (init : nat -> nat -> K) :
  (0 < n)%nat -> (0 < m)%nat ->
  create_parameter2 d n m init = ret (tensor2 d n m init).
Proof.
  intros Hn Hm. unfold create_parameter2.
  apply Nat.ltb_lt in Hn, Hm. rewrite Hn, Hm. reflexivity.
Qed.

Lemma create_parameter1_ok (d : DType) (n : nat) (init : nat -> K) :
  (0 < n)%nat -> create_parameter1 d n init = ret (tensor1 d n init).
Proof.
  intros Hn. unfold create_parameter1. apply Nat.ltb_lt in Hn. rewrite Hn.
  reflexivity.
Qed.

Lemma create_parameter2_inv (d : DType) (n m : nat) (init : nat -> nat -> K)
    (t : Tensor) :
  create_parameter2 d n m init = ret t ->
  (0 < n)%nat /\ (0 < m)%nat /\ t = tensor2 d n m init.
Proof.
  unfold create_parameter2.
  destruct (Nat.ltb 0 n) eqn:Hn; [|discriminate].
  destruct (Nat.ltb 0 m) eqn:Hm; [|discriminate].
  apply Nat.ltb_lt in Hn, Hm. cbn. intros [= <-]. auto.
Qed.

Lemma create_parameter1_inv (d : DType) (n : nat) (init : nat -> K) (t : Tensor) :
  create_parameter1 d n init = ret t ->
  (0 < n)%nat /\ t = tensor1 d n init.
Proof.
  unfold create_parameter1.
  destruct (Nat.ltb 0 n) eqn:Hn; [|discriminate].
  apply Nat.ltb_lt in Hn. cbn. intros [= <-]. auto.
Qed.




Lemma ACT2FN_lookup_Some (name : string) (g : Tensor (K:=K) -> Tensor (K:=K)) :
  ACT2FN !! name = Some g -> g = linear_act \/ g = ReLU.
Proof.
  unfold ACT2FN. rewrite lookup_insert_Some, lookup_singleton_Some.
  intros [[_ <-] | [_ [_ <-]]]; [left | right]; reflexivity.
Qed.

(** What a constructor that returns has built. *)
Lemma LoreftIntervention_init_inv
    (Orthogonal_R Orthogonal_W : nat -> nat -> K) (kwargs : Kwargs)
    (self : LoreftIntervention (K:=K)) :
  LoreftIntervention_init Orthogonal_R Orthogonal_W kwargs = ret self ->
  exists n r d g,
    kw_embed_dim kwargs = Some n /\ kw_low_rank_dimension kwargs = Some r /\
    kw_dtype kwargs = Some d /\ (0 < n)%nat /\ (0 < r)%nat /\
    (g = linear_act \/ g = ReLU) /\
    self = {| rotate_layer := {| weight := tensor2 default_dtype n r Orthogonal_R |};
              learned_source :=
                Linear_astype d
                  {| lin_weight := tensor2 default_dtype n r Orthogonal_W;
                     lin_bias := tensor1 default_dtype r (fun _ => k0) |};
              data_type := d;
              dropout := {| p := match kw_dropout kwargs with
                                 | Some q => q
                                 | None => 0%Q
                                 end;
                            training := true |};
              act_fn := g |}.
Proof.
  unfold LoreftIntervention_init, LowRankRotateLayer_init, Linear_init,
    create_parameter2, create_parameter1.
  destruct (kw_embed_dim kwargs) as [n|]; [|discriminate].
  destruct (kw_low_rank_dimension kwargs) as [r|]; [|discriminate].
  cbn [kwargs_getitem bind ret].
  destruct (Nat.ltb 0 n) eqn:Hn; [|discriminate].
  destruct (Nat.ltb 0 r) eqn:Hr; [|discriminate].
  apply Nat.ltb_lt in Hn, Hr. cbn [andb bind ret].
  destruct (kw_dtype kwargs) as [d|]; [|discriminate].
  cbn [bind ret].
  assert (Hgen : forall g, g = linear_act \/ g = ReLU ->
            forall q, inr (mkLoreftIntervention
                             {| weight := tensor2 default_dtype n r Orthogonal_R |}
                             (Linear_astype d
                                {| lin_weight := tensor2 default_dtype n r Orthogonal_W;
                                   lin_bias := tensor1 default_dtype r (fun _ => k0) |})
                             d {| p := q; training := true |} g) = ret self ->
            exists n0 r0 d0 g0,
              Some n = Some n0 /\ Some r = Some r0 /\ Some d = Some d0 /\
              (0 < n0)%nat /\ (0 < r0)%nat /\ (g0 = linear_act \/ g0 = ReLU) /\
              self = mkLoreftIntervention
                       {| weight := tensor2 default_dtype n0 r0 Orthogonal_R |}
                       (Linear_astype d0
                          {| lin_weight := tensor2 default_dtype n0 r0 Orthogonal_W;
                             lin_bias := tensor1 default_dtype r0 (fun _ => k0) |})
                       d0 {| p := q; training := true |} g0).
  { intros g Hg q [= <-]. exists n, r, d, g. repeat split; auto. }
  destruct (kw_act_fn kwargs) as [[name|]|]; unfold getitem.
  - destruct (ACT2FN !! name) as [g|] eqn:E; [|discriminate].
    apply ACT2FN_lookup_Some in E. cbn [bind ret]. apply Hgen. exact E.
  - unfold ACT2FN. rewrite lookup_insert_eq. cbn [bind ret].
    apply Hgen. left. reflexivity.
  - unfold ACT2FN. rewrite lookup_insert_eq. cbn [bind ret].
    apply Hgen. left. reflexivity.
Qed.

Lemma TinyIntervention_init_inv (KaimingUniform : nat -> nat -> K)
    (kwargs : Kwargs) (self : TinyIntervention (K:=K)) :
  TinyIntervention_init KaimingUniform kwargs = ret self ->
  exists h r,
    kw_embed_dim kwargs = Some h /\ kw_low_rank_dimension kwargs = Some r /\
    (0 < h)%nat /\ (0 < r)%nat /\
    self = {| rank := r; hidden_size := h; tiny_dropout := None; scaling := k1;
              param_A := tensor2 default_dtype h r KaimingUniform;
              param_B := tensor2 default_dtype r h (Constant k0);
              param_a := tensor1 default_dtype r (fun _ => k1);
              param_b := tensor1 default_dtype h (fun _ => k1) |}.
Proof.
  unfold TinyIntervention_init, create_parameter2, create_parameter1.
  destruct (kw_low_rank_dimension kwargs) as [r|]; [|discriminate].
  destruct (kw_embed_dim kwargs) as [h|]; [|discriminate].
  cbn [kwargs_getitem bind ret].
  destruct (Nat.ltb 0 h) eqn:Hh; destruct (Nat.ltb 0 r) eqn:Hr;
    cbn [andb bind ret]; try discriminate.
  apply Nat.ltb_lt in Hh, Hr.
  intros [= <-]. exists h, r. repeat split; auto.
Qed.




End Constructors.

(** ** load_state_dict *)

Section LoadStateDict.
Context {K : Type} {SK : Scalar K}.
Local Open Scope K_scope.

Local Abbreviation Tensor := (@paddle.Tensor K).

Lemma nth_overwrite_prefix (c : nat) (old new : list K) (j : nat) :
  length new = c ->
  nth j (overwrite_prefix c old new) k0 =
  if Nat.ltb j c then nth j new k0 else nth j old k0.
Proof.
  intros Hlen. unfold overwrite_prefix.
  rewrite firstn_all2 by lia.
  destruct (Nat.ltb_spec j c) as [Hj|Hj].
  - apply app_nth1. lia.
  - rewrite app_nth2 by lia. rewrite nth_skipn. f_equal. lia.
Qed.

(** What [w[:, :c] = v] stores, entry by entry. *)
Lemma setitem_cols_spec (w v w' : Tensor) (n m : nat) :
  is_matrix n m w -> wf v ->
  setitem_cols w (width v) v = ret w' ->
  dtype w' = dtype w /\ lead w' = lead w /\ width w' = width w /\
  length (rows w') = n /\
  (width v <= m)%nat /\
  forall i j, (i < n)%nat ->
    entry w' i j =
    if Nat.ltb j (width v) then entry v (source_row n v i) j else entry w i j.
Proof.
  intros Hw Hv. pose proof (is_matrix_length _ _ _ Hw) as Hwn.
  destruct Hw as (Hwl & Hww & _ & Hwrows). destruct Hv as [Hvn Hvrows].
  unfold setitem_cols, source_row. rewrite Hwl.
  destruct (Nat.eqb_spec (width v) (Nat.min (width v) (width w))) as [Hc|Hc];
    [|discriminate].
  rewrite <- Hc.
  destruct (bool_decide (lead v = [n])) eqn:Hlead.
  - apply bool_decide_eq_true_1 in Hlead. intros [= <-]. simpl.
    assert (Hvlen : length (rows v) = n) by (rewrite Hvn, Hlead; simpl; lia).
    repeat split; try reflexivity; try lia.
    + rewrite length_zip_with. lia.
    + intros i j Hi. unfold entry. simpl.
      rewrite (nth_zip_with _ _ _ i [] [] []) by lia.
      apply nth_overwrite_prefix.
      rewrite Forall_forall in Hvrows. apply Hvrows, list_elem_of_In, nth_In. lia.
  - assert (Hbc : forall r, rows v = [r] ->
              forall w'', ret {| dtype := dtype w; lead := [n]; width := width w;
                                 rows := map (fun old => overwrite_prefix (width v) old r)
                                             (rows w) |} = ret w'' ->
              dtype w'' = dtype w /\ lead w'' = [n] /\ width w'' = width w /\
              length (rows w'') = n /\ (width v <= m)%nat /\
              forall i j, (i < n)%nat ->
                entry w'' i j =
                if Nat.ltb j (width v) then entry v 0 j else entry w i j).
    { intros r Hr w'' [= <-]. simpl.
      repeat split; try reflexivity; try lia.
      - rewrite length_map. exact Hwn.
      - intros i j Hi. unfold entry. simpl. rewrite Hr. simpl.
        rewrite (nth_map' _ _ i [] []) by lia.
        apply nth_overwrite_prefix.
        rewrite Hr in Hvrows. apply Forall_cons in Hvrows as [Hrl _]. exact Hrl. }
    destruct (lead v) as [|[|[|k]] [|]]; try discriminate;
      destruct (rows v) as [|r [|]]; try discriminate;
      intros Hret; exact (Hbc r eq_refl w' Hret).
Qed.

Lemma setitem_cols_ok (w v : Tensor) (n m c : nat) :
  is_matrix n m w -> is_matrix n c v -> (c <= m)%nat ->
  exists w', setitem_cols w (width v) v = ret w'.
Proof.
  intros (Hwl & Hww & _) (Hvl & Hvw & _) Hc.
  unfold setitem_cols. rewrite Hwl, Hvw, Hww.
  rewrite Nat.min_l by exact Hc. rewrite Nat.eqb_refl.
  rewrite bool_decide_eq_true_2 by exact Hvl. eauto.
Qed.

(** The outcome of [LoreftIntervention.load_state_dict], case by case. *)
Lemma LoreftIntervention_load_state_dict_cases
    (sd : gmap string Tensor) (self : LoreftIntervention (K:=K)) :
  LoreftIntervention_load_state_dict sd self =
  match sd !! "learned_source.weight" with
  | None => (self, raise (KeyError "learned_source.weight"))
  | Some W =>
    let s1 := set_learned_source_weight (astype (data_type self) W) self in
    match sd !! "learned_source.bias" with
    | None => (s1, raise (KeyError "learned_source.bias"))
    | Some b =>
      let s2 := set_learned_source_bias (astype (data_type self) b) s1 in
      match sd !! "rotate_layer.weight" with
      | None => (s2, raise (KeyError "rotate_layer.weight"))
      | Some Rw =>
        match setitem_cols (weight (rotate_layer self)) (width Rw)
                           (astype (data_type self) Rw) with
        | inl e => (s2, inl e)
        | inr new_w => (set_rotate_layer_weight new_w s2, ret tt)
        end
      end
    end
  end.
Proof.
  unfold LoreftIntervention_load_state_dict, mbind_st, mget, mlift, mmodify, getitem.
  destruct (sd !! "learned_source.weight") as [W|]; simpl; [|reflexivity].
  destruct (sd !! "learned_source.bias") as [b|]; simpl; [|reflexivity].
  destruct (sd !! "rotate_layer.weight") as [Rw|]; simpl; [|reflexivity].
  destruct (setitem_cols _ _ _); reflexivity.
Qed.

Lemma wf_astype (d : DType) (t : Tensor) : wf t -> wf (astype d t).
Proof. intros H. exact H. Qed.

(** The outcome of [TinyIntervention.load_state_dict] when it returns. *)
Lemma TinyIntervention_load_state_dict_returns
    (sd : gmap string Tensor) (self self' : TinyIntervention (K:=K)) :
  TinyIntervention_load_state_dict sd self = (self', ret tt) ->
  exists vA vB va vb,
    sd !! "param_A" = Some vA /\ sd !! "param_B" = Some vB /\
    sd !! "param_a" = Some va /\ sd !! "param_b" = Some vb /\
    set_value (param_A self) vA = ret vA /\ set_value (param_B self) vB = ret vB /\
    set_value (param_a self) va = ret va /\ set_value (param_b self) vb = ret vb /\
    self' = set_param_b vb (set_param_a va (set_param_B vB (set_param_A vA self))).
Proof.
  unfold TinyIntervention_load_state_dict, mbind_st, mget, mlift, mmodify, getitem.
  destruct (sd !! "param_A") as [vA|]; simpl; [|discriminate].
  destruct (set_value (param_A self) vA) as [e|pA] eqn:EA; simpl; [discriminate|].
  destruct (sd !! "param_B") as [vB|]; simpl; [|discriminate].
  destruct (set_value (param_B self) vB) as [e|pB] eqn:EB; simpl; [discriminate|].
  destruct (sd !! "param_a") as [va|]; simpl; [|discriminate].
  destruct (set_value (param_a self) va) as [e|pa] eqn:Ea; simpl; [discriminate|].
  destruct (sd !! "param_b") as [vb|]; simpl; [|discriminate].
  destruct (set_value (param_b self) vb) as [e|pb] eqn:Eb; simpl; [discriminate|].
  intros [= <-].
  assert (Hsv : forall q v q', set_value (K:=K) q v = inr q' -> q' = v).
  { intros q v q'. unfold set_value. destruct (_ && _); [|discriminate].
    intros [= <-]. reflexivity. }
  apply Hsv in EA as HA. apply Hsv in EB as HB. apply Hsv in Ea as Ha.
  apply Hsv in Eb as Hb. subst.
  exists vA, vB, va, vb. repeat split; assumption.
Qed.

Lemma set_value_ok (q v : Tensor) :
  shape q = shape v -> dtype q = dtype v -> set_value q v = ret v.
Proof.
  intros Hs Hd. unfold set_value.
  rewrite bool_decide_eq_true_2 by exact Hs. rewrite Hd.
  destruct (dtype v); reflexivity.
Qed.

End LoadStateDict.

Section LoadTheorems.
Context {K : Type} {SK : Scalar K}.
Local Open Scope K_scope.

Add Ring K_Ring_load : (K_ring (K:=K)).

Local Abbreviation Tensor := (@paddle.Tensor K).

(** C7.  When [LoreftIntervention.load_state_dict] returns, the learned
    source's weight and bias are the checkpoint's tensors cast to
    [data_type], and the first [w] columns of the rotate layer's weight hold
    the entries of the checkpoint's rotate-layer weight cast to [data_type],
    [w] being that tensor's last dimension; when
    [TinyIntervention.load_state_dict] returns, the four parameters are the
    checkpoint's tensors.  Both return on a checkpoint that has the keys and
    tensors of fitting shape. *)
Theorem load_state_dict_restores_parameters
    (lo : LoreftIntervention (K:=K)) (ti : TinyIntervention (K:=K))
    (sdL sdT : gmap string Tensor) (n m : nat) :
  is_matrix n m (weight (rotate_layer lo)) ->
  (forall Rw, sdL !! "rotate_layer.weight" = Some Rw -> wf Rw) ->
  (forall lo', LoreftIntervention_load_state_dict sdL lo = (lo', ret tt) ->
     exists W b Rw,
       sdL !! "learned_source.weight" = Some W /\
       sdL !! "learned_source.bias" = Some b /\
       sdL !! "rotate_layer.weight" = Some Rw /\
       lin_weight (learned_source lo') = astype (data_type lo) W /\
       lin_bias (learned_source lo') = astype (data_type lo) b /\
       (width Rw <= m)%nat /\
       forall i j, (i < n)%nat -> (j < width Rw)%nat ->
         entry (weight (rotate_layer lo')) i j =
         entry (astype (data_type lo) Rw) (source_row n Rw i) j)
  /\
  (forall ti', TinyIntervention_load_state_dict sdT ti = (ti', ret tt) ->
     exists vA vB va vb,
       sdT !! "param_A" = Some vA /\ sdT !! "param_B" = Some vB /\
       sdT !! "param_a" = Some va /\ sdT !! "param_b" = Some vb /\
       param_A ti' = vA /\ param_B ti' = vB /\
       param_a ti' = va /\ param_b ti' = vb)
  /\
  (forall W b Rw w,
     sdL !! "learned_source.weight" = Some W ->
     sdL !! "learned_source.bias" = Some b ->
     sdL !! "rotate_layer.weight" = Some Rw ->
     is_matrix n w Rw -> (w <= m)%nat ->
     exists lo', LoreftIntervention_load_state_dict sdL lo = (lo', ret tt))
  /\
  (forall vA vB va vb,
     sdT !! "param_A" = Some vA -> sdT !! "param_B" = Some vB ->
     sdT !! "param_a" = Some va -> sdT !! "param_b" = Some vb ->
     shape (param_A ti) = shape vA -> dtype (param_A ti) = dtype vA ->
     shape (param_B ti) = shape vB -> dtype (param_B ti) = dtype vB ->
     shape (param_a ti) = shape va -> dtype (param_a ti) = dtype va ->
     shape (param_b ti) = shape vb -> dtype (param_b ti) = dtype vb ->
     exists ti', TinyIntervention_load_state_dict sdT ti = (ti', ret tt)).
Proof.
  intros HR Hwf. split; [|split; [|split]].
  - intros lo'. rewrite LoreftIntervention_load_state_dict_cases.
    destruct (sdL !! "learned_source.weight") as [W|]; [|discriminate].
    destruct (sdL !! "learned_source.bias") as [b|]; [|discriminate].
    destruct (sdL !! "rotate_layer.weight") as [Rw|] eqn:ERw; [|discriminate].
    simpl.
    destruct (setitem_cols _ _ _) as [e|new_w] eqn:Eset; [discriminate|].
    intros [= <-]. exists W, b, Rw.
    repeat (split; [reflexivity|]).
    destruct (setitem_cols_spec (weight (rotate_layer lo))
                (astype (data_type lo) Rw) new_w n m HR
                (wf_astype _ _ (Hwf Rw eq_refl)) Eset)
      as (_ & _ & _ & _ & Hle & Hent).
    split; [exact Hle|].
    intros i j Hi Hj. simpl. rewrite (Hent i j Hi). simpl.
    destruct (Nat.ltb_spec j (width Rw)); [reflexivity | lia].
  - intros ti' Hload.
    destruct (TinyIntervention_load_state_dict_returns sdT ti ti' Hload)
      as (vA & vB & va & vb & H1 & H2 & H3 & H4 & _ & _ & _ & _ & ->).
    exists vA, vB, va, vb. repeat (split; [assumption|]).
    repeat split; reflexivity.
  - intros W b Rw w HW Hb HRw HRwm Hw.
    rewrite LoreftIntervention_load_state_dict_cases, HW, Hb, HRw. simpl.
    destruct (setitem_cols_ok (weight (rotate_layer lo))
                (astype (data_type lo) Rw) n m w HR HRwm Hw) as (w' & Hw').
    simpl in Hw'. rewrite Hw'. eauto.
  - intros vA vB va vb H1 H2 H3 H4 HsA HdA HsB HdB Hsa Hda Hsb Hdb.
    unfold TinyIntervention_load_state_dict, mbind_st, mget, mlift, mmodify, getitem.
    rewrite H1. simpl. rewrite (set_value_ok _ _ HsA HdA). simpl.
    rewrite H2. simpl. rewrite (set_value_ok _ _ HsB HdB). simpl.
    rewrite H3. simpl. rewrite (set_value_ok _ _ Hsa Hda). simpl.
    rewrite H4. simpl. rewrite (set_value_ok _ _ Hsb Hdb). simpl.
    eauto.
Qed.

(** C10.  [LoreftIntervention.load_state_dict] leaves every column of the
    rotate layer's weight with index [j >= w] as it was, [w] being the last
    dimension of the checkpoint's rotate-layer weight; the weight keeps its
    dtype and shape. *)
Theorem load_state_dict_keeps_remaining_columns
    (lo : LoreftIntervention (K:=K)) (sd : gmap string Tensor) (Rw : Tensor) (n m : nat) :
  is_matrix n m (weight (rotate_layer lo)) ->
  sd !! "rotate_layer.weight" = Some Rw -> wf Rw ->
  let lo' := fst (LoreftIntervention_load_state_dict sd lo) in
  (forall i j, (width Rw <= j)%nat ->
     entry (weight (rotate_layer lo')) i j = entry (weight (rotate_layer lo)) i j) /\
  dtype (weight (rotate_layer lo')) = dtype (weight (rotate_layer lo)) /\
  shape (weight (rotate_layer lo')) = shape (weight (rotate_layer lo)).
Proof.
  intros HR HRw Hwf. simpl.
  rewrite LoreftIntervention_load_state_dict_cases, HRw.
  destruct (sd !! "learned_source.weight") as [W|]; [|repeat split; reflexivity].
  destruct (sd !! "learned_source.bias") as [b|]; [|repeat split; reflexivity].
  simpl.
  destruct (setitem_cols _ _ _) as [e|new_w] eqn:Eset; [repeat split; reflexivity|].
  simpl.
  destruct (setitem_cols_spec (weight (rotate_layer lo))
              (astype (data_type lo) Rw) new_w n m HR (wf_astype _ _ Hwf) Eset)
    as (Hd & Hl & Hw & Hlen & _ & Hent).
  split; [|split; [exact Hd | apply shape_eq; assumption]].
  intros i j Hj. destruct (Nat.lt_ge_cases i n) as [Hi|Hi].
  - rewrite (Hent i j Hi). simpl.
    destruct (Nat.ltb_spec j (width Rw)); [lia | reflexivity].
  - pose proof (is_matrix_length _ _ _ HR) as HRlen.
    unfold entry. rewrite !(nth_overflow _ []) by lia. reflexivity.
Qed.

(** C9.  Right after construction [param_B] is all zeros, and
    [TinyIntervention.forward] returns its input. *)
Theorem TinyIntervention_forward_identity_after_init
    (KaimingUniform : nat -> nat -> K) (kwargs : Kwargs)
    (self : TinyIntervention (K:=K)) (mask1 mask2 : nat -> nat -> K) (base : Tensor) :
  TinyIntervention_init KaimingUniform kwargs = ret self ->
  wf base -> width base = hidden_size self ->
  (forall i j, entry (param_B self) i j = k0) /\
  TinyIntervention_forward self mask1 mask2 base = ret base.
Proof.
  intros Hinit Hwf Hbase.
  apply TinyIntervention_init_inv in Hinit as (h & r & _ & _ & _ & _ & ->).
  simpl in *.
  assert (HB : forall i j,
            entry (tensor2 default_dtype r h (Constant k0)) i j = k0).
  { intros i j. unfold entry, tensor2. simpl.
    destruct (Nat.lt_ge_cases i r) as [Hi|Hi].
    - rewrite nth_map_seq by exact Hi.
      destruct (Nat.lt_ge_cases j h) as [Hj|Hj].
      + exact (nth_map_seq (Constant k0 i) h j k0 Hj).
      + apply nth_overflow. rewrite length_map, length_seq. exact Hj.
    - rewrite (nth_overflow _ []) by (rewrite length_map, length_seq; exact Hi).
      destruct j; reflexivity. }
  split; [exact HB|].
  rewrite (TinyIntervention_forward_TinyEdit _ mask1 mask2 base h r);
    try assumption; try reflexivity.
  - unfold ret. f_equal. apply tensor_ext; try reflexivity.
    + apply wf_TinyEdit. exact Hwf.
    + exact Hwf.
    + simpl. rewrite length_map, length_seq. intros i j Hi Hj.
      unfold TinyEdit. rewrite entry_tabulate by assumption.
      unfold Tiny_entry. simpl.
      rewrite (bigsum_ext r _ (fun _ => k0)).
      * rewrite bigsum_zero. ring.
      * intros k Hk. rewrite HB. ring.
  - repeat split;
      try apply is_matrix_tensor2; apply is_vector_tensor1.
Qed.

End LoadTheorems.

(** ** What the constructors establish *)

Section Constructed.
Context {K : Type} {SK : Scalar K}.

(** A constructed [LoreftIntervention] has parameters of the shapes
    [embed_dim, low_rank_dimension] and an activation that acts entry by
    entry. *)
Lemma LoreftIntervention_init_shaped
    (Orthogonal_R Orthogonal_W : nat -> nat -> K) (kwargs : Kwargs)
    (self : LoreftIntervention (K:=K)) (n r : nat) :
  LoreftIntervention_init Orthogonal_R Orthogonal_W kwargs = ret self ->
  kw_embed_dim kwargs = Some n -> kw_low_rank_dimension kwargs = Some r ->
  Loreft_shaped n r self /\
  (act_fn self = linear_act \/ act_fn self = ReLU) /\
  exists f, forall t, act_fn self t = tensor_map f t.
Proof.
  intros Hinit Hn Hr.
  apply LoreftIntervention_init_inv in Hinit
    as (n' & r' & d & g & Hn' & Hr' & _ & _ & _ & Hg & ->).
  rewrite Hn in Hn'. rewrite Hr in Hr'. injection Hn' as <-. injection Hr' as <-.
  split; [|split].
  - split; [|split]; simpl.
    + apply is_matrix_tensor2.
    + apply (is_matrix_tensor2 default_dtype n r Orthogonal_W).
    + apply (is_vector_tensor1 default_dtype r (fun _ => k0)).
  - exact Hg.
  - simpl. destruct Hg as [-> | ->].
    + exists (fun v => v). apply linear_act_elementwise.
    + eexists. intros t. reflexivity.
Qed.

(** A constructed [TinyIntervention] has parameters of the shapes given by
    [embed_dim] and [low_rank_dimension], and its dropout is the identity. *)
Lemma TinyIntervention_init_shaped
    (KaimingUniform : nat -> nat -> K) (kwargs : Kwargs)
    (self : TinyIntervention (K:=K)) :
  TinyIntervention_init KaimingUniform kwargs = ret self ->
  Tiny_shaped (hidden_size self) (rank self) self /\ tiny_dropout self = None.
Proof.
  intros Hinit.
  apply TinyIntervention_init_inv in Hinit as (h & r & _ & _ & _ & _ & ->).
  simpl. split; [|reflexivity].
  repeat split;
    try apply is_matrix_tensor2; apply is_vector_tensor1.
Qed.

End Constructed.

(** ** The theorems at concrete instances *)

Section Witnesses.
Import Examples.

Ltac shaped := repeat first [reflexivity | split | constructor].

Example LoreftIntervention_init_example :
  LoreftIntervention_init draw_R draw_W kwargs = ret loreft.
Proof. reflexivity. Qed.

Example TinyIntervention_init_example :
  TinyIntervention_init draw_W kwargs = ret fresh_tiny.
Proof. reflexivity. Qed.

Example LoreftIntervention_init_default_dtype_example :
  LoreftIntervention_init draw_R draw_W kwargs32 = ret loreft32.
Proof. reflexivity. Qed.

Example LoreftIntervention_forward_example :
  LoreftIntervention_forward loreft32 mask base32 =
  ret {| dtype := float32; lead := [2%nat]; width := 3;
         rows := [[-91; -134; -177]; [-49; -75; -95]]%Z |}.
Proof. reflexivity. Qed.

(** The learned source refuses a base of another dtype than its own. *)
Example Linear_forward_dtype_mismatch_example :
  Linear_forward (learned_source loreft32) base = raise ValueError.
Proof. reflexivity. Qed.

(** [create_parameter] refuses an empty rotate layer. *)
Example LoreftIntervention_init_zero_dim_example :
  LoreftIntervention_init draw_R draw_W
    {| kw_embed_dim := Some 3%nat; kw_low_rank_dimension := Some 0%nat;
       kw_dtype := Some float32; kw_dropout := None; kw_act_fn := None |}
  = raise AssertionError.
Proof. reflexivity. Qed.

Example LoreftIntervention_init_missing_dtype :
  LoreftIntervention_init draw_R draw_W
    {| kw_embed_dim := Some 3%nat; kw_low_rank_dimension := Some 2%nat;
       kw_dtype := None; kw_dropout := None; kw_act_fn := Some (Some "gelu") |}
  = raise (KeyError "dtype").
Proof. reflexivity. Qed.

Example LoreftIntervention_init_unknown_act_fn :
  LoreftIntervention_init draw_R draw_W
    {| kw_embed_dim := Some 3%nat; kw_low_rank_dimension := Some 2%nat;
       kw_dtype := Some float32; kw_dropout := None;
       kw_act_fn := Some (Some "gelu") |}
  = raise (KeyError "gelu").
Proof. reflexivity. Qed.

Example TinyIntervention_forward_example :
  TinyIntervention_forward tiny mask mask base =
  ret {| dtype := float16; lead := [2%nat]; width := 3;
         rows := [[1; -22; -21]; [54; 59; 46]]%Z |}.
Proof. reflexivity. Qed.

(** Loading a checkpoint of rank one overwrites the first column of the
    rotate layer's weight and keeps the second. *)
Example load_narrow_checkpoint_example :
  rows (weight (rotate_layer
          (fst (LoreftIntervention_load_state_dict loreft_checkpoint loreft))))
  = [[10; 3]; [20; 4]; [30; 5]]%Z /\
  rows (weight (rotate_layer loreft)) = [[1; 3]; [2; 4]; [3; 5]]%Z /\
  snd (LoreftIntervention_load_state_dict loreft_checkpoint loreft) = ret tt.
Proof. repeat split; reflexivity. Qed.

(** A checkpoint wider than the layer is refused, after the learned source
    has been replaced. *)
Example load_wide_checkpoint_example :
  let wide := <[ "rotate_layer.weight" := tensor2 float32 3 4 draw_W ]>
                loreft_checkpoint in
  snd (LoreftIntervention_load_state_dict wide loreft) = raise ValueError /\
  lin_weight (learned_source (fst (LoreftIntervention_load_state_dict wide loreft)))
  = tensor2 bfloat16 3 2 draw_R /\
  weight (rotate_layer (fst (LoreftIntervention_load_state_dict wide loreft)))
  = weight (rotate_layer loreft).
Proof. repeat split; reflexivity. Qed.

Lemma LoreftIntervention_forward_formula_witness :
  LoreftIntervention_forward loreft32 mask base32 =
  ret (LoReFT (fun v => v) loreft32 base32).
Proof.
  apply (LoreftIntervention_forward_formula loreft32 mask base32 3 2); shaped.
Defined.

Lemma LoreftIntervention_forward_formula_counterexample :
  Loreft_shaped 3 2 loreft32 /\ wf base /\ shape base = [2; 3]%nat /\
  dtype base = float16 /\
  dtype (lin_weight (learned_source loreft32)) = float32 /\
  LoreftIntervention_forward loreft32 mask base = raise ValueError /\
  LoreftIntervention_forward loreft32 mask base <>
  Dropout_forward (dropout loreft32) mask
    (astype (dtype base) (LoReFT (fun v => v) loreft32 base)).
Proof.
  repeat (split; [solve [shaped]|]). discriminate.
Qed.

Lemma TinyIntervention_forward_formula_witness :
  TinyIntervention_forward tiny mask mask base =
  ret (astype (dtype base) (TinyEdit tiny base)).
Proof.
  apply (TinyIntervention_forward_formula tiny mask mask base 3 2); shaped.
Defined.



Lemma LoreftIntervention_edit_low_rank_witness :
  exists v e s out D : Tensor (K:=Z),
    width v = 2%nat /\ lead v = lead base32 /\ wf v /\
    matmul v (T (weight (rotate_layer loreft32))) = ret e /\
    add base32 e = ret s /\
    LoreftIntervention_forward loreft32 mask base32 = ret out /\
    out = astype (dtype base32) s /\
    subtract out base32 = ret D /\
    (forall i, (i < length (rows D))%nat ->
       in_column_span (weight (rotate_layer loreft32)) (nth i (rows D) [])) /\
    rank_le 2 D.
Proof.
  apply (LoreftIntervention_edit_low_rank loreft32 mask base32 (fun v => v) 3 2);
    first [exact linear_act_elementwise | solve [shaped]].
Defined.

Lemma LoreftIntervention_edit_low_rank_counterexample :
  Loreft_shaped 3 2 loreft32 /\ wf (astype float16 other) /\
  shape (astype float16 other) = [2; 3]%nat /\
  Qeq_bool (p (dropout loreft32)) 0 = true /\
  dtype (lin_weight (learned_source loreft32)) = float32 /\
  LoreftIntervention_forward loreft32 mask (astype float16 other)
  = raise ValueError /\
  ~ (exists v e out : Tensor (K:=Z),
       matmul v (T (weight (rotate_layer loreft32))) = ret e /\
       LoreftIntervention_forward loreft32 mask (astype float16 other) = ret out).
Proof.
  repeat (split; [solve [shaped]|]).
  intros (v & e & out & _ & Hout). discriminate.
Qed.

Lemma LowRankRotateLayer_forward_linear_witness :
  exists fx fy s fs : Tensor (K:=Z),
    LowRankRotateLayer_forward (rotate_layer loreft) base32 = ret fx /\
    LowRankRotateLayer_forward (rotate_layer loreft) other = ret fy /\
    add base32 other = ret s /\
    LowRankRotateLayer_forward (rotate_layer loreft) s = ret fs /\
    add fx fy = ret fs /\
    LowRankRotateLayer_forward (rotate_layer loreft) (scale base32 7%Z) =
    ret (scale fx 7%Z).
Proof.
  apply (LowRankRotateLayer_forward_linear draw_R (rotate_layer loreft)
           base32 other 7%Z 3 2); shaped.
Defined.

(** The footprint predicates tell methods apart: a method that read an
    attribute of another object, or assigned to one, would not pass. *)
Example reads_only_refuses_foreign_read :
  ~ reads_only (K:=Z) 0 (getattr 1 "param_A").
Proof.
  intros H.
  specialize (H ∅ {[ (1%nat, "param_A") := AInt 0 ]}).
  assert (Hsame : same_attributes (K:=Z) 0 ∅ {[ (1%nat, "param_A") := AInt 0 ]}).
  { intros name. rewrite lookup_empty, lookup_singleton_ne by (intros [=]).
    reflexivity. }
  specialize (H Hsame). discriminate.
Qed.

Example writes_nothing_refuses_assignment :
  ~ writes_nothing (K:=Z) (mmodify (insert (0%nat, "scaling") (ANumber 2%Z))).
Proof.
  intros H. specialize (H ∅). unfold mmodify in H. simpl in H.
  apply (f_equal (fun s => s !! (0%nat, "scaling"))) in H.
  rewrite lookup_insert_eq, lookup_empty in H. discriminate.
Qed.


Lemma load_state_dict_restores_parameters_witness :
  (exists lo', LoreftIntervention_load_state_dict loreft_checkpoint loreft
               = (lo', ret tt)) /\
  (exists ti', TinyIntervention_load_state_dict tiny_checkpoint fresh_tiny
               = (ti', ret tt)).
Proof.
  assert (HR : is_matrix 3 2 (weight (rotate_layer loreft))) by shaped.
  assert (Hwf : forall Rw, loreft_checkpoint !! "rotate_layer.weight" = Some Rw ->
                           wf Rw).
  { intros Rw [= <-]. shaped. }
  destruct (load_state_dict_restores_parameters loreft fresh_tiny
              loreft_checkpoint tiny_checkpoint 3 2 HR Hwf)
    as (_ & _ & HL & HT).
  split.
  - apply (HL (tensor2 float32 3 2 draw_R)
              (tensor1 float32 2 (fun k => Z.of_nat k))
              narrow_weight 1%nat); shaped.
  - apply (HT (param_A tiny) (param_B tiny) (param_a tiny) (param_b tiny));
      reflexivity.
Defined.

Lemma load_state_dict_keeps_remaining_columns_witness :
  entry (weight (rotate_layer
           (fst (LoreftIntervention_load_state_dict loreft_checkpoint loreft)))) 2 1
  = entry (weight (rotate_layer loreft)) 2 1.
Proof.
  apply (load_state_dict_keeps_remaining_columns loreft loreft_checkpoint
           narrow_weight 3 2); shaped.
Defined.

Lemma TinyIntervention_forward_identity_after_init_witness :
  TinyIntervention_forward fresh_tiny mask mask base = ret base.
Proof.
  apply (TinyIntervention_forward_identity_after_init draw_W kwargs fresh_tiny
           mask mask base); shaped.
Defined.

End Witnesses.

(** * Further properties *)

(** ** What the LoReFT edit does to the rotated coordinates *)

Section LoreftGeometry.
Context {K : Type} {SK : Scalar K}.
Local Open Scope K_scope.

Add Ring K_Ring_geom : (K_ring (K:=K)).

Local Abbreviation Tensor := (@paddle.Tensor K).

Lemma bigsum_swap (n m : nat) (g : nat -> nat -> K) :
  bigsum n (fun j => bigsum m (fun k => g j k)) =
  bigsum m (fun k => bigsum n (fun j => g j k)).
Proof.
  revert g. induction n as [|n IH]; intros g.
  - unfold bigsum at 1. simpl. symmetry. apply bigsum_zero.
  - rewrite bigsum_S_l.
    rewrite (bigsum_ext m (fun k => bigsum (S n) (fun j => g j k))
               (fun k => g 0%nat k + bigsum n (fun j => g (S j) k)))
      by (intros k _; apply bigsum_S_l).
    rewrite bigsum_add. f_equal. apply (IH (fun j k => g (S j) k)).
Qed.

(** Pairing [x + d.R^T] with a vector [c] pairs [x] with [c] and [d] with
    [R^T.c]. *)
Lemma pair_with_edit (n r : nat) (x c d : nat -> K) (R : nat -> nat -> K) :
  bigsum n (fun j => (x j + bigsum r (fun k => d k * R j k)) * c j) =
  bigsum n (fun j => x j * c j) +
  bigsum r (fun k => d k * bigsum n (fun j => R j k * c j)).
Proof.
  rewrite (bigsum_ext n _
             (fun j => x j * c j + bigsum r (fun k => d k * (R j k * c j)))).
  - rewrite bigsum_add. f_equal. rewrite bigsum_swap.
    apply bigsum_ext. intros k _. apply bigsum_mul_l.
  - intros j _.
    rewrite (bigsum_ext r (fun k => d k * (R j k * c j))
               (fun k => d k * R j k * c j)) by (intros; ring).
    rewrite (bigsum_mul_r r (c j) (fun k => d k * R j k)). ring.
Qed.

(** Two lists of rows of one shape with the same entries are equal. *)
Lemma rows_ext (n w : nat) (L1 L2 : list (list K)) :
  length L1 = n -> length L2 = n ->
  Forall (fun u => length u = w) L1 -> Forall (fun u => length u = w) L2 ->
  (forall i j, (i < n)%nat -> (j < w)%nat ->
     nth j (nth i L1 []) k0 = nth j (nth i L2 []) k0) ->
  L1 = L2.
Proof.
  intros H1 H2 F1 F2 Hent.
  rewrite (list_tabulate L1 []), (list_tabulate L2 []), H1, H2.
  apply map_seq_ext. intros i Hi.
  assert (Hl1 : length (nth i L1 []) = w).
  { rewrite Forall_forall in F1. apply F1, list_elem_of_In, nth_In. lia. }
  assert (Hl2 : length (nth i L2 []) = w).
  { rewrite Forall_forall in F2. apply F2, list_elem_of_In, nth_In. lia. }
  rewrite (list_tabulate (nth i L1 []) k0), (list_tabulate (nth i L2 []) k0).
  rewrite Hl1, Hl2. apply map_seq_ext. intros j Hj. apply Hent; assumption.
Qed.

(** With dropout probability 0, [forward] returns the tensor [LoReFT]. *)
Lemma LoreftIntervention_forward_no_dropout
    (self : LoreftIntervention (K:=K)) (mask : nat -> nat -> K)
    (base : Tensor) (f : K -> K) (n r : nat) :
  Loreft_shaped n r self -> Loreft_typed (dtype base) self ->
  (forall t, act_fn self t = tensor_map f t) ->
  Qeq_bool (p (dropout self)) 0 = true ->
  wf base -> width base = n ->
  LoreftIntervention_forward self mask base = ret (LoReFT f self base).
Proof.
  intros Hself Htyped Hact Hp Hwf Hbase.
  rewrite (LoreftIntervention_forward_LoReFT self mask base f n r) by assumption.
  unfold Dropout_forward. rewrite Hp. reflexivity.
Qed.

Lemma entry_LoReFT (f : K -> K) (self : LoreftIntervention (K:=K))
    (base : Tensor) (i j : nat) :
  (i < length (rows base))%nat -> (j < width base)%nat ->
  nth j (nth i (rows (LoReFT f self base)) []) k0 =
  LoReFT_entry f (weight (rotate_layer self)) (lin_weight (learned_source self))
    (lin_bias (learned_source self)) base i j.
Proof.
  intros Hi Hj. exact (entry_tabulate _ _ _ _ _ i j Hi Hj).
Qed.

(** Entry [(i, k)] of [rotate_layer(LoReFT)] over orthonormal columns. *)
Lemma rotated_LoReFT_entry (f : K -> K) (R W b base : Tensor) (n r i k' : nat) :
  length (rows R) = n -> width R = r -> width base = n -> (k' < r)%nat ->
  orthonormal_columns R ->
  bigsum n (fun j => LoReFT_entry f R W b base i j * entry R j k') =
  f (learned_source_entry W b base i k').
Proof.
  intros HRn HRw Hbase Hk Horth. unfold LoReFT_entry. rewrite HRw.
  rewrite (pair_with_edit n r (entry base i) (fun j => entry R j k')
             (fun k => f (learned_source_entry W b base i k) - rotated_entry R base i k)
             (fun j k => entry R j k)).
  rewrite (bigsum_ext r _
             (fun k => if Nat.eqb k k'
                       then f (learned_source_entry W b base i k)
                            - rotated_entry R base i k
                       else k0)).
  - rewrite (bigsum_delta r k'
               (fun k => f (learned_source_entry W b base i k)
                         - rotated_entry R base i k) Hk).
    unfold rotated_entry. rewrite Hbase. ring.
  - intros k Hk0. rewrite <- HRn, (Horth k k') by lia.
    destruct (Nat.eqb k k'); ring.
Qed.

(** X1.  When the columns of the rotate layer's weight are orthonormal and
    dropout is off, on a base of the learned source's dtype, rotating the
    output of [forward] gives exactly the activated learned source:
    [rotate_layer(forward(base))] has the entries of
    [act_fn(learned_source(base))]. *)
Theorem LoreftIntervention_rotated_output_is_learned_source
    (self : LoreftIntervention (K:=K)) (mask : nat -> nat -> K)
    (base : Tensor) (f : K -> K) (n r : nat) :
  Loreft_shaped n r self -> Loreft_typed (dtype base) self ->
  (forall t, act_fn self t = tensor_map f t) ->
  Qeq_bool (p (dropout self)) 0 = true ->
  wf base -> width base = n ->
  orthonormal_columns (weight (rotate_layer self)) ->
  exists out rot src : Tensor,
    LoreftIntervention_forward self mask base = ret out /\
    LowRankRotateLayer_forward (rotate_layer self) out = ret rot /\
    Linear_forward (learned_source self) base = ret src /\
    same_values rot (act_fn self src).
Proof.
  intros Hself Htyped Hact Hp Hwf Hbase Horth.
  pose proof Hself as (HR & HW & Hb).
  pose proof Htyped as (HdW & _ & _).
  destruct (Linear_forward_ok _ base n r HW Hb Hbase (eq_sym HdW))
    as (b & Hrb & Hlb & Hlin).
  pose proof (is_matrix_length _ _ _ HR) as HRlen.
  pose proof (is_matrix_length _ _ _ HW) as HWlen.
  destruct HR as (HRl & HRw & _).
  eexists. eexists. eexists.
  split; [apply (LoreftIntervention_forward_no_dropout self mask base f n r);
          assumption|].
  split.
  { unfold LowRankRotateLayer_forward.
    apply (matmul_ok _ _ n); [reflexivity | exact HRl | exact Hbase]. }
  split; [exact Hlin|].
  rewrite Hact. split; [reflexivity|]. split; [simpl; exact HRw|]. simpl.
  rewrite HRw.
  apply (rows_ext (length (rows base)) r).
  - rewrite !length_map. apply length_seq.
  - rewrite !length_map. reflexivity.
  - apply Forall_map_length. intros u. apply length_vec_mat.
  - rewrite map_map. apply Forall_map_length. intros u.
    rewrite length_map, length_zip_with, length_vec_mat. lia.
  - intros i k' Hi Hk.
    pose proof (wf_row base i Hwf Hi) as Hrow. rewrite Hbase in Hrow.
    rewrite (nth_map' _ _ i [] [])
      by (rewrite length_map, length_seq; exact Hi).
    rewrite nth_vec_mat;
      [| exact Hk
       | rewrite (nth_map_seq _ _ i [] Hi), length_map, length_seq; lia].
    rewrite (bigsum_ext (length (rows (weight (rotate_layer self)))) _
               (fun j => LoReFT_entry f (weight (rotate_layer self))
                           (lin_weight (learned_source self))
                           (lin_bias (learned_source self)) base i j
                         * entry (weight (rotate_layer self)) j k')).
    + rewrite HRlen.
      rewrite (rotated_LoReFT_entry f _ _ _ base n r i k') by assumption.
      rewrite map_map.
      rewrite (nth_map' _ _ i [] []) by exact Hi.
      rewrite (nth_map' f _ k' k0 k0)
        by (rewrite length_zip_with, length_vec_mat; lia).
      rewrite (nth_zip_with kadd _ _ k' k0 k0 k0);
        [| rewrite length_vec_mat; lia | lia].
      rewrite nth_vec_mat by (try exact Hk; congruence).
      unfold learned_source_entry, entry. rewrite Hrb, HWlen, Hbase. reflexivity.
    + intros j Hj. rewrite HRlen in Hj. f_equal.
      apply (entry_LoReFT f self base i j); [exact Hi | rewrite Hbase; exact Hj].
Qed.

(** X2.  With dropout off, on a base of the learned source's dtype,
    [forward] changes nothing in the directions orthogonal to the columns of
    the rotate layer's weight: the dot product of every output row with such
    a vector [u] is that of the input row. *)
Theorem LoreftIntervention_preserves_orthogonal_complement
    (self : LoreftIntervention (K:=K)) (mask : nat -> nat -> K)
    (base : Tensor) (f : K -> K) (n r : nat) (u : list K) (i : nat) :
  Loreft_shaped n r self -> Loreft_typed (dtype base) self ->
  (forall t, act_fn self t = tensor_map f t) ->
  Qeq_bool (p (dropout self)) 0 = true ->
  wf base -> width base = n ->
  orthogonal_to_columns (weight (rotate_layer self)) u ->
  (i < length (rows base))%nat ->
  exists out : Tensor,
    LoreftIntervention_forward self mask base = ret out /\
    dot (nth i (rows out) []) u = dot (nth i (rows base) []) u.
Proof.
  intros Hself Htyped Hact Hp Hwf Hbase [Hu Horth] Hi.
  pose proof Hself as (HR & _ & _).
  pose proof (is_matrix_length _ _ _ HR) as HRlen.
  destruct HR as (_ & HRw & _).
  exists (LoReFT f self base).
  split; [apply (LoreftIntervention_forward_no_dropout self mask base f n r);
          assumption|].
  pose proof (wf_row base i Hwf Hi) as Hrow. rewrite Hbase in Hrow.
  rewrite (dot_bigsum n), (dot_bigsum n); try congruence.
  - rewrite (bigsum_ext n _
               (fun j => LoReFT_entry f (weight (rotate_layer self))
                           (lin_weight (learned_source self))
                           (lin_bias (learned_source self)) base i j
                         * nth j u k0)).
    + unfold LoReFT_entry. rewrite HRw.
      rewrite (pair_with_edit n r (entry base i) (fun j => nth j u k0) _
                 (fun j k => entry (weight (rotate_layer self)) j k)).
      rewrite (bigsum_ext r _ (fun _ => k0)).
      * rewrite bigsum_zero. unfold entry. ring.
      * intros k Hk. rewrite <- HRlen, (Horth k) by lia. ring.
    + intros j Hj. f_equal.
      apply (entry_LoReFT f self base i j); [exact Hi | rewrite Hbase; exact Hj].
  - unfold LoReFT, tabulate. simpl.
    rewrite (nth_map_seq _ _ i [] Hi), length_map, length_seq. exact Hbase.
Qed.

(** X3.  An intervention whose learned source has the rows of the rotate
    layer's weight and a zero bias, with the linear activation and dropout
    off, returns a base of the learned source's dtype unchanged. *)
Theorem LoreftIntervention_identity_when_source_is_rotation
    (self : LoreftIntervention (K:=K)) (mask : nat -> nat -> K)
    (base : Tensor) (n r : nat) :
  Loreft_shaped n r self -> Loreft_typed (dtype base) self ->
  act_fn self = linear_act ->
  Qeq_bool (p (dropout self)) 0 = true ->
  wf base -> width base = n ->
  rows (lin_weight (learned_source self)) = rows (weight (rotate_layer self)) ->
  (forall k, entry (lin_bias (learned_source self)) 0 k = k0) ->
  LoreftIntervention_forward self mask base = ret base.
Proof.
  intros Hself Htyped Hlin Hp Hwf Hbase HWR Hb0.
  rewrite (LoreftIntervention_forward_no_dropout self mask base (fun v => v) n r);
    try assumption.
  - unfold ret. f_equal. apply tensor_ext; try reflexivity.
    + apply wf_LoReFT. exact Hwf.
    + exact Hwf.
    + simpl. rewrite length_map, length_seq. intros i j Hi Hj.
      unfold LoReFT. rewrite entry_tabulate by assumption.
      unfold LoReFT_entry.
      rewrite (bigsum_ext _ _ (fun _ => k0)).
      * rewrite bigsum_zero. ring.
      * intros k _. unfold learned_source_entry, rotated_entry.
        rewrite Hb0. unfold entry. rewrite HWR. ring.
  - intros t. rewrite Hlin. apply linear_act_elementwise.
Qed.

End LoreftGeometry.

(** ** When the forward passes return *)

Section ForwardDomain.
Context {K : Type} {SK : Scalar K}.
Local Open Scope K_scope.

Local Abbreviation Tensor := (@paddle.Tensor K).

(** The learned source refuses a base of another dtype than its weight's. *)
Lemma LoreftIntervention_forward_dtype_mismatch
    (self : LoreftIntervention (K:=K)) (mask : nat -> nat -> K)
    (base : Tensor) (n r : nat) :
  Loreft_shaped n r self -> width base = n ->
  dtype base <> dtype (lin_weight (learned_source self)) ->
  LoreftIntervention_forward self mask base = raise ValueError.
Proof.
  intros ((HRl & _) & _ & _) Hw Hne.
  unfold LoreftIntervention_forward, LowRankRotateLayer_forward.
  rewrite (matmul_ok _ _ n) by (first [reflexivity | assumption]).
  cbn [bind]. unfold Linear_forward.
  rewrite (matmul_dtype_mismatch base) by exact Hne.
  reflexivity.
Qed.

(** The rotate layer refuses a base of another last dimension. *)
Lemma LoreftIntervention_forward_width_mismatch
    (self : LoreftIntervention (K:=K)) (mask : nat -> nat -> K)
    (base : Tensor) (n r : nat) :
  Loreft_shaped n r self -> width base <> n ->
  LoreftIntervention_forward self mask base = raise ValueError.
Proof.
  intros ((HRl & _) & _ & _) Hw.
  unfold LoreftIntervention_forward, LowRankRotateLayer_forward.
  rewrite (matmul_width_mismatch _ _ n) by assumption. reflexivity.
Qed.

(** X6.  For an intervention with the constructor's shapes whose learned
    source has dtype [d], a dtype that combines with the rotate weight's to
    the latter, [LoreftIntervention.forward] returns exactly on the bases
    whose last dimension is [embed_dim] and whose dtype is [d]; on any other
    base it raises [ValueError]. *)
Theorem LoreftIntervention_forward_returns_iff
    (self : LoreftIntervention (K:=K)) (mask : nat -> nat -> K)
    (base : Tensor) (f : K -> K) (n r : nat) (d : DType) :
  Loreft_shaped n r self -> Loreft_typed d self ->
  (forall t, act_fn self t = tensor_map f t) ->
  valid_p (dropout self) ->
  ((exists out, LoreftIntervention_forward self mask base = ret out) <->
   width base = n /\ dtype base = d) /\
  (width base <> n \/ dtype base <> d ->
   LoreftIntervention_forward self mask base = raise ValueError).
Proof.
  intros Hself Htyped Hact Hp.
  assert (Hbad : width base <> n \/ dtype base <> d ->
                 LoreftIntervention_forward self mask base = raise ValueError).
  { intros Hne. destruct Htyped as (HdW & _ & _).
    destruct (Nat.eq_dec (width base) n) as [Hw | Hw].
    - destruct Hne as [Hne | Hne]; [contradiction|].
      apply (LoreftIntervention_forward_dtype_mismatch self mask base n r);
        [assumption | assumption | congruence].
    - apply (LoreftIntervention_forward_width_mismatch self mask base n r);
        assumption. }
  split; [|exact Hbad]. split.
  - intros [out Hout].
    destruct (Nat.eq_dec (width base) n) as [E|Hne];
      [|rewrite (Hbad (or_introl Hne)) in Hout; discriminate].
    destruct (DType_eqb (dtype base) d) eqn:Ed.
    + apply DType_eqb_eq in Ed. split; assumption.
    + assert (Hne : dtype base <> d).
      { intros Heq. apply DType_eqb_eq in Heq. congruence. }
      rewrite (Hbad (or_intror Hne)) in Hout. discriminate.
  - intros [Hbase Hd]. rewrite <- Hd in Htyped.
    destruct (LoreftIntervention_forward_rows self mask base f n r
                Hself Htyped Hact Hbase)
      as (b & _ & _ & Hfw).
    rewrite Hfw.
    destruct (Dropout_forward_shape (dropout self) mask
                {| dtype := dtype base; lead := lead base; width := n;
                   rows := map (loreft_row f r (rows (weight (rotate_layer self)))
                                  (rows (lin_weight (learned_source self))) b)
                               (rows base) |} Hp)
      as (out & Hout & _).
    exists out. exact Hout.
Qed.

(** X7.  For an intervention with the constructor's shapes,
    [TinyIntervention.forward] returns exactly on the bases whose last
    dimension is [embed_dim]; on any other base it raises the framework's
    shape error. *)
Theorem TinyIntervention_forward_returns_iff
    (self : TinyIntervention (K:=K)) (mask1 mask2 : nat -> nat -> K)
    (base : Tensor) (h r : nat) :
  Tiny_shaped h r self -> tiny_dropout self = None ->
  ((exists out, TinyIntervention_forward self mask1 mask2 base = ret out) <->
   width base = h) /\
  (width base <> h ->
   TinyIntervention_forward self mask1 mask2 base = raise ValueError).
Proof.
  intros Hself Hdrop.
  assert (Hbad : width base <> h ->
                 TinyIntervention_forward self mask1 mask2 base = raise ValueError).
  { intros Hne. destruct Hself as (HA & _ & Ha & Hb).
    destruct (is_vector_rows _ _ Ha) as (a & Hra & _).
    destruct (is_vector_rows _ _ Hb) as (b & Hrb & _).
    destruct HA as (HAl & _).
    unfold TinyIntervention_forward, TinyIntervention_dropout.
    rewrite Hdrop, (diag_ok _ h b Hb Hrb), (diag_ok _ r a Ha Hra). simpl.
    unfold op_matmul. rewrite HAl.
    destruct (Nat.eqb_spec (width base) h) as [E|_]; [contradiction|].
    reflexivity. }
  split; [|exact Hbad]. split.
  - intros [out Hout]. destruct (Nat.eq_dec (width base) h) as [E|Hne]; [exact E|].
    rewrite (Hbad Hne) in Hout. discriminate.
  - intros Hbase.
    destruct (TinyIntervention_forward_rows self mask1 mask2 base h r
                Hself Hdrop Hbase) as (a & b & _ & _ & Hfw).
    rewrite Hfw. eauto.
Qed.

End ForwardDomain.

(** ** TinyIntervention.forward as a linear map of low rank *)

Section TinyAlgebra.
Context {K : Type} {SK : Scalar K}.
Local Open Scope K_scope.

Add Ring K_Ring_tinyalg : (K_ring (K:=K)).

Local Abbreviation Tensor := (@paddle.Tensor K).

Lemma Tiny_entry_additive (A a B b : Tensor) (s : K) (X Y S : Tensor) (i j : nat) :
  width S = width X -> width Y = width X ->
  (forall l, entry S i l = entry X i l + entry Y i l) ->
  Tiny_entry A a B b s S i j =
  Tiny_entry A a B b s X i j + Tiny_entry A a B b s Y i j.
Proof.
  intros HS HY Hent. unfold Tiny_entry. rewrite HS, HY, Hent.
  rewrite (bigsum_ext (width A)
             (fun k => bigsum (width X) (fun l => entry S i l * entry A l k)
                       * entry a 0 k * entry B k j)
             (fun k => bigsum (width X) (fun l => entry X i l * entry A l k)
                         * entry a 0 k * entry B k j
                       + bigsum (width X) (fun l => entry Y i l * entry A l k)
                         * entry a 0 k * entry B k j)).
  - rewrite bigsum_add. ring.
  - intros k _.
    rewrite (bigsum_ext (width X) (fun l => entry S i l * entry A l k)
               (fun l => entry X i l * entry A l k + entry Y i l * entry A l k))
      by (intros l _; rewrite Hent; ring).
    rewrite bigsum_add. ring.
Qed.

Lemma Tiny_entry_homogeneous (A a B b : Tensor) (s c : K) (X S : Tensor) (i j : nat) :
  width S = width X ->
  (forall l, entry S i l = entry X i l * c) ->
  Tiny_entry A a B b s S i j = Tiny_entry A a B b s X i j * c.
Proof.
  intros HS Hent. unfold Tiny_entry. rewrite HS, Hent.
  rewrite (bigsum_ext (width A)
             (fun k => bigsum (width X) (fun l => entry S i l * entry A l k)
                       * entry a 0 k * entry B k j)
             (fun k => bigsum (width X) (fun l => entry X i l * entry A l k)
                         * entry a 0 k * entry B k j * c)).
  - rewrite bigsum_mul_r. ring.
  - intros k _.
    rewrite (bigsum_ext (width X) (fun l => entry S i l * entry A l k)
               (fun l => entry X i l * entry A l k * c))
      by (intros l _; rewrite Hent; ring).
    rewrite bigsum_mul_r. ring.
Qed.

(** Entries of a sum of two tensors of one shape, also out of range. *)
Lemma entry_zip_rows (g : K -> K -> K) (xs ys : list (list K)) (w i l : nat) :
  g k0 k0 = k0 ->
  length xs = length ys ->
  Forall (fun u => length u = w) xs -> Forall (fun u => length u = w) ys ->
  nth l (nth i (zip_with (zip_with g) xs ys) []) k0 =
  g (nth l (nth i xs []) k0) (nth l (nth i ys []) k0).
Proof.
  intros Hg Hlen Fx Fy.
  destruct (Nat.lt_ge_cases i (length xs)) as [Hi|Hi].
  - rewrite (nth_zip_with _ _ _ i [] [] []) by lia.
    assert (Hx : length (nth i xs []) = w).
    { rewrite Forall_forall in Fx. apply Fx, list_elem_of_In, nth_In. lia. }
    assert (Hy : length (nth i ys []) = w).
    { rewrite Forall_forall in Fy. apply Fy, list_elem_of_In, nth_In. lia. }
    destruct (Nat.lt_ge_cases l w) as [Hl|Hl].
    + apply nth_zip_with; lia.
    + rewrite !nth_overflow; try lia; [symmetry; exact Hg|].
      rewrite length_zip_with. lia.
  - rewrite (nth_overflow (zip_with _ _ _)) by (rewrite length_zip_with; lia).
    rewrite (nth_overflow xs), (nth_overflow ys) by lia.
    destruct l; symmetry; exact Hg.
Qed.

Lemma entry_map_rows (g : K -> K) (xs : list (list K)) (i l : nat) :
  g k0 = k0 ->
  nth l (nth i (map (map g) xs) []) k0 = g (nth l (nth i xs []) k0).
Proof.
  intros Hg.
  destruct (Nat.lt_ge_cases i (length xs)) as [Hi|Hi].
  - rewrite (nth_map' _ _ i [] []) by exact Hi.
    destruct (Nat.lt_ge_cases l (length (nth i xs []))) as [Hl|Hl].
    + apply nth_map'. exact Hl.
    + rewrite !nth_overflow; try lia; [symmetry; exact Hg|].
      rewrite length_map. exact Hl.
  - rewrite (nth_overflow (map _ _)) by (rewrite length_map; lia).
    rewrite (nth_overflow xs) by lia. destruct l; symmetry; exact Hg.
Qed.

Lemma Forall_map_map_length (g : K -> K) (w : nat) (xs : list (list K)) :
  Forall (fun u => length u = w) xs ->
  Forall (fun u => length u = w) (map (map g) xs).
Proof.
  intros F. apply Forall_forall. intros u Hu.
  apply list_elem_of_In, in_map_iff in Hu. destruct Hu as (v & <- & Hv).
  rewrite length_map. rewrite Forall_forall in F. apply F, list_elem_of_In, Hv.
Qed.

Lemma Forall_tabulate_length (w n : nat) (g : nat -> nat -> K) :
  Forall (fun u => length u = w) (map (fun i => map (g i) (seq 0 w)) (seq 0 n)).
Proof.
  apply Forall_map_length. intros i. rewrite length_map. apply length_seq.
Qed.

(** X4.  With its identity dropout, [TinyIntervention.forward] is a linear
    map of the hidden state: [forward(x + y) = forward(x) + forward(y)] and
    [forward(x * c) = forward(x) * c]. *)
Theorem TinyIntervention_forward_linear
    (self : TinyIntervention (K:=K)) (mask1 mask2 : nat -> nat -> K)
    (x y : Tensor) (c : K) (h r : nat) :
  Tiny_shaped h r self -> tiny_dropout self = None ->
  wf x -> wf y -> lead x = lead y -> width x = h -> width y = h ->
  exists fx fy s fs : Tensor,
    TinyIntervention_forward self mask1 mask2 x = ret fx /\
    TinyIntervention_forward self mask1 mask2 y = ret fy /\
    add x y = ret s /\
    TinyIntervention_forward self mask1 mask2 s = ret fs /\
    add fx fy = ret fs /\
    TinyIntervention_forward self mask1 mask2 (scale x c) = ret (scale fx c).
Proof.
  intros Hself Hdrop Hx Hy Hlead Hxw Hyw.
  pose proof Hx as [Hxn Hxr]. pose proof Hy as [Hyn Hyr].
  assert (Hlen : length (rows x) = length (rows y)) by congruence.
  set (s := {| dtype := promote_types (dtype x) (dtype y); lead := lead x;
               width := width x;
               rows := zip_with (zip_with kadd) (rows x) (rows y) |}).
  assert (Hs : wf s).
  { split; simpl.
    - rewrite length_zip_with. lia.
    - apply Forall_zip_with_length; [exact Hxr | rewrite Hxw, <- Hyw; exact Hyr]. }
  assert (Hsc : wf (scale x c)).
  { split; simpl.
    - rewrite length_map. exact Hxn.
    - apply Forall_map_map_length. exact Hxr. }
  exists (TinyEdit self x), (TinyEdit self y), s, (TinyEdit self s).
  split; [apply (TinyIntervention_forward_TinyEdit self mask1 mask2 x h r);
          assumption|].
  split; [apply (TinyIntervention_forward_TinyEdit self mask1 mask2 y h r);
          assumption|].
  split; [unfold add; apply elementwise_ok; congruence|].
  split; [apply (TinyIntervention_forward_TinyEdit self mask1 mask2 s h r);
          assumption|].
  split.
  - unfold add. rewrite elementwise_ok by (simpl; congruence).
    unfold ret. f_equal. unfold TinyEdit, tabulate, s. simpl. f_equal.
    rewrite length_zip_with, <- Hlen, Nat.min_id.
    apply (rows_ext (length (rows x)) (width x)).
    + rewrite length_zip_with, !length_map, !length_seq. lia.
    + rewrite length_map. apply length_seq.
    + apply Forall_zip_with_length.
      * apply Forall_tabulate_length.
      * rewrite Hyw, <- Hxw. apply Forall_tabulate_length.
    + apply Forall_tabulate_length.
    + intros i j Hi Hj.
      rewrite (entry_zip_rows kadd _ _ (width x)).
      * rewrite !(nth_map_seq _ _ i []) by lia.
        rewrite !(nth_map_seq _ _ j k0) by lia.
        symmetry. apply Tiny_entry_additive; [reflexivity | congruence |].
        intros l. unfold entry. simpl.
        apply (entry_zip_rows kadd _ _ (width x)); try assumption.
        -- ring.
        -- rewrite Hxw, <- Hyw. exact Hyr.
      * ring.
      * rewrite !length_map, !length_seq. lia.
      * apply Forall_tabulate_length.
      * rewrite Hyw, <- Hxw. apply Forall_tabulate_length.
  - rewrite (TinyIntervention_forward_TinyEdit self mask1 mask2 (scale x c) h r)
      by assumption.
    unfold ret. f_equal. unfold TinyEdit at 1. unfold tabulate, scale, tensor_map.
    simpl. f_equal. rewrite length_map.
    apply (rows_ext (length (rows x)) (width x)).
    + rewrite length_map. apply length_seq.
    + rewrite !length_map. apply length_seq.
    + apply Forall_tabulate_length.
    + apply Forall_map_map_length. apply Forall_tabulate_length.
    + intros i j Hi Hj.
      rewrite (entry_map_rows (fun v => v * c)) by ring.
      rewrite !(nth_map_seq _ _ i []) by lia.
      rewrite !(nth_map_seq _ _ j k0) by lia.
      apply (Tiny_entry_homogeneous _ _ _ _ _ c x).
      * reflexivity.
      * intros l. unfold entry. simpl.
        apply (entry_map_rows (fun v => v * c)). ring.
Qed.

Lemma zip_with_map_l {A B} (g : B -> A -> B) (e : A -> B) (l : list A) :
  zip_with g (map e l) l = map (fun x => g (e x) x) l.
Proof. induction l as [|a l IH]; simpl; congruence. Qed.

(** [((u.B).diag(b)) * s = u.(B.diag(b) * s)] *)
Lemma tiny_tail_factor (h r : nat) (B : list (list K)) (b : list K) (s : K)
    (u : list K) :
  length B = r -> Forall (fun row => length row = h) B -> length u = r ->
  map (fun v => v * s) (vec_mat h (diag_rows h b) (vec_mat h B u)) =
  vec_mat h (map (fun row => map (fun v => v * s) (vec_mat h (diag_rows h b) row)) B) u.
Proof.
  intros HB HBrows Hu.
  rewrite (list_tabulate (map _ (vec_mat h (diag_rows h b) (vec_mat h B u))) k0).
  rewrite (list_tabulate (vec_mat h (map _ B) u) k0).
  rewrite length_map, !length_vec_mat. apply map_seq_ext. intros j Hj.
  rewrite (nth_map' (fun v => v * s) _ j k0 k0) by (rewrite length_vec_mat; lia).
  rewrite nth_vec_mat_diag by (rewrite ?length_vec_mat; auto).
  rewrite nth_vec_mat by (try exact Hj; congruence).
  rewrite nth_vec_mat by (try exact Hj; rewrite length_map; congruence).
  rewrite length_map, <- !bigsum_mul_r. apply bigsum_ext. intros k Hk.
  rewrite (nth_map' _ _ k [] []) by exact Hk.
  assert (Hrow : length (nth k B []) = h).
  { rewrite Forall_forall in HBrows. apply HBrows, list_elem_of_In, nth_In. exact Hk. }
  rewrite (nth_map' (fun v => v * s) _ j k0 k0) by (rewrite length_vec_mat; lia).
  rewrite nth_vec_mat_diag by assumption. ring.
Qed.

(** X5.  The edit of [TinyIntervention] has rank at most
    [low_rank_dimension]: [forward(base) - base] factors as [U.V] with an
    inner dimension of [low_rank_dimension]. *)
Theorem TinyIntervention_edit_low_rank
    (self : TinyIntervention (K:=K)) (mask1 mask2 : nat -> nat -> K)
    (base : Tensor) (h r : nat) :
  Tiny_shaped h r self -> tiny_dropout self = None ->
  wf base -> width base = h ->
  exists out D : Tensor,
    TinyIntervention_forward self mask1 mask2 base = ret out /\
    subtract out base = ret D /\
    rank_le r D.
Proof.
  intros Hself Hdrop Hwf Hbase.
  destruct (TinyIntervention_forward_rows self mask1 mask2 base h r
              Hself Hdrop Hbase) as (a & b & Hra & Hrb & Hfw).
  destruct Hself as (HA & HB & Ha & Hb).
  pose proof (is_matrix_length _ _ _ HB) as HBlen.
  destruct HB as (_ & HBw & _ & HBrows). rewrite HBw in HBrows.
  eexists. eexists. split; [exact Hfw|]. split.
  { unfold subtract. apply elementwise_ok; simpl; congruence. }
  exists (map (fun x => vec_mat r (diag_rows r a) (vec_mat r (rows (param_A self)) x))
              (rows base)),
         (map (fun row => map (fun v => v * scaling self)
                              (vec_mat h (diag_rows h b) row))
              (rows (param_B self))).
  split; [apply Forall_map_length; intros x; apply length_vec_mat|].
  split; [rewrite length_map; exact HBlen|].
  simpl. rewrite zip_with_map_l, map_map.
  apply map_ext_in. intros x Hx.
  assert (Hxl : length x = h).
  { destruct Hwf as [_ Hrows]. rewrite Forall_forall in Hrows.
    rewrite <- Hbase. apply Hrows, list_elem_of_In, Hx. }
  unfold tiny_row.
  rewrite add_sub_cancel_row by (rewrite length_map, length_vec_mat; exact Hxl).
  apply (tiny_tail_factor h r); [exact HBlen | exact HBrows | apply length_vec_mat].
Qed.

End TinyAlgebra.

(** ** How load_state_dict fails and what it keeps *)

Section LoadBehaviour.
Context {K : Type} {SK : Scalar K}.
Local Open Scope K_scope.

Local Abbreviation Tensor := (@paddle.Tensor K).

Lemma setitem_cols_error (w v : Tensor) (c : nat) (e : exn) :
  setitem_cols w c v = inl e -> e = ValueError.
Proof.
  unfold setitem_cols.
  destruct (lead w) as [|n [|]]; try (intros [= <-]; reflexivity).
  destruct (Nat.eqb _ _); [|intros [= <-]; reflexivity].
  destruct (bool_decide _); [discriminate|].
  destruct (lead v) as [|[|[|k]] [|]]; destruct (rows v) as [|r [|]];
    try discriminate; intros [= <-]; reflexivity.
Qed.

Lemma setitem_cols_too_wide (w v : Tensor) (n m : nat) :
  is_matrix n m w -> (m < width v)%nat ->
  setitem_cols w (width v) v = raise ValueError.
Proof.
  intros (Hl & Hw & _) Hlt. unfold setitem_cols. rewrite Hl, Hw.
  destruct (Nat.eqb_spec (width v) (Nat.min (width v) m)) as [E|_]; [lia|].
  reflexivity.
Qed.

Lemma setitem_cols_matrix (w v : Tensor) (n m c : nat) :
  is_matrix n m w -> is_matrix n c v -> (c <= m)%nat ->
  setitem_cols w (width v) v =
  ret {| dtype := dtype w; lead := lead w; width := width w;
         rows := zip_with (overwrite_prefix c) (rows w) (rows v) |}.
Proof.
  intros (Hwl & Hww & _) (Hvl & Hvw & _) Hc.
  unfold setitem_cols. rewrite Hwl, Hvw, Hww.
  rewrite Nat.min_l by exact Hc. rewrite Nat.eqb_refl.
  rewrite bool_decide_eq_true_2 by exact Hvl. reflexivity.
Qed.

Lemma length_overwrite_prefix (c m : nat) (old new : list K) :
  length old = m -> length new = c -> (c <= m)%nat ->
  length (overwrite_prefix c old new) = m.
Proof.
  intros Ho Hn Hc. unfold overwrite_prefix.
  rewrite length_app, length_firstn, length_skipn. lia.
Qed.

Lemma overwrite_prefix_idem (c : nat) (old new : list K) :
  length new = c ->
  overwrite_prefix c (overwrite_prefix c old new) new = overwrite_prefix c old new.
Proof.
  intros Hn. unfold overwrite_prefix. f_equal.
  rewrite firstn_all2 by lia. rewrite skipn_app, Hn, Nat.sub_diag.
  rewrite skipn_all2 by lia. reflexivity.
Qed.

Lemma overwrite_prefix_full (m : nat) (old new : list K) :
  length old = m -> length new = m -> overwrite_prefix m old new = new.
Proof.
  intros Ho Hn. unfold overwrite_prefix.
  rewrite firstn_all2, skipn_all2 by lia. apply app_nil_r.
Qed.

Lemma zip_overwrite_idem (c : nat) (rw rv : list (list K)) :
  Forall (fun u => length u = c) rv ->
  zip_with (overwrite_prefix c) (zip_with (overwrite_prefix c) rw rv) rv =
  zip_with (overwrite_prefix c) rw rv.
Proof.
  intros F. revert rw. induction F as [|v rv Hv _ IH]; intros rw.
  - destruct rw; reflexivity.
  - destruct rw as [|o rw]; [reflexivity|]. simpl. f_equal.
    + apply overwrite_prefix_idem. exact Hv.
    + apply IH.
Qed.

Lemma zip_overwrite_full (m : nat) (rw rv : list (list K)) :
  length rw = length rv ->
  Forall (fun u => length u = m) rw -> Forall (fun u => length u = m) rv ->
  zip_with (overwrite_prefix m) rw rv = rv.
Proof.
  revert rv. induction rw as [|o rw IH]; intros rv Hlen Fw Fv.
  - destruct rv; [reflexivity | discriminate].
  - destruct rv as [|v rv]; [discriminate|]. simpl.
    apply Forall_cons in Fw as [Ho Fw]. apply Forall_cons in Fv as [Hv Fv].
    f_equal.
    + apply overwrite_prefix_full; assumption.
    + apply IH; [simpl in Hlen; lia | assumption | assumption].
Qed.

Lemma Forall_zip_overwrite (c m : nat) (rw rv : list (list K)) :
  (c <= m)%nat ->
  Forall (fun u => length u = m) rw -> Forall (fun u => length u = c) rv ->
  Forall (fun u => length u = m) (zip_with (overwrite_prefix c) rw rv).
Proof.
  intros Hc Fw. revert rv. induction Fw as [|o rw Ho _ IH]; intros rv Fv.
  - constructor.
  - destruct Fv as [|v rv Hv Fv]; constructor.
    + apply length_overwrite_prefix; assumption.
    + apply IH. exact Fv.
Qed.

(** Storing a matrix of [c <= m] columns in an [n, m] matrix leaves an
    [n, m] matrix. *)
Lemma is_matrix_overwrite (w v : Tensor) (n m c : nat) :
  is_matrix n m w -> is_matrix n c v -> (c <= m)%nat ->
  is_matrix n m {| dtype := dtype w; lead := lead w; width := width w;
                   rows := zip_with (overwrite_prefix c) (rows w) (rows v) |}.
Proof.
  intros Hw Hv Hc.
  pose proof (is_matrix_length _ _ _ Hw) as Hwn.
  pose proof (is_matrix_length _ _ _ Hv) as Hvn.
  destruct Hw as (Hwl & Hww & _ & Hwr). destruct Hv as (_ & Hvw & _ & Hvr).
  split; [exact Hwl|]. split; [exact Hww|]. split; simpl.
  - rewrite length_zip_with, Hwl. simpl. lia.
  - rewrite Hww in *. rewrite Hvw in Hvr. apply Forall_zip_overwrite; assumption.
Qed.

(** [load_state_dict] on a checkpoint whose rotate-layer weight is an
    [n, c] matrix with [c <= m]. *)
Lemma LoreftIntervention_load_matrix
    (lo : LoreftIntervention (K:=K)) (sd : gmap string Tensor)
    (W b Rw : Tensor) (n m c : nat) :
  is_matrix n m (weight (rotate_layer lo)) ->
  sd !! "learned_source.weight" = Some W ->
  sd !! "learned_source.bias" = Some b ->
  sd !! "rotate_layer.weight" = Some Rw ->
  is_matrix n c Rw -> (c <= m)%nat ->
  LoreftIntervention_load_state_dict sd lo =
  ({| rotate_layer :=
        {| weight :=
             {| dtype := dtype (weight (rotate_layer lo));
                lead := lead (weight (rotate_layer lo));
                width := width (weight (rotate_layer lo));
                rows := zip_with (overwrite_prefix c)
                          (rows (weight (rotate_layer lo))) (rows Rw) |} |};
      learned_source := {| lin_weight := astype (data_type lo) W;
                           lin_bias := astype (data_type lo) b |};
      data_type := data_type lo;
      dropout := dropout lo;
      act_fn := act_fn lo |}, ret tt).
Proof.
  intros HR HW Hb HRw HRwm Hc.
  rewrite LoreftIntervention_load_state_dict_cases, HW, Hb, HRw. simpl.
  pose proof (setitem_cols_matrix (weight (rotate_layer lo))
                (astype (data_type lo) Rw) n m c HR HRwm Hc) as Hset.
  simpl in Hset. rewrite Hset. reflexivity.
Qed.

Lemma setitem_cols_idem (w v w' : Tensor) (n m : nat) :
  is_matrix n m w -> wf v ->
  setitem_cols w (width v) v = ret w' ->
  setitem_cols w' (width v) v = ret w'.
Proof.
  intros (Hwl & _) [_ Hvrows]. unfold setitem_cols. rewrite Hwl.
  destruct (Nat.eqb (width v) (Nat.min (width v) (width w))) eqn:E;
    [|discriminate].
  apply Nat.eqb_eq in E.
  destruct (bool_decide (lead v = [n])) eqn:Hlead.
  - intros [= <-]. simpl. rewrite <- E, Nat.eqb_refl, Hlead.
    rewrite zip_overwrite_idem by exact Hvrows. reflexivity.
  - assert (Hbc : forall r, rows v = [r] ->
              map (fun old => overwrite_prefix (width v) old r)
                  (map (fun old => overwrite_prefix (width v) old r) (rows w))
              = map (fun old => overwrite_prefix (width v) old r) (rows w)).
    { intros r Hr. rewrite map_map. apply map_ext. intros old.
      apply overwrite_prefix_idem.
      rewrite Hr in Hvrows. apply Forall_cons in Hvrows as [Hrl _]. exact Hrl. }
    rewrite <- E.
    destruct (lead v) as [|[|[|k]] [|]] eqn:Elead; try discriminate;
      destruct (rows v) as [|r [|]] eqn:Erows; try discriminate;
      intros [= <-]; cbn [dtype lead width rows]; rewrite <- E, Nat.eqb_refl, Hlead;
      rewrite (Hbc r eq_refl); reflexivity.
Qed.

(** X8.  Given the three keys and an [n]-row rotate-layer weight in the
    checkpoint, [LoreftIntervention.load_state_dict] returns exactly when
    that weight is no wider than the layer's; a wider one raises the
    framework's shape error after the learned source has already been
    replaced, the rotate layer's weight being left as it was. *)
Theorem LoreftIntervention_load_state_dict_width_bound
    (lo : LoreftIntervention (K:=K)) (sd : gmap string Tensor)
    (W b Rw : Tensor) (n m c : nat) :
  is_matrix n m (weight (rotate_layer lo)) ->
  sd !! "learned_source.weight" = Some W ->
  sd !! "learned_source.bias" = Some b ->
  sd !! "rotate_layer.weight" = Some Rw ->
  is_matrix n c Rw ->
  (snd (LoreftIntervention_load_state_dict sd lo) = ret tt <-> (c <= m)%nat) /\
  ((m < c)%nat ->
     snd (LoreftIntervention_load_state_dict sd lo) = raise ValueError /\
     weight (rotate_layer (fst (LoreftIntervention_load_state_dict sd lo)))
     = weight (rotate_layer lo) /\
     lin_weight (learned_source (fst (LoreftIntervention_load_state_dict sd lo)))
     = astype (data_type lo) W /\
     lin_bias (learned_source (fst (LoreftIntervention_load_state_dict sd lo)))
     = astype (data_type lo) b).
Proof.
  intros HR HW Hb HRw HRwm.
  assert (Hwide : (m < c)%nat ->
            LoreftIntervention_load_state_dict sd lo =
            (set_learned_source_bias (astype (data_type lo) b)
               (set_learned_source_weight (astype (data_type lo) W) lo),
             raise ValueError)).
  { intros Hlt. rewrite LoreftIntervention_load_state_dict_cases, HW, Hb, HRw. simpl.
    pose proof (setitem_cols_too_wide (weight (rotate_layer lo))
                  (astype (data_type lo) Rw) n m HR) as Hset.
    simpl in Hset. destruct HRwm as (_ & HRww & _). rewrite HRww in Hset.
    rewrite HRww, (Hset Hlt). reflexivity. }
  split.
  - split.
    + intros Hret. destruct (Nat.le_gt_cases c m) as [Hle|Hlt]; [exact Hle|].
      rewrite (Hwide Hlt) in Hret. discriminate.
    + intros Hle.
      rewrite (LoreftIntervention_load_matrix lo sd W b Rw n m c) by assumption.
      reflexivity.
  - intros Hlt. rewrite (Hwide Hlt). repeat split; reflexivity.
Qed.

(** X9.  [LoreftIntervention.load_state_dict] raises [KeyError] for the
    first of "learned_source.weight", "learned_source.bias" and
    "rotate_layer.weight" that the checkpoint lacks, and for no other
    reason; it is not atomic: the parameters read before the missing key
    have been replaced when it raises. *)
Theorem LoreftIntervention_load_state_dict_missing_key
    (lo : LoreftIntervention (K:=K)) (sd : gmap string Tensor) :
  (forall key,
     snd (LoreftIntervention_load_state_dict sd lo) = raise (KeyError key) <->
     (key = "learned_source.weight" /\ sd !! "learned_source.weight" = None) \/
     (key = "learned_source.bias" /\ is_Some (sd !! "learned_source.weight") /\
      sd !! "learned_source.bias" = None) \/
     (key = "rotate_layer.weight" /\ is_Some (sd !! "learned_source.weight") /\
      is_Some (sd !! "learned_source.bias") /\
      sd !! "rotate_layer.weight" = None)) /\
  (sd !! "learned_source.weight" = None ->
     fst (LoreftIntervention_load_state_dict sd lo) = lo) /\
  (forall W, sd !! "learned_source.weight" = Some W ->
     lin_weight (learned_source (fst (LoreftIntervention_load_state_dict sd lo)))
     = astype (data_type lo) W) /\
  (forall W b, sd !! "learned_source.weight" = Some W ->
     sd !! "learned_source.bias" = Some b ->
     lin_bias (learned_source (fst (LoreftIntervention_load_state_dict sd lo)))
     = astype (data_type lo) b).
Proof.
  rewrite LoreftIntervention_load_state_dict_cases.
  destruct (sd !! "learned_source.weight") as [W|] eqn:EW.
  2:{ split; [|split; [reflexivity | split; intros; discriminate]].
      intros key. simpl. split.
      - intros [= <-]. left. split; reflexivity.
      - intros [[-> _] | [(_ & [? H] & _) | (_ & [? H] & _)]];
          [reflexivity | discriminate | discriminate]. }
  destruct (sd !! "learned_source.bias") as [b|] eqn:Eb.
  2:{ split; [|split; [discriminate | split; [|intros; discriminate]]].
      - intros key. simpl. split.
        + intros [= <-]. right; left. repeat split; eauto.
        + intros [[_ H] | [(-> & _ & _) | (_ & _ & [? H] & _)]];
            [discriminate | reflexivity | discriminate].
      - intros W' [= <-]. reflexivity. }
  destruct (sd !! "rotate_layer.weight") as [Rw|] eqn:ERw.
  2:{ split; [|split; [discriminate | split]].
      - intros key. simpl. split.
        + intros [= <-]. right; right. repeat split; eauto.
        + intros [[_ H] | [(_ & _ & H) | (-> & _)]];
            [discriminate | discriminate | reflexivity].
      - intros W' [= <-]. reflexivity.
      - intros W' b' [= <-] [= <-]. reflexivity. }
  simpl.
  destruct (setitem_cols _ _ _) as [e|new_w] eqn:Eset; simpl.
  - apply setitem_cols_error in Eset. subst e.
    split; [|split; [discriminate | split]].
    + intros key. split; [discriminate|].
      intros [[_ H] | [(_ & _ & H) | (_ & _ & _ & H)]]; discriminate.
    + intros W' [= <-]. reflexivity.
    + intros W' b' [= <-] [= <-]. reflexivity.
  - split; [|split; [discriminate | split]].
    + intros key. split; [discriminate|].
      intros [[_ H] | [(_ & _ & H) | (_ & _ & _ & H)]]; discriminate.
    + intros W' [= <-]. reflexivity.
    + intros W' b' [= <-] [= <-]. reflexivity.
Qed.

(** X10.  Loading a checkpoint whose tensors have the intervention's shapes
    (the rotate-layer weight possibly narrower) returns and keeps the
    intervention well shaped; [data_type], the dropout and the activation,
    and the dtype of the rotate layer's weight are left as they were. *)
Theorem LoreftIntervention_load_state_dict_keeps_shapes
    (lo : LoreftIntervention (K:=K)) (sd : gmap string Tensor)
    (W b Rw : Tensor) (n r c : nat) :
  Loreft_shaped n r lo ->
  sd !! "learned_source.weight" = Some W ->
  sd !! "learned_source.bias" = Some b ->
  sd !! "rotate_layer.weight" = Some Rw ->
  is_matrix n r W -> is_vector r b -> is_matrix n c Rw -> (c <= r)%nat ->
  exists lo',
    LoreftIntervention_load_state_dict sd lo = (lo', ret tt) /\
    Loreft_shaped n r lo' /\
    data_type lo' = data_type lo /\ dropout lo' = dropout lo /\
    act_fn lo' = act_fn lo /\
    dtype (weight (rotate_layer lo')) = dtype (weight (rotate_layer lo)) /\
    dtype (lin_weight (learned_source lo')) = data_type lo /\
    dtype (lin_bias (learned_source lo')) = data_type lo.
Proof.
  intros (HR & _ & _) HW Hb HRw HWm Hbv HRwm Hc.
  eexists. split.
  { apply (LoreftIntervention_load_matrix lo sd W b Rw n r c); assumption. }
  split; [|repeat split; reflexivity].
  split; [|split]; simpl.
  - apply is_matrix_overwrite; assumption.
  - exact HWm.
  - exact Hbv.
Qed.

(** X11.  Loading is idempotent: when [load_state_dict] has returned,
    loading the same checkpoint again returns and changes nothing, for both
    interventions. *)
Theorem load_state_dict_idempotent
    (lo lo' : LoreftIntervention (K:=K)) (ti ti' : TinyIntervention (K:=K))
    (sdL sdT : gmap string Tensor) (n m : nat) :
  is_matrix n m (weight (rotate_layer lo)) ->
  (forall Rw, sdL !! "rotate_layer.weight" = Some Rw -> wf Rw) ->
  LoreftIntervention_load_state_dict sdL lo = (lo', ret tt) ->
  TinyIntervention_load_state_dict sdT ti = (ti', ret tt) ->
  LoreftIntervention_load_state_dict sdL lo' = (lo', ret tt) /\
  TinyIntervention_load_state_dict sdT ti' = (ti', ret tt).
Proof.
  intros HR Hwf HL HT. split.
  - rewrite LoreftIntervention_load_state_dict_cases in HL.
    rewrite LoreftIntervention_load_state_dict_cases.
    destruct (sdL !! "learned_source.weight") as [W|]; [|discriminate].
    destruct (sdL !! "learned_source.bias") as [b|]; [|discriminate].
    destruct (sdL !! "rotate_layer.weight") as [Rw|] eqn:ERw; [|discriminate].
    simpl in HL.
    destruct (setitem_cols _ _ _) as [e|new_w] eqn:Eset; [discriminate|].
    injection HL as <-. simpl.
    pose proof (setitem_cols_idem (weight (rotate_layer lo))
                  (astype (data_type lo) Rw) new_w n m HR
                  (wf_astype _ _ (Hwf Rw eq_refl)) Eset) as Hidem.
    simpl in Hidem. rewrite Hidem. reflexivity.
  - destruct (TinyIntervention_load_state_dict_returns sdT ti ti' HT)
      as (vA & vB & va & vb & H1 & H2 & H3 & H4 & _ & _ & _ & _ & ->).
    unfold TinyIntervention_load_state_dict, mbind_st, mget, mlift, mmodify, getitem.
    rewrite H1. simpl. rewrite (set_value_ok vA vA eq_refl eq_refl). simpl.
    rewrite H2. simpl. rewrite (set_value_ok vB vB eq_refl eq_refl). simpl.
    rewrite H3. simpl. rewrite (set_value_ok va va eq_refl eq_refl). simpl.
    rewrite H4. simpl. rewrite (set_value_ok vb vb eq_refl eq_refl). simpl.
    reflexivity.
Qed.

(** X12.  A checkpoint whose rotate-layer weight has the layer's full shape
    determines the parameters completely: two interventions that agree on
    [data_type], dropout, activation and the rotate weight's dtype are equal
    after loading it, whatever their parameters were; the learned source
    then holds the checkpoint's weight and bias cast to [data_type], and the
    rotate layer's weight the rows of the checkpoint's rotate-layer weight
    cast to [data_type]. *)
Theorem LoreftIntervention_load_state_dict_overrides_prior
    (lo1 lo2 : LoreftIntervention (K:=K)) (sd : gmap string Tensor)
    (W b Rw : Tensor) (n m : nat) :
  is_matrix n m (weight (rotate_layer lo1)) ->
  is_matrix n m (weight (rotate_layer lo2)) ->
  dtype (weight (rotate_layer lo1)) = dtype (weight (rotate_layer lo2)) ->
  data_type lo1 = data_type lo2 -> dropout lo1 = dropout lo2 ->
  act_fn lo1 = act_fn lo2 ->
  sd !! "learned_source.weight" = Some W ->
  sd !! "learned_source.bias" = Some b ->
  sd !! "rotate_layer.weight" = Some Rw ->
  is_matrix n m Rw ->
  LoreftIntervention_load_state_dict sd lo1 =
  LoreftIntervention_load_state_dict sd lo2 /\
  snd (LoreftIntervention_load_state_dict sd lo1) = ret tt /\
  learned_source (fst (LoreftIntervention_load_state_dict sd lo1))
  = {| lin_weight := astype (data_type lo1) W;
       lin_bias := astype (data_type lo1) b |} /\
  rows (weight (rotate_layer (fst (LoreftIntervention_load_state_dict sd lo1))))
  = rows (astype (data_type lo1) Rw).
Proof.
  intros HR1 HR2 Hdt Hdata Hdrop Hact HW Hb HRw HRwm.
  rewrite (LoreftIntervention_load_matrix lo1 sd W b Rw n m m) by (auto; lia).
  rewrite (LoreftIntervention_load_matrix lo2 sd W b Rw n m m) by (auto; lia).
  assert (Hfull : forall lo : LoreftIntervention (K:=K),
            is_matrix n m (weight (rotate_layer lo)) ->
            zip_with (overwrite_prefix m) (rows (weight (rotate_layer lo))) (rows Rw)
            = rows Rw).
  { intros lo HR. pose proof (is_matrix_length _ _ _ HR) as Hn1.
    pose proof (is_matrix_length _ _ _ HRwm) as Hn2.
    destruct HR as (_ & Hw1 & _ & Hr1). destruct HRwm as (_ & Hw2 & _ & Hr2).
    rewrite Hw1 in Hr1. rewrite Hw2 in Hr2.
    apply zip_overwrite_full; [congruence | assumption | assumption]. }
  rewrite (Hfull lo1 HR1), (Hfull lo2 HR2). simpl.
  destruct HR1 as (Hl1 & Hw1 & _), HR2 as (Hl2 & Hw2 & _).
  rewrite Hdt, Hdata, Hdrop, Hact, Hl1, Hl2, Hw1, Hw2.
  repeat split; reflexivity.
Qed.

Lemma set_value_inv (q v v' : Tensor) :
  set_value q v = ret v' -> shape q = shape v /\ dtype q = dtype v /\ v' = v.
Proof.
  unfold set_value.
  destruct (bool_decide (shape q = shape v)) eqn:Hs; [|discriminate].
  destruct (DType_eqb (dtype q) (dtype v)) eqn:Hd; [|discriminate].
  simpl. intros [= <-]. apply bool_decide_eq_true_1 in Hs.
  repeat split; try assumption.
  destruct (dtype q), (dtype v); try reflexivity; discriminate.
Qed.

Lemma shape_inj (x y : Tensor) :
  shape x = shape y -> lead x = lead y /\ width x = width y.
Proof. unfold shape. intros H. apply app_inj_tail in H. exact H. Qed.

Lemma is_matrix_same_shape (a b : nat) (q v : Tensor) :
  is_matrix a b q -> shape q = shape v -> wf v -> is_matrix a b v.
Proof.
  intros (Hl & Hw & _) Hs Hwf. apply shape_inj in Hs as [Hl' Hw'].
  split; [congruence|]. split; [congruence | exact Hwf].
Qed.

Lemma is_vector_same_shape (a : nat) (q v : Tensor) :
  is_vector a q -> shape q = shape v -> wf v -> is_vector a v.
Proof.
  intros (Hl & Hw & _) Hs Hwf. apply shape_inj in Hs as [Hl' Hw'].
  split; [congruence|]. split; [congruence | exact Hwf].
Qed.

(** X13.  [TinyIntervention.load_state_dict] returns exactly when the
    checkpoint has the four keys and each tensor has the shape and the dtype
    of the parameter it replaces. *)
Theorem TinyIntervention_load_state_dict_returns_iff
    (ti : TinyIntervention (K:=K)) (sd : gmap string Tensor) :
  (exists ti', TinyIntervention_load_state_dict sd ti = (ti', ret tt)) <->
  (exists vA vB va vb,
     sd !! "param_A" = Some vA /\ sd !! "param_B" = Some vB /\
     sd !! "param_a" = Some va /\ sd !! "param_b" = Some vb /\
     shape (param_A ti) = shape vA /\ dtype (param_A ti) = dtype vA /\
     shape (param_B ti) = shape vB /\ dtype (param_B ti) = dtype vB /\
     shape (param_a ti) = shape va /\ dtype (param_a ti) = dtype va /\
     shape (param_b ti) = shape vb /\ dtype (param_b ti) = dtype vb).
Proof.
  split.
  - intros [ti' Hload].
    destruct (TinyIntervention_load_state_dict_returns sd ti ti' Hload)
      as (vA & vB & va & vb & H1 & H2 & H3 & H4 & SA & SB & Sa & Sb & _).
    apply set_value_inv in SA as (? & ? & _). apply set_value_inv in SB as (? & ? & _).
    apply set_value_inv in Sa as (? & ? & _). apply set_value_inv in Sb as (? & ? & _).
    exists vA, vB, va, vb. repeat split; assumption.
  - intros (vA & vB & va & vb & H1 & H2 & H3 & H4 &
            HsA & HdA & HsB & HdB & Hsa & Hda & Hsb & Hdb).
    unfold TinyIntervention_load_state_dict, mbind_st, mget, mlift, mmodify, getitem.
    rewrite H1. simpl. rewrite (set_value_ok _ _ HsA HdA). simpl.
    rewrite H2. simpl. rewrite (set_value_ok _ _ HsB HdB). simpl.
    rewrite H3. simpl. rewrite (set_value_ok _ _ Hsa Hda). simpl.
    rewrite H4. simpl. rewrite (set_value_ok _ _ Hsb Hdb). simpl.
    eauto.
Qed.

(** X14.  When [TinyIntervention.load_state_dict] returns, the intervention
    is still well shaped, and its rank, hidden size, scaling, dropout and
    parameter dtypes are what they were. *)
Theorem TinyIntervention_load_state_dict_keeps_shapes
    (ti ti' : TinyIntervention (K:=K)) (sd : gmap string Tensor) (h r : nat) :
  Tiny_shaped h r ti ->
  (forall key v, sd !! key = Some v -> wf v) ->
  TinyIntervention_load_state_dict sd ti = (ti', ret tt) ->
  Tiny_shaped h r ti' /\
  rank ti' = rank ti /\ hidden_size ti' = hidden_size ti /\
  scaling ti' = scaling ti /\ tiny_dropout ti' = tiny_dropout ti /\
  dtype (param_A ti') = dtype (param_A ti) /\
  dtype (param_B ti') = dtype (param_B ti) /\
  dtype (param_a ti') = dtype (param_a ti) /\
  dtype (param_b ti') = dtype (param_b ti).
Proof.
  intros (HA & HB & Ha & Hb) Hwf Hload.
  destruct (TinyIntervention_load_state_dict_returns sd ti ti' Hload)
    as (vA & vB & va & vb & H1 & H2 & H3 & H4 & SA & SB & Sa & Sb & ->).
  apply set_value_inv in SA as (HsA & HdA & _).
  apply set_value_inv in SB as (HsB & HdB & _).
  apply set_value_inv in Sa as (Hsa & Hda & _).
  apply set_value_inv in Sb as (Hsb & Hdb & _).
  simpl. split; [|repeat split; congruence].
  split; [|split; [|split]].
  - apply (is_matrix_same_shape h r _ vA HA HsA). exact (Hwf _ _ H1).
  - apply (is_matrix_same_shape r h _ vB HB HsB). exact (Hwf _ _ H2).
  - apply (is_vector_same_shape r _ va Ha Hsa). exact (Hwf _ _ H3).
  - apply (is_vector_same_shape h _ vb Hb Hsb). exact (Hwf _ _ H4).
Qed.

(** X15.  After a checkpoint of the intervention's full shapes has been
    loaded, on a base whose dtype is the intervention's [data_type],
    [LoreftIntervention.forward] computes the LoReFT formula with the
    checkpoint's tensors cast to [data_type]: the parameters the
    intervention had before play no part. *)
Theorem LoreftIntervention_forward_after_load
    (lo : LoreftIntervention (K:=K)) (sd : gmap string Tensor)
    (W b Rw : Tensor) (f : K -> K) (mask : nat -> nat -> K) (base : Tensor)
    (n r : nat) :
  Loreft_shaped n r lo -> (forall t, act_fn lo t = tensor_map f t) ->
  sd !! "learned_source.weight" = Some W ->
  sd !! "learned_source.bias" = Some b ->
  sd !! "rotate_layer.weight" = Some Rw ->
  is_matrix n r W -> is_vector r b -> is_matrix n r Rw ->
  wf base -> width base = n ->
  dtype base = data_type lo ->
  promote_types (data_type lo) (dtype (weight (rotate_layer lo)))
  = dtype (weight (rotate_layer lo)) ->
  exists lo',
    LoreftIntervention_load_state_dict sd lo = (lo', ret tt) /\
    LoreftIntervention_forward lo' mask base =
    Dropout_forward (dropout lo) mask
      (tabulate (dtype base) (lead base) (length (rows base)) (width base)
         (LoReFT_entry f (astype (data_type lo) Rw) (astype (data_type lo) W)
                       (astype (data_type lo) b) base)).
Proof.
  intros Hlo Hact HW Hb HRw HWm Hbv HRwm Hwf Hbase Hd Hprom.
  pose proof Hlo as (HR & _ & _).
  eexists. split.
  { apply (LoreftIntervention_load_matrix lo sd W b Rw n r r); auto. }
  rewrite (LoreftIntervention_forward_LoReFT _ mask base f n r);
    try assumption.
  - simpl. f_equal. unfold LoReFT. simpl. f_equal.
    pose proof (is_matrix_length _ _ _ HR) as Hn1.
    pose proof (is_matrix_length _ _ _ HRwm) as Hn2.
    destruct HR as (_ & Hw1 & _ & Hr1). destruct HRwm as (_ & Hw2 & _ & Hr2).
    rewrite Hw1 in Hr1. rewrite Hw2 in Hr2.
    rewrite zip_overwrite_full by (congruence || assumption).
    unfold LoReFT_entry, learned_source_entry, rotated_entry, entry. simpl.
    rewrite Hw1, Hw2. reflexivity.
  - split; [|split]; simpl.
    + apply is_matrix_overwrite; auto.
    + exact HWm.
    + exact Hbv.
  - split; [|split]; simpl; [congruence | congruence | rewrite Hd; exact Hprom].
Qed.

End LoadBehaviour.

(** ** From construction to the forward pass *)

Section ConstructedForward.
Context {K : Type} {SK : Scalar K}.
Local Open Scope K_scope.

Local Abbreviation Tensor := (@paddle.Tensor K).

(** X16.  An intervention returned by [LoreftIntervention.__init__] has a
    rotate weight of the framework's default dtype and a learned source of
    the dtype [d] given as ["dtype"].  With a dropout probability in [0, 1]
    and a [d] that combines with the default dtype to the default dtype,
    [forward] returns, on a base of dtype [d] whose last dimension is
    [embed_dim], a tensor of the base's shape and dtype; on a base of
    another dtype it raises [ValueError]. *)
Theorem LoreftIntervention_constructed_forward_returns
    (Orthogonal_R Orthogonal_W : nat -> nat -> K) (kwargs : Kwargs)
    (self : LoreftIntervention (K:=K)) (mask : nat -> nat -> K)
    (base : Tensor) (n r : nat) (d : DType) :
  LoreftIntervention_init Orthogonal_R Orthogonal_W kwargs = ret self ->
  kw_embed_dim kwargs = Some n -> kw_low_rank_dimension kwargs = Some r ->
  kw_dtype kwargs = Some d ->
  (forall q, kw_dropout kwargs = Some q ->
     Qle_bool 0 q = true /\ Qle_bool q 1 = true) ->
  wf base -> width base = n ->
  dtype (weight (rotate_layer self)) = default_dtype /\
  dtype (lin_weight (learned_source self)) = d /\
  dtype (lin_bias (learned_source self)) = d /\
  (dtype base = d -> promote_types d default_dtype = default_dtype ->
   exists out,
     LoreftIntervention_forward self mask base = ret out /\
     shape out = shape base /\ dtype out = dtype base /\ wf out) /\
  (dtype base <> d ->
   LoreftIntervention_forward self mask base = raise ValueError).
Proof.
  intros Hinit Hn Hr Hd Hq Hwf Hbase.
  destruct (LoreftIntervention_init_shaped _ _ _ _ n r Hinit Hn Hr)
    as (Hshaped & _ & f & Hact).
  apply LoreftIntervention_init_inv in Hinit
    as (n' & r' & d' & g & _ & _ & Hd' & _ & _ & _ & Hself).
  rewrite Hd in Hd'. injection Hd' as <-.
  assert (Hdrop : dropout self = {| p := match kw_dropout kwargs with
                                         | Some q => q
                                         | None => 0%Q
                                         end;
                                    training := true |})
    by (rewrite Hself; reflexivity).
  assert (HdR : dtype (weight (rotate_layer self)) = default_dtype)
    by (rewrite Hself; reflexivity).
  assert (HdW : dtype (lin_weight (learned_source self)) = d)
    by (rewrite Hself; reflexivity).
  assert (Hdb : dtype (lin_bias (learned_source self)) = d)
    by (rewrite Hself; reflexivity).
  clear Hself.
  split; [exact HdR|]. split; [exact HdW|]. split; [exact Hdb|]. split.
  - intros Hbd Hprom.
    assert (Hp : valid_p (dropout self)).
    { rewrite Hdrop. unfold valid_p. simpl.
      destruct (kw_dropout kwargs) as [q|]; [apply Hq; reflexivity|].
      split; reflexivity. }
    assert (Htyped : Loreft_typed (dtype base) self).
    { split; [|split]; [congruence | congruence |].
      rewrite HdR, Hbd. exact Hprom. }
    rewrite (LoreftIntervention_forward_LoReFT self mask base f n r
               Hshaped Htyped Hact Hwf Hbase).
    destruct (Dropout_forward_shape (dropout self) mask (LoReFT f self base) Hp)
      as (out & Hout & Hdt & Hl & Hw & Hwfo).
    exists out. split; [exact Hout|]. split; [|split].
    + apply shape_eq; [rewrite Hl | rewrite Hw]; reflexivity.
    + rewrite Hdt. reflexivity.
    + apply Hwfo, wf_LoReFT, Hwf.
  - intros Hne.
    apply (LoreftIntervention_forward_dtype_mismatch self mask base n r);
      [assumption | assumption | congruence].
Qed.

(** X17.  [LowRankRotateLayer.forward] returns exactly on inputs whose last
    dimension is the weight's first and raises the framework's shape error
    otherwise; the result has the input's leading dimensions, the weight's
    last dimension and, whatever the input's dtype, the weight's dtype. *)
Theorem LowRankRotateLayer_forward_domain_and_result
    (self : LowRankRotateLayer (K:=K)) (x : Tensor) (n m : nat) :
  is_matrix n m (weight self) -> wf x ->
  ((exists out, LowRankRotateLayer_forward self x = ret out) <-> width x = n) /\
  (width x <> n -> LowRankRotateLayer_forward self x = raise ValueError) /\
  (forall out, LowRankRotateLayer_forward self x = ret out ->
     dtype out = dtype (weight self) /\ shape out = lead x ++ [m] /\ wf out).
Proof.
  intros (Hl & Hw & _) Hx.
  assert (Hbad : width x <> n ->
                 LowRankRotateLayer_forward self x = raise ValueError).
  { intros Hne. unfold LowRankRotateLayer_forward.
    apply (matmul_width_mismatch _ _ n); assumption. }
  assert (Hok : width x = n ->
                LowRankRotateLayer_forward self x =
                ret {| dtype := promote_types (dtype (weight self)) (dtype (weight self));
                       lead := lead x; width := width (weight self);
                       rows := map (vec_mat (width (weight self)) (rows (weight self)))
                                   (rows x) |}).
  { intros E. unfold LowRankRotateLayer_forward.
    exact (matmul_ok (astype (dtype (weight self)) x) (weight self) n
             eq_refl Hl E). }
  split; [|split; [exact Hbad|]].
  - split.
    + intros [out Hout]. destruct (Nat.eq_dec (width x) n) as [E|Hne]; [exact E|].
      rewrite (Hbad Hne) in Hout. discriminate.
    + intros E. rewrite (Hok E). eauto.
  - intros out Hout. destruct (Nat.eq_dec (width x) n) as [E|Hne].
    + rewrite (Hok E) in Hout. injection Hout as <-. simpl.
      split; [apply promote_types_diag|]. split.
      * unfold shape. simpl. rewrite Hw. reflexivity.
      * split; simpl.
        -- rewrite length_map. apply Hx.
        -- apply Forall_map_length. intros u. apply length_vec_mat.
    + rewrite (Hbad Hne) in Hout. discriminate.
Qed.

End ConstructedForward.

(** ** The further properties at concrete instances *)

Section FurtherWitnesses.
Import Examples MoreExamples.

Ltac shaped' := repeat first [reflexivity | split | constructor].

Example unit_columns_orthonormal : orthonormal_columns unit_columns.
Proof.
  intros k k' Hk Hk'. change (width unit_columns) with 2%nat in *.
  destruct k as [|[|k]]; [| |lia]; destruct k' as [|[|k']]; try lia; reflexivity.
Qed.

Example third_unit_orthogonal : orthogonal_to_columns unit_columns third_unit.
Proof.
  split; [reflexivity|]. intros k Hk. change (width unit_columns) with 2%nat in Hk.
  destruct k as [|[|k]]; [reflexivity | reflexivity | lia].
Qed.

Example loreft_noop_zero_bias :
  forall k, entry (lin_bias (learned_source loreft_noop)) 0 k = 0%Z.
Proof. intros [|[|[|k]]]; reflexivity. Qed.

Example tiny_checkpoint_wf :
  forall key v, tiny_checkpoint !! key = Some v -> wf v.
Proof.
  intros key v H. unfold tiny_checkpoint in H.
  repeat (apply lookup_insert_Some in H as [[_ <-] | [_ H]]; [shaped'|]).
  apply lookup_singleton_Some in H as [_ <-]. shaped'.
Qed.

Lemma LoreftIntervention_rotated_output_is_learned_source_witness :
  exists out rot src : Tensor (K:=Z),
    LoreftIntervention_forward loreft_orth32 mask base32 = ret out /\
    LowRankRotateLayer_forward (rotate_layer loreft_orth32) out = ret rot /\
    Linear_forward (learned_source loreft_orth32) base32 = ret src /\
    same_values rot (act_fn loreft_orth32 src).
Proof.
  apply (LoreftIntervention_rotated_output_is_learned_source loreft_orth32 mask
           base32 (fun v => v) 3 2);
    first [exact linear_act_elementwise | exact unit_columns_orthonormal | solve [shaped']].
Defined.

Lemma LoreftIntervention_preserves_orthogonal_complement_witness :
  exists out : Tensor (K:=Z),
    LoreftIntervention_forward loreft_orth32 mask base32 = ret out /\
    dot (nth 1 (rows out) []) third_unit
    = dot (nth 1 (rows base32) []) third_unit.
Proof.
  apply (LoreftIntervention_preserves_orthogonal_complement loreft_orth32 mask
           base32 (fun v => v) 3 2 third_unit 1);
    first [exact linear_act_elementwise | exact third_unit_orthogonal
          | solve [shaped'] | (simpl; lia)].
Defined.

Lemma LoreftIntervention_identity_when_source_is_rotation_witness :
  LoreftIntervention_forward loreft_noop mask base32 = ret base32.
Proof.
  apply (LoreftIntervention_identity_when_source_is_rotation loreft_noop mask
           base32 3 2);
    first [exact loreft_noop_zero_bias | solve [shaped']].
Defined.

Lemma TinyIntervention_forward_linear_witness :
  exists fx fy s fs : Tensor (K:=Z),
    TinyIntervention_forward tiny mask mask base32 = ret fx /\
    TinyIntervention_forward tiny mask mask other = ret fy /\
    add base32 other = ret s /\
    TinyIntervention_forward tiny mask mask s = ret fs /\
    add fx fy = ret fs /\
    TinyIntervention_forward tiny mask mask (scale base32 7%Z) = ret (scale fx 7%Z).
Proof.
  apply (TinyIntervention_forward_linear tiny mask mask base32 other 7%Z 3 2);
    shaped'.
Defined.

Lemma TinyIntervention_edit_low_rank_witness :
  exists out D : Tensor (K:=Z),
    TinyIntervention_forward tiny mask mask base = ret out /\
    subtract out base = ret D /\ rank_le 2 D.
Proof.
  apply (TinyIntervention_edit_low_rank tiny mask mask base 3 2); shaped'.
Defined.

Lemma LoreftIntervention_forward_returns_iff_witness :
  (exists out, LoreftIntervention_forward loreft32 mask base32 = ret out) /\
  (width base32 <> 3%nat \/ dtype base32 <> float32 ->
   LoreftIntervention_forward loreft32 mask base32 = raise ValueError).
Proof.
  destruct (LoreftIntervention_forward_returns_iff loreft32 mask base32
              (fun v => v) 3 2 float32) as [Hiff Hbad];
    [solve [shaped'] | solve [shaped'] | exact linear_act_elementwise
    | solve [shaped'] |].
  split; [apply Hiff; split; reflexivity | exact Hbad].
Defined.

Example LoreftIntervention_forward_wrong_dtype_example :
  LoreftIntervention_forward loreft32 mask base = raise ValueError /\
  LoreftIntervention_forward loreft32 mask base64 = raise ValueError /\
  LoreftIntervention_forward loreft32 mask narrow_base = raise ValueError /\
  LoreftIntervention_forward loreft_noop mask base = raise ValueError.
Proof. repeat split; reflexivity. Qed.

Lemma TinyIntervention_forward_returns_iff_witness :
  TinyIntervention_forward tiny mask mask narrow_base = raise ValueError.
Proof.
  apply (TinyIntervention_forward_returns_iff tiny mask mask narrow_base 3 2);
    first [solve [shaped'] | (simpl; lia)].
Defined.

Lemma LoreftIntervention_load_state_dict_width_bound_witness :
  snd (LoreftIntervention_load_state_dict wide_checkpoint loreft) = raise ValueError /\
  weight (rotate_layer (fst (LoreftIntervention_load_state_dict wide_checkpoint loreft)))
  = weight (rotate_layer loreft) /\
  lin_weight (learned_source
                (fst (LoreftIntervention_load_state_dict wide_checkpoint loreft)))
  = astype (data_type loreft) (tensor2 float32 3 2 draw_R) /\
  lin_bias (learned_source
              (fst (LoreftIntervention_load_state_dict wide_checkpoint loreft)))
  = astype (data_type loreft) (tensor1 float32 2 (fun k => Z.of_nat k)).
Proof.
  apply (LoreftIntervention_load_state_dict_width_bound loreft wide_checkpoint
           (tensor2 float32 3 2 draw_R)
           (tensor1 float32 2 (fun k => Z.of_nat k))
           (tensor2 float32 3 4 draw_W) 3 2 4);
    first [solve [shaped'] | lia].
Defined.

Lemma LoreftIntervention_load_state_dict_keeps_shapes_witness :
  exists lo',
    LoreftIntervention_load_state_dict loreft_checkpoint loreft = (lo', ret tt) /\
    Loreft_shaped 3 2 lo' /\
    data_type lo' = data_type loreft /\ dropout lo' = dropout loreft /\
    act_fn lo' = act_fn loreft /\
    dtype (weight (rotate_layer lo')) = dtype (weight (rotate_layer loreft)) /\
    dtype (lin_weight (learned_source lo')) = data_type loreft /\
    dtype (lin_bias (learned_source lo')) = data_type loreft.
Proof.
  apply (LoreftIntervention_load_state_dict_keeps_shapes loreft loreft_checkpoint
           (tensor2 float32 3 2 draw_R)
           (tensor1 float32 2 (fun k => Z.of_nat k))
           narrow_weight 3 2 1);
    first [solve [shaped'] | lia].
Defined.

Lemma load_state_dict_idempotent_witness :
  LoreftIntervention_load_state_dict loreft_checkpoint
    (fst (LoreftIntervention_load_state_dict loreft_checkpoint loreft))
  = (fst (LoreftIntervention_load_state_dict loreft_checkpoint loreft), ret tt) /\
  TinyIntervention_load_state_dict tiny_checkpoint
    (fst (TinyIntervention_load_state_dict tiny_checkpoint fresh_tiny))
  = (fst (TinyIntervention_load_state_dict tiny_checkpoint fresh_tiny), ret tt).
Proof.
  apply (load_state_dict_idempotent loreft _ fresh_tiny _
           loreft_checkpoint tiny_checkpoint 3 2).
  - shaped'.
  - intros Rw [= <-]. shaped'.
  - reflexivity.
  - reflexivity.
Defined.

Lemma LoreftIntervention_load_state_dict_overrides_prior_witness :
  LoreftIntervention_load_state_dict full_checkpoint loreft =
  LoreftIntervention_load_state_dict full_checkpoint loreft_orth /\
  snd (LoreftIntervention_load_state_dict full_checkpoint loreft) = ret tt /\
  learned_source (fst (LoreftIntervention_load_state_dict full_checkpoint loreft))
  = {| lin_weight := astype bfloat16 (tensor2 float32 3 2 draw_R);
       lin_bias := astype bfloat16 (tensor1 float32 2 (fun k => Z.of_nat k)) |} /\
  rows (weight (rotate_layer
          (fst (LoreftIntervention_load_state_dict full_checkpoint loreft))))
  = rows (astype bfloat16 unit_columns).
Proof.
  apply (LoreftIntervention_load_state_dict_overrides_prior loreft loreft_orth
           full_checkpoint
           (tensor2 float32 3 2 draw_R)
           (tensor1 float32 2 (fun k => Z.of_nat k))
           unit_columns 3 2);
    shaped'.
Defined.

Lemma TinyIntervention_load_state_dict_keeps_shapes_witness :
  Tiny_shaped 3 2 (fst (TinyIntervention_load_state_dict tiny_checkpoint fresh_tiny)).
Proof.
  apply (TinyIntervention_load_state_dict_keeps_shapes fresh_tiny _ tiny_checkpoint 3 2).
  - shaped'.
  - exact tiny_checkpoint_wf.
  - reflexivity.
Defined.

Lemma LoreftIntervention_forward_after_load_witness :
  exists lo',
    LoreftIntervention_load_state_dict full_checkpoint loreft32 = (lo', ret tt) /\
    LoreftIntervention_forward lo' mask base32 =
    Dropout_forward (dropout loreft32) mask
      (tabulate (dtype base32) (lead base32) (length (rows base32))
         (width base32)
         (LoReFT_entry (fun v => v) (astype float32 unit_columns)
            (astype float32 (tensor2 float32 3 2 draw_R))
            (astype float32 (tensor1 float32 2 (fun k => Z.of_nat k)))
            base32)).
Proof.
  apply (LoreftIntervention_forward_after_load loreft32 full_checkpoint
           (tensor2 float32 3 2 draw_R)
           (tensor1 float32 2 (fun k => Z.of_nat k))
           unit_columns (fun v => v) mask base32 3 2);
    first [exact linear_act_elementwise | solve [shaped']].
Defined.

Lemma LoreftIntervention_constructed_forward_returns_witness :
  exists out,
    LoreftIntervention_forward loreft_half double_mask base32 = ret out /\
    shape out = shape base32 /\ dtype out = dtype base32 /\ wf out.
Proof.
  destruct (LoreftIntervention_constructed_forward_returns draw_R draw_W
              kwargs_half loreft_half double_mask base32 3 2 float32)
    as (_ & _ & _ & Hret & _).
  - reflexivity.
  - reflexivity.
  - reflexivity.
  - reflexivity.
  - intros q [= <-]. split; reflexivity.
  - shaped'.
  - reflexivity.
  - apply Hret; reflexivity.
Defined.

Lemma LowRankRotateLayer_forward_domain_and_result_witness :
  LowRankRotateLayer_forward (rotate_layer loreft) narrow_base = raise ValueError.
Proof.
  apply (LowRankRotateLayer_forward_domain_and_result (rotate_layer loreft)
           narrow_base 3 2);
    first [solve [shaped'] | (simpl; lia)].
Defined.

Lemma LoreftIntervention_load_state_dict_missing_key_witness :
  snd (LoreftIntervention_load_state_dict bias_less_checkpoint loreft)
  = raise (KeyError "learned_source.bias").
Proof.
  apply (proj1 (LoreftIntervention_load_state_dict_missing_key loreft
                  bias_less_checkpoint)).
  right; left. split; [reflexivity|]. split; [eexists; reflexivity | reflexivity].
Defined.

Lemma TinyIntervention_load_state_dict_returns_iff_witness :
  exists ti', TinyIntervention_load_state_dict tiny_checkpoint fresh_tiny
              = (ti', ret tt).
Proof.
  apply (TinyIntervention_load_state_dict_returns_iff fresh_tiny tiny_checkpoint).
  exists (param_A tiny), (param_B tiny), (param_a tiny), (param_b tiny).
  shaped'.
Defined.

End FurtherWitnesses.
